(** * MACS: memory-aware CPU scheduling simulator

    A shallow embedding of [app/core/scheduler.py]: the Round-Robin timeline
    simulator, the metrics derived from a timeline, the page-access
    generator, the sliding-window page-fault observer and the two scenario
    drivers, followed by the properties of the specification that concern
    them.

    The repository holds two copies of the scheduler, [backend/] and
    [Backend/].  The timeline simulator, the metrics and [observe_run] are
    the same text in both.  They differ in the generator's constructor (both
    are modelled, [new_generator] and [new_generator_legacy]) and in the
    memory-aware driver: the model follows [Backend/], which asks the
    configuration for a seed (the [SystemConfig] of [models/schemas.py]
    declares none), seeds one source per process and draws page counts and
    patterns; [backend/] fixes the seed to 42 and shares one source between
    all generators.

    Conventions of the embedding:
    - a Python [int] is a [Z];
    - a Python number that may be a [float] (burst, arrival, quantum as they
      arrive in the dictionaries; run times; fractions) is a rational [Q]:
      every finite float is a rational, and [round] and [int] are modelled
      exactly on rationals.  In [compute_metrics], in the hotspot size of
      a generator and in the fault average of [update_signal] the binary64
      rounding of each conversion and operation is modelled by [py_float];
      the normalised signals, the quantum and the memory estimate derived
      from them, the draws of the random sources and the averages of the
      result are computed on exact rationals.  Overflow, NaN and
      infinities, on which [float(n)] or [int(round(x))] raises, are
      outside the model;
    - a [dict] keyed by process id is a [gmap string _], [d.get(k, v)] is
      [default v (d !! k)]; the insertion order of a [dict] is not modelled,
      no result depends on it;
    - a [deque] or [list] is a [list], with [append] written [l ++ [x]];
    - a call that can raise ([KeyError] of an unknown id) returns an
      [option]. *)

From Stdlib Require Import ZArith QArith Qround Qabs Qpower Lia Lqa Ascii.
From stdpp Require Import gmap strings list sorting.

#[local] Open Scope Z_scope.

(** ** Numeric coercions *)

(** [int(x)] on a number: truncation towards zero. *)
Definition py_int (x : Q) : Z :=
  if Qle_bool 0 x then Qfloor x else Qceiling x.

(** [round(x)] with one argument: nearest integer, ties to the even one. *)
Definition py_round (x : Q) : Z :=
  let f := Qfloor x in
  match Qcompare (x - inject_Z f) (1 # 2) with
  | Lt => f
  | Gt => f + 1
  | Eq => if Z.even f then f else f + 1
  end.

(** [float(x)], and the rounding of every binary64 operation: the binary64
    number nearest to [x], ties to the even significand.  Modelled from the
    IEEE 754 contract of Python's [float], which is not code of this
    repository: a significand of 53 bits, subnormal numbers down to
    [2^-1074]; the exponent is not bounded above. *)
Definition pow2 (e : Z) : Q :=
  if bool_decide (0 ≤ e) then inject_Z (2 ^ e) else 1 # Z.to_pos (2 ^ (- e)).

(** The integer [e] with [2^e <= x < 2^(e+1)], for a positive [x]. *)
Definition ilog2 (x : Q) : Z :=
  let k := Z.log2 (Qnum x) - Z.log2 (Zpos (Qden x)) in
  if Qle_bool (pow2 k) x then k else k - 1.

Definition py_float (x : Q) : Q :=
  let y := Qred x in
  if Qeq_bool y 0 then 0%Q
  else
    let e := ilog2 (Qabs y) in
    let q := Z.max (e - 52) (-1074) in
    Qred (inject_Z (py_round (y / pow2 q)) * pow2 q).

Example py_round_half_even :
  py_round (5 # 2) = 2 ∧ py_round (7 # 2) = 4 ∧ py_round (-5 # 2) = -2
  ∧ py_round (8 # 5) = 2 ∧ py_round (-1 # 2) = 0.
Proof. repeat split; reflexivity. Qed.

Example py_int_truncates :
  py_int (8 # 5) = 1 ∧ py_int (-3 # 2) = -1 ∧ py_int (2 # 1) = 2.
Proof. repeat split; reflexivity. Qed.

Example py_float_rounds :
  py_float (2 # 10) = 3602879701896397 # 18014398509481984
  ∧ py_float (inject_Z (2 ^ 53 + 1)) = inject_Z (2 ^ 53)
  ∧ py_float (inject_Z (2 ^ 53 + 3)) = inject_Z (2 ^ 53 + 4)
  ∧ py_float (py_float (inject_Z 100) * py_float (29 # 100))
    = 8162774324609023 # 281474976710656
  ∧ py_float (1 # 2 ^ 1075) = 0%Q.
Proof. repeat split; vm_compute; reflexivity. Qed.

(** ** Round-Robin timeline simulator *)

Module RR.

(** One timeline entry [(pid, start, end)]. *)
Definition slice : Type := string * Z * Z.

Definition slice_pid (s : slice) : string := s.1.1.
Definition slice_start (s : slice) : Z := s.1.2.
Definition slice_end (s : slice) : Z := s.2.

(** The values fixed before the main loop. *)
Record env := Env {
  processes : list string;
  arr : gmap string Z;
  qmap : gmap string Z;
  future : list (Z * string)
}.

(** The variables the loop and its helper closure mutate. *)
Record state := State {
  rem : gmap string Z;
  future_idx : nat;
  now : Z;
  timeline : list slice;
  ready : list string
}.

(** [rem.get(p, 0)], [arr.get(p, 0)], [qmap.get(p, 1)]. *)
Definition get0 (m : gmap string Z) (p : string) : Z := default 0 (m !! p).
Definition get1 (m : gmap string Z) (p : string) : Z := default 1 (m !! p).
Definition getq (d : Q) (m : gmap string Q) (p : string) : Q := default d (m !! p).

(** The three dictionary comprehensions that coerce the inputs. *)
Definition coerce_rem (procs : list string) (bursts : gmap string Q) : gmap string Z :=
  foldl (fun m p => <[p := Z.max 0 (py_round (getq 0 bursts p))]> m) ∅ procs.

Definition coerce_arr (procs : list string) (arrivals : gmap string Q) : gmap string Z :=
  foldl (fun m p => <[p := py_round (getq 0 arrivals p)]> m) ∅ procs.

Definition coerce_q (procs : list string) (quanta : gmap string Q) : gmap string Z :=
  foldl (fun m p => <[p := Z.max 1 (py_round (getq 1 quanta p))]> m) ∅ procs.

(** The sort key [(x[0], x[1])]: by time, then by id (code-point order). *)
Definition key_le (x y : Z * string) : Prop :=
  x.1 < y.1 ∨ (x.1 = y.1 ∧ String.leb x.2 y.2 = true).

#[local] Instance key_le_dec x y : Decision (key_le x y).
Proof. unfold key_le. apply _. Defined.

Definition sorted_future (procs : list string) (a : gmap string Z) : list (Z * string) :=
  merge_sort key_le ((fun p => (get0 a p, p)) <$> procs).

(** The body of [push_arrivals_up_to]: the [while] loop walks the part of
    [future] that starts at [future_idx]. *)
Fixpoint push_arrivals (r : gmap string Z) (t : Z) (fut : list (Z * string))
    (idx : nat) (rdy : list string) : nat * list string :=
  match fut with
  | (a, pid) :: fut' =>
      if bool_decide (a ≤ t) then
        push_arrivals r t fut' (S idx)
          (if bool_decide (0 < get0 r pid) && negb (bool_decide (pid ∈ rdy))
           then rdy ++ [pid] else rdy)
      else (idx, rdy)
  | [] => (idx, rdy)
  end.

Definition push_arrivals_up_to (e : env) (t : Z) (st : state) : state :=
  let '(i, r) := push_arrivals (rem st) t (drop (future_idx st) (future e))
                   (future_idx st) (ready st) in
  State (rem st) i (now st) (timeline st) r.

(** [if not ready and future_idx < len(future): now = max(now, future[future_idx][0]);
    push_arrivals_up_to(now)]. *)
Definition jump_to_next (e : env) (st : state) : state :=
  match ready st, future e !! future_idx st with
  | [], Some (a, _) =>
      let n := Z.max (now st) a in
      push_arrivals_up_to e n (State (rem st) (future_idx st) n (timeline st) (ready st))
  | _, _ => st
  end.

(** The defensive re-admission scan [for p in processes: ...]. *)
Definition rescan (e : env) (st : state) : state :=
  State (rem st) (future_idx st) (now st) (timeline st)
    (foldl (fun rdy p =>
              if bool_decide (0 < get0 (rem st) p) && bool_decide (get0 (arr e) p ≤ now st)
                 && negb (bool_decide (p ∈ rdy))
              then rdy ++ [p] else rdy)
           (ready st) (processes e)).

(** One iteration of [while ready:] with [pid] already taken from the head
    of the queue and [st] holding the rest. *)
Definition run_head (e : env) (pid : string) (st : state) : state :=
  if bool_decide (get0 (rem st) pid ≤ 0) then
    jump_to_next e (push_arrivals_up_to e (now st) st)
  else
    let q := get1 (qmap e) pid in
    let use := Z.max 1 (Z.min q (get0 (rem st) pid)) in
    let start := now st in
    let stop := start + use in
    let st1 := State (<[pid := get0 (rem st) pid - use]> (rem st)) (future_idx st)
                 stop (timeline st ++ [(pid, start, stop)]) (ready st) in
    let st2 := push_arrivals_up_to e (now st1) st1 in
    let st3 := if bool_decide (0 < get0 (rem st2) pid)
               then State (rem st2) (future_idx st2) (now st2) (timeline st2)
                      (ready st2 ++ [pid])
               else st2 in
    match ready st3 with
    | [] => jump_to_next e (rescan e st3)
    | _ :: _ => st3
    end.

(** The main loop; [None] when the iteration budget runs out before the
    queue is empty. *)
Fixpoint loop (e : env) (fuel : nat) (st : state) : option state :=
  match ready st with
  | [] => Some st
  | pid :: rest =>
      match fuel with
      | O => None
      | S fuel' =>
          loop e fuel' (run_head e pid
            (State (rem st) (future_idx st) (now st) (timeline st) rest))
      end
  end.

Definition mk_env (procs : list string) (quanta arrivals : gmap string Q) : env :=
  let a := coerce_arr procs arrivals in
  Env procs a (coerce_q procs quanta) (sorted_future procs a).

(** The state when the main loop is first entered. *)
Definition init (e : env) (bursts : gmap string Q) : state :=
  let st0 := State (coerce_rem (processes e) bursts) 0 0 [] [] in
  let st1 := push_arrivals_up_to e (now st0) st0 in
  match ready st1, future e !! future_idx st1 with
  | [], Some (a, _) =>
      push_arrivals_up_to e a (State (rem st1) (future_idx st1) a (timeline st1) (ready st1))
  | _, _ => st1
  end.

(** Sum of the coerced bursts over the id list. *)
Definition total_burst (procs : list string) (r : gmap string Z) : Z :=
  foldr (fun p acc => get0 r p + acc) 0 procs.

(** An iteration budget that the loop never exhausts (see [loop_total]). *)
Definition budget (e : env) (st : state) : nat :=
  (S (S (length (processes e))) * Z.to_nat (total_burst (processes e) (rem st))
   + length (ready st) + 2 * (length (future e) - future_idx st))%nat.

Definition simulate_rr_with_quanta (procs : list string) (bursts quanta arrivals : gmap string Q)
    : option (list slice) :=
  let e := mk_env procs quanta arrivals in
  let st := init e bursts in
  timeline <$> loop e (budget e st) st.

End RR.

(** ** Metrics derived from a timeline *)

Module Metrics.
Import RR.

Definition count_context_switches (tl : list slice) : Z :=
  match tl with
  | [] => 0
  | s0 :: rest =>
      fst (foldl (fun '(switches, prev) s =>
                    ((if bool_decide (slice_pid s ≠ prev) then switches + 1 else switches),
                     slice_pid s))
                 (0, slice_pid s0) rest)
  end.

(** [completion[pid] = max(completion.get(pid, 0), e_i)] over the timeline. *)
Definition completion (tl : list slice) : gmap string Z :=
  foldl (fun m s => <[slice_pid s := Z.max (get0 m (slice_pid s)) (slice_end s)]> m) ∅ tl.

Definition max_end (tl : list slice) : Z :=
  foldl (fun m s => if bool_decide (m < slice_end s) then slice_end s else m) 0 tl.

Record metrics := MkMetrics {
  waiting : gmap string Z;
  turnaround : gmap string Z;
  cpu_util : Q;
  total_time : Z
}.

Definition zeros (pids : list string) : gmap string Z :=
  foldl (fun m p => <[p := 0]> m) ∅ pids.

(** The body of the second [for p in pids] loop.  The dictionary values are
    numbers, so [arr_time] is [int(round(arrivals.get(p, 0)))]; [bt], [tat]
    and [wt] are floats: [float(initial_bursts.get(p, 0))],
    [float(comp - arr_time)] and [tat - bt]. *)
Definition metrics_step (compl : gmap string Z) (initial_bursts arrivals : gmap string Q)
    (wt : gmap string Z * gmap string Z) (p : string) : gmap string Z * gmap string Z :=
  let arr_time := py_round (getq 0 arrivals p) in
  let bt := py_float (getq 0 initial_bursts p) in
  match compl !! p with
  | None => (<[p := 0]> wt.1, <[p := 0]> wt.2)
  | Some comp =>
      let tat := py_float (inject_Z (comp - arr_time)) in
      let w := py_float (Qminus tat bt) in
      (<[p := Z.max 0 (py_round w)]> wt.1, <[p := Z.max 0 (py_round tat)]> wt.2)
  end.

Definition compute_metrics (pids : list string) (initial_bursts : gmap string Q)
    (tl : list slice) (arrivals : gmap string Q) : metrics :=
  match pids, tl with
  | [], _ | _, [] => MkMetrics (zeros pids) (zeros pids) 0 0
  | _ :: _, _ :: _ =>
      let compl := completion tl in
      let total := max_end tl in
      let total_cpu_time :=
        foldl (fun acc p => py_float (Qplus acc (py_float (getq 0 initial_bursts p))))
              0%Q pids in
      let wt := foldl (metrics_step compl initial_bursts arrivals) (∅, ∅) pids in
      MkMetrics wt.1 wt.2
        (if bool_decide (0 < total)
         then py_float (Qmult (py_float (Qdiv total_cpu_time (py_float (inject_Z total))))
                              (100 # 1))
         else 0%Q)
        total
  end.

End Metrics.

(** ** Pseudo-random sources *)

(** Modelled from the library's contract: [random.Random] is Python's
    library, not code of this repository.  A generator is an infinite
    sequence of draws in [[0, 1)] and a cursor; [random()] returns the draw
    under the cursor and advances it, [randint(a, b)] spends one draw on an
    integer of [[a, b]].  [Random(seed)] is a function of the seed, given as
    the parameter [seeded] where a seed is used; an unseeded [Random()]
    takes its sequence from the environment. *)
Module Rand.

Record Rng := MkRng { draws : nat → Q; pos : nat }.

Definition random (r : Rng) : Q * Rng :=
  (draws r (pos r), MkRng (draws r) (S (pos r))).

Definition randint (a b : Z) (r : Rng) : Z * Rng :=
  let '(x, r') := random r in
  (a + Qfloor (x * inject_Z (b - a + 1)), r').

Definition unit_draws (d : nat → Q) : Prop := ∀ i, (0 <= d i)%Q ∧ (d i < 1)%Q.

(** [random.Random(seed)], with [seed = None] served by the environment. *)
Definition make (seeded : Z → nat → Q) (fresh : nat → Q) (seed : option Z) : Rng :=
  match seed with
  | Some s => MkRng (seeded s) 0
  | None => MkRng fresh 0
  end.

End Rand.

(** ** Page access generator and memory pressure model *)

Module Paging.
Import Rand.

Record MemoryModelConfig := MkConfig {
  page_size_mb : Z;
  min_memory_mb : Z;
  max_memory_mb : Z;
  accesses_per_time_unit : Z;
  window_access_count : nat;
  ema_beta : Q;
  base_q : Z;
  k : Q;
  access_pattern : string;
  hotspot_frac : Q;
  hotspot_prob : Q;
  rng_seed : option Z;
  normalization_eps : Q
}.

(** [MemoryModelConfig(base_q=..., rng_seed=...)] with the other defaults. *)
Definition default_config (bq : Z) (seed : option Z) : MemoryModelConfig :=
  MkConfig 4 8 320 1 50 (85 # 100) bq 1 "locality" (2 # 10) (8 # 10) seed (1 # 1000000000).

Record SliceObservation := MkObs {
  run_time : Q;
  accesses : Z;
  page_faults : Z;
  working_set_size : Z
}.

Record PageGenerator := MkGen {
  pages_count : Z;
  rng : Rng;
  pattern : string;
  gen_hotspot_frac : Q;
  gen_hotspot_prob : Q;
  hotspot_size : Z;
  hotspot_start : Z;
  seq_index : Z
}.

(** [pattern or "locality"]. *)
Definition or_locality (pat : string) : string :=
  if String.eqb pat "" then "locality" else pat.

(** [PageGenerator.__init__] of [Backend/app/core/scheduler.py]:
    [hotspot_frac = float(hotspot_frac)], [hotspot_prob = float(hotspot_prob)],
    [hotspot_size = max(1, int(pages_count * hotspot_frac))], an [int] times a
    [float], so the product of two binary64 numbers, rounded, and
    [hotspot_start = int(rng.random() * (max_start + 1)) if max_start >= 0 else 0]. *)
Definition new_generator (pc : Z) (r : Rng) (pat : string) (frac prob : Q) : PageGenerator :=
  let pcount := Z.max 1 pc in
  let hfrac := py_float frac in
  let hprob := py_float prob in
  let hsize := Z.max 1 (py_int (py_float (py_float (inject_Z pcount) * hfrac))) in
  let max_start := Z.max 0 (pcount - hsize) in
  let '(hstart, r') :=
    if bool_decide (0 ≤ max_start)
    then let '(x, r') := random r in (py_int (x * inject_Z (max_start + 1)), r')
    else (0, r) in
  MkGen pcount r' (or_locality pat) hfrac hprob hsize hstart 0.

(** The same constructor in [backend/app/core/scheduler.py]:
    [hotspot_start = int(rng.random() * max(1, max_start)) if max_start > 0 else 0]. *)
Definition new_generator_legacy (pc : Z) (r : Rng) (pat : string) (frac prob : Q) : PageGenerator :=
  let pcount := Z.max 1 pc in
  let hfrac := py_float frac in
  let hprob := py_float prob in
  let hsize := Z.max 1 (py_int (py_float (py_float (inject_Z pcount) * hfrac))) in
  let max_start := Z.max 0 (pcount - hsize) in
  let '(hstart, r') :=
    if bool_decide (0 < max_start)
    then let '(x, r') := random r in (py_int (x * inject_Z (Z.max 1 max_start)), r')
    else (0, r) in
  MkGen pcount r' (or_locality pat) hfrac hprob hsize hstart 0.

Definition with_rng (g : PageGenerator) (r : Rng) : PageGenerator :=
  MkGen (pages_count g) r (pattern g) (gen_hotspot_frac g) (gen_hotspot_prob g)
    (hotspot_size g) (hotspot_start g) (seq_index g).

(** [PageGenerator.next]. *)
Definition next (g : PageGenerator) : Z * PageGenerator :=
  if String.eqb (pattern g) "random" then
    let '(x, r) := random (rng g) in
    (py_int (x * inject_Z (pages_count g)), with_rng g r)
  else if String.eqb (pattern g) "sequential" then
    (seq_index g `mod` pages_count g,
     MkGen (pages_count g) (rng g) (pattern g) (gen_hotspot_frac g) (gen_hotspot_prob g)
       (hotspot_size g) (hotspot_start g) (seq_index g + 1))
  else
    let '(x, r1) := random (rng g) in
    let '(y, r2) := random r1 in
    if Qle_bool (gen_hotspot_prob g) x
    then (py_int (y * inject_Z (pages_count g)), with_rng g r2)
    else ((hotspot_start g + py_int (y * inject_Z (hotspot_size g))) `mod` pages_count g,
          with_rng g r2).

(** [[gen.next() for _ in range(n)]]. *)
Fixpoint next_n (n : nat) (g : PageGenerator) : list Z * PageGenerator :=
  match n with
  | O => ([], g)
  | S n' =>
      let '(page, g1) := next g in
      let '(pages, g2) := next_n n' g1 in
      (page :: pages, g2)
  end.

(** [collections.deque] with a [maxlen]. *)
Record deque := MkDeque { items : list Z; maxlen : nat }.

(** [append]: once full, the oldest item leaves; nothing is kept when
    [maxlen] is 0. *)
Definition dq_append (x : Z) (d : deque) : deque :=
  let l := items d ++ [x] in
  MkDeque (drop (length l - maxlen d) l) (maxlen d).

Record ProcessState := MkProc {
  pid : string;
  arrival : Q;
  burst : Q;
  remaining : Q;
  proc_pages_count : Z;
  generator : PageGenerator;
  sliding_window : deque;
  ema : Q;
  mem_signal : Q;
  last_obs : option SliceObservation;
  unique_counts : gmap Z Z
}.

Record MemoryModel := MkModel {
  cfg : MemoryModelConfig;
  global_rng : Rng;
  processes : gmap string ProcessState;
  normalization_dirty : bool
}.

(** [counts.get(page, 0)]. *)
Definition getc (counts : gmap Z Z) (page : Z) : Z := default 0 (counts !! page).

(** The window, the counts and the fault counter, as the loop over the
    simulated references carries them. *)
Record window_state := MkWin {
  window : deque;
  counts : gmap Z Z;
  faults : Z
}.

(** The eviction of the oldest reference when the window is at capacity. *)
Definition evict_if_full (w : deque) (c : gmap Z Z) : deque * gmap Z Z :=
  if negb (Nat.eqb (maxlen w) 0) && Nat.eqb (length (items w)) (maxlen w) then
    match items w with
    | oldest :: rest =>
        let old_cnt := getc c oldest in
        (MkDeque rest (maxlen w),
         if bool_decide (old_cnt ≤ 1) then delete oldest c else <[oldest := old_cnt - 1]> c)
    | [] => (w, c)
    end
  else (w, c).

(** The body of [for page in access_pages]. *)
Definition observe_page (ws : window_state) (page : Z) : window_state :=
  let f := if bool_decide (getc (counts ws) page = 0) then faults ws + 1 else faults ws in
  let '(w, c) := evict_if_full (window ws) (counts ws) in
  MkWin (dq_append page w) (<[page := getc c page + 1]> c) f.

Definition observe_pages (ws : window_state) (pages : list Z) : window_state :=
  foldl observe_page ws pages.

(** [MemoryModel.observe_run]; [None] is the [KeyError] of an unknown id. *)
Definition observe_run (mm : MemoryModel) (p : string) (rt : Q)
    : option (SliceObservation * MemoryModel) :=
  match processes mm !! p with
  | None => None
  | Some proc =>
      let n := Z.max 1 (py_int (inject_Z (accesses_per_time_unit (cfg mm)) * rt)) in
      let '(access_pages, g) := next_n (Z.to_nat n) (generator proc) in
      let ws := observe_pages (MkWin (sliding_window proc) (unique_counts proc) 0) access_pages in
      let obs := MkObs rt n (faults ws) (Z.of_nat (size (counts ws))) in
      let proc' := MkProc (pid proc) (arrival proc) (burst proc) (remaining proc)
                     (proc_pages_count proc) g (window ws) (ema proc) (mem_signal proc)
                     (Some obs) (counts ws) in
      Some (obs, MkModel (cfg mm) (global_rng mm) (<[p := proc']> (processes mm)) true)
  end.

(** [access_pattern or self.cfg.access_pattern]. *)
Definition pattern_or (pat : option string) (dflt : string) : string :=
  match pat with
  | Some s => if String.eqb s "" then dflt else s
  | None => dflt
  end.

(** [MemoryModel(cfg)]: a seeded generator when a seed is given, an
    unseeded one otherwise. *)
Definition new_model (seeded : Z → nat → Q) (fresh : nat → Q) (c : MemoryModelConfig)
    : MemoryModel :=
  MkModel c (Rand.make seeded fresh (rng_seed c)) ∅ false.

(** [create_process]: the generator owns a source seeded from one
    [randint(0, 2**31 - 1)] of the model's source. *)
Definition create_process (seeded : Z → nat → Q) (mm : MemoryModel) (p : string)
    (arrival burst : Q) (pc : Z) (pat : option string) : ProcessState * MemoryModel :=
  let '(seed, g') := randint 0 (2 ^ 31 - 1) (global_rng mm) in
  let proc_rng := MkRng (seeded seed) 0 in
  let gen := new_generator pc proc_rng (pattern_or pat (access_pattern (cfg mm)))
               (hotspot_frac (cfg mm)) (hotspot_prob (cfg mm)) in
  let proc := MkProc p arrival burst burst (if bool_decide (pc = 0) then 1 else pc) gen
                (MkDeque [] (window_access_count (cfg mm))) 0 0 None ∅ in
  (proc, MkModel (cfg mm) g' (<[p := proc]> (processes mm)) true).

Definition with_ema (proc : ProcessState) (e : Q) : ProcessState :=
  MkProc (pid proc) (arrival proc) (burst proc) (remaining proc) (proc_pages_count proc)
    (generator proc) (sliding_window proc) e (mem_signal proc) (last_obs proc)
    (unique_counts proc).

Definition with_signal (proc : ProcessState) (m : Q) : ProcessState :=
  MkProc (pid proc) (arrival proc) (burst proc) (remaining proc) (proc_pages_count proc)
    (generator proc) (sliding_window proc) (ema proc) m (last_obs proc)
    (unique_counts proc).

(** [update_signal]: the ratio [page_faults / float(accesses)] and the
    moving average [ema_beta * ema + (1.0 - ema_beta) * observed], each
    conversion and operation rounded to binary64. *)
Definition update_signal (mm : MemoryModel) (p : string) (obs : SliceObservation)
    : option MemoryModel :=
  match processes mm !! p with
  | None => None
  | Some proc =>
      let observed := if bool_decide (0 < accesses obs)
                      then py_float (py_float (inject_Z (page_faults obs))
                                     / py_float (inject_Z (accesses obs)))%Q
                      else 0%Q in
      let beta := py_float (ema_beta (cfg mm)) in
      let e := py_float (py_float (beta * ema proc)
                         + py_float (py_float (1 - beta) * observed))%Q in
      Some (MkModel (cfg mm) (global_rng mm) (<[p := with_ema proc e]> (processes mm)) true)
  end.

(** [max(arr) if arr else 0.0]: the first largest element. *)
Definition max_or_zero (l : list Q) : Q :=
  match l with
  | [] => 0%Q
  | x :: rest => foldl (fun cur y => if Qle_bool y cur then cur else y) x rest
  end.

Definition recompute_normalization (mm : MemoryModel) : MemoryModel :=
  if negb (normalization_dirty mm) then mm
  else
    let maxv := max_or_zero ((fun kv => ema kv.2) <$> map_to_list (processes mm)) in
    MkModel (cfg mm) (global_rng mm)
      ((fun proc => with_signal proc
                      (if Qle_bool maxv (normalization_eps (cfg mm)) then 0%Q
                       else (ema proc / maxv)%Q)) <$> processes mm)
      false.

Definition get_estimated_memory_mb (mm : MemoryModel) (p : string) : option Z :=
  proc ← processes mm !! p;
  Some (py_round (inject_Z (min_memory_mb (cfg mm))
                  + mem_signal proc
                    * inject_Z (max_memory_mb (cfg mm) - min_memory_mb (cfg mm)))%Q).

Definition get_effective_quantum (mm : MemoryModel) (p : string) (bq : Z) : option Z :=
  proc ← processes mm !! p;
  Some (Z.max 1 (py_round (inject_Z bq * (1 + k (cfg mm) * mem_signal proc))%Q)).

(** *** The older copy: one source shared by all generators

    In [backend/app/core/scheduler.py] every generator is handed the
    model's own source, so all of them draw from the same sequence.  The
    shared source is kept in [global_rng]; a generator's [rng] field is the
    alias, refreshed from the model before each use. *)

Definition create_process_legacy (mm : MemoryModel) (p : string)
    (arrival burst : Q) (pc : Z) (pat : option string) : ProcessState * MemoryModel :=
  let gen := new_generator_legacy pc (global_rng mm)
               (pattern_or pat (access_pattern (cfg mm)))
               (hotspot_frac (cfg mm)) (hotspot_prob (cfg mm)) in
  let proc := MkProc p arrival burst burst (if bool_decide (pc = 0) then 1 else pc) gen
                (MkDeque [] (window_access_count (cfg mm))) 0 0 None ∅ in
  (proc, MkModel (cfg mm) (rng gen) (<[p := proc]> (processes mm)) true).

Definition observe_run_legacy (mm : MemoryModel) (p : string) (rt : Q)
    : option (SliceObservation * MemoryModel) :=
  match processes mm !! p with
  | None => None
  | Some proc =>
      let n := Z.max 1 (py_int (inject_Z (accesses_per_time_unit (cfg mm)) * rt)) in
      let '(access_pages, g) :=
        next_n (Z.to_nat n) (with_rng (generator proc) (global_rng mm)) in
      let ws := observe_pages (MkWin (sliding_window proc) (unique_counts proc) 0) access_pages in
      let obs := MkObs rt n (faults ws) (Z.of_nat (size (counts ws))) in
      let proc' := MkProc (pid proc) (arrival proc) (burst proc) (remaining proc)
                     (proc_pages_count proc) g (window ws) (ema proc) (mem_signal proc)
                     (Some obs) (counts ws) in
      Some (obs, MkModel (cfg mm) (rng g) (<[p := proc']> (processes mm)) true)
  end.

End Paging.

(** ** Scenario drivers *)

Module Scenario.
Import RR Metrics.

Record ProcessInput := MkInput {
  pid : string;
  arrival_time : Z;
  burst_time : Z;
  priority : option Z;
  pages_count : option Z
}.

(** [SystemConfig] of [models/schemas.py], the configuration the drivers
    read: six declared fields, none of them a seed. *)
Record SystemConfig := MkSystem {
  total_frames : Z;
  page_size : Z;
  cpu_quantum : Z;
  memory_threshold : option Z;
  cpu_idle_gap : option Z;
  processes : list ProcessInput
}.

(** A flat request body, as the routers hand it to
    [SystemConfig.model_validate]: the integers under its keys, declared
    or not, and the list under [processes]. *)
Record Payload := MkPayload {
  fields : gmap string Z;
  payload_processes : list ProcessInput
}.

(** [ProcessInput]: [arrival_time] and [burst_time] are [Field(ge=0)]. *)
Definition process_valid (p : ProcessInput) : bool :=
  bool_decide (0 ≤ arrival_time p) && bool_decide (0 ≤ burst_time p).

(** [SystemConfig.model_validate] on a flat mapping ends in the call of
    the class on the mapping's items: pydantic reads the declared fields ([total_frames >= 0],
    [page_size >= 1], [cpu_quantum >= 1], [memory_threshold] defaulting to
    [None], [cpu_idle_gap] to 1) and keeps no other key of the mapping;
    [None] is the validation error. *)
Definition model_validate (d : Payload) : option SystemConfig :=
  tf ← fields d !! "total_frames";
  ps ← fields d !! "page_size";
  cq ← fields d !! "cpu_quantum";
  if bool_decide (0 ≤ tf) && bool_decide (1 ≤ ps) && bool_decide (1 ≤ cq)
     && forallb process_valid (payload_processes d)
  then Some (MkSystem tf ps cq (fields d !! "memory_threshold")
               (Some (default 1 (fields d !! "cpu_idle_gap"))) (payload_processes d))
  else None.

(** [config.rng_seed if hasattr(config, "rng_seed") else None] on a
    [SystemConfig]: the class declares no such attribute and keeps no
    undeclared key, so [hasattr] is [False] and the value is [None]. *)
Definition config_rng_seed (c : SystemConfig) : option Z := None.

Record TraceEntry := MkTrace { time : Z; event : string; trace_pid : string }.

Record Meta := MkMeta {
  avg_wait : Q;
  avg_turnaround : Q;
  meta_memory_quanta : option (gmap string Z);
  meta_memory_estimates : option (gmap string Z);
  meta_mem_signals : option (gmap string Q)
}.

Record SimulationResult := MkResult {
  turnaround_times : gmap string Z;
  waiting_times : gmap string Z;
  cpu_utilization : Q;
  result_total_time : Z;
  context_switches : Z;
  trace : list TraceEntry;
  inferred_quanta : gmap string Z;
  memory_estimates : gmap string Z;
  cpu_series : list (Z * Z);
  meta : Meta
}.

(** [build_cpu_series]; a record [{"time": t, "cpu": c}] is the pair [(t, c)]. *)
Definition mark_slice (T : Z) (occupied : list bool) (s : slice) : list bool :=
  if bool_decide (slice_end s ≤ slice_start s) then occupied
  else
    let first_bucket := Z.max 0 (slice_start s) in
    let last_bucket_exclusive := Z.min T (slice_end s) in
    foldl (fun occ tt => if bool_decide (0 ≤ tt < T) then <[Z.to_nat tt := true]> occ else occ)
          occupied
          (seqZ first_bucket (Z.min last_bucket_exclusive T - first_bucket)).

Definition build_cpu_series (tl : list slice) (total : Z) : list (Z * Z) :=
  match tl with
  | [] => []
  | _ :: _ =>
      if bool_decide (total ≤ 0) then []
      else
        let occupied := foldl (mark_slice total) (replicate (Z.to_nat total) false) tl in
        (fun t => (t, if default false (occupied !! Z.to_nat t) then 100 else 0))
          <$> seqZ 0 total
  end.

(** The sort key of [generate_trace]: [(time, order, pid)], [stopped] first. *)
Definition trace_order (x : TraceEntry) : Z :=
  if String.eqb (event x) "stopped" then 0 else 1.

Definition trace_le (x y : TraceEntry) : Prop :=
  time x < time y
  ∨ (time x = time y
     ∧ (trace_order x < trace_order y
        ∨ (trace_order x = trace_order y ∧ String.leb (trace_pid x) (trace_pid y) = true))).

#[local] Instance trace_le_dec x y : Decision (trace_le x y).
Proof. unfold trace_le. apply _. Defined.

Definition generate_trace (tl : list slice) : list TraceEntry :=
  merge_sort trace_le
    (foldl (fun tr s =>
              if bool_decide (slice_start s < slice_end s)
              then tr ++ [MkTrace (slice_start s) "running" (slice_pid s);
                          MkTrace (slice_end s) "stopped" (slice_pid s)]
              else tr)
           [] tl).

(** [_compute_avg_from_map] on a dictionary of integers. *)
Definition compute_avg_from_map (m : gmap string Z) : Q :=
  if bool_decide (size m = 0%nat) then 0%Q
  else Qdiv (inject_Z (map_fold (fun _ v acc => v + acc) 0 m)) (inject_Z (Z.of_nat (size m))).

(** [compute_real_cpu_util_from_series] (inlined in the older copy). *)
Definition cpu_util_from_series (series : list (Z * Z)) : Q :=
  match series with
  | [] => 0%Q
  | _ :: _ =>
      Qmult (Qdiv (inject_Z (Z.of_nat (length (filter (fun tc => 0 < tc.2) series))))
                  (inject_Z (Z.of_nat (length series))))
            (100 # 1)
  end.

Definition pids_of (c : SystemConfig) : list string := pid <$> processes c.

Definition initial_bursts_of (c : SystemConfig) : gmap string Q :=
  foldl (fun m p => <[pid p := inject_Z (burst_time p)]> m) ∅ (processes c).

Definition arrivals_of (c : SystemConfig) : gmap string Q :=
  foldl (fun m p => <[pid p := inject_Z (arrival_time p)]> m) ∅ (processes c).

Definition fixed_quanta (c : SystemConfig) : gmap string Z :=
  foldl (fun m p => <[p := cpu_quantum c]> m) ∅ (pids_of c).

(** The timeline [simulate_baseline] computes first. *)
Definition baseline_timeline (c : SystemConfig) : option (list slice) :=
  simulate_rr_with_quanta (pids_of c) (initial_bursts_of c)
    (inject_Z <$> fixed_quanta c) (arrivals_of c).

(** What both drivers derive from a timeline and the frozen quanta. *)
Definition result_of (c : SystemConfig) (tl : list slice) (quanta estimates : gmap string Z)
    (dbg : option (gmap string Z) * option (gmap string Z) * option (gmap string Q))
    : SimulationResult :=
  let m := compute_metrics (pids_of c) (initial_bursts_of c) tl (arrivals_of c) in
  let series := build_cpu_series tl (total_time m) in
  MkResult (turnaround m) (waiting m) (cpu_util_from_series series) (total_time m)
    (count_context_switches tl) (generate_trace tl) quanta estimates series
    (MkMeta (compute_avg_from_map (waiting m)) (compute_avg_from_map (turnaround m))
       dbg.1.1 dbg.1.2 dbg.2).

Definition simulate_baseline (c : SystemConfig) : option SimulationResult :=
  tl ← baseline_timeline c;
  Some (result_of c tl (fixed_quanta c) ∅ (None, None, None)).

(** *** The memory-aware driver ([Backend/app/core/scheduler.py]) *)

Definition patterns : list string := ["locality"; "random"; "sequential"].

(** One turn of [for idx, p in enumerate(config.processes)]: the page count
    and the pattern are drawn from [global_choice_rng]. *)
Definition create_one (seeded : Z → nat → Q)
    (acc : option (Paging.MemoryModel * Rand.Rng)) (p : ProcessInput)
    : option (Paging.MemoryModel * Rand.Rng) :=
  '(mm, gcr) ← acc;
  let pages0 := default 0 (pages_count p) in
  let '(pages, gcr1) :=
    if bool_decide (pages0 = 0) || bool_decide (pages0 ≤ 1)
    then Rand.randint 4 24 gcr else (pages0, gcr) in
  let '(i, gcr2) := Rand.randint 0 (Z.of_nat (length patterns) - 1) gcr1 in
  patt ← (if bool_decide (0 ≤ i) then patterns !! Z.to_nat i else None);
  Some ((Paging.create_process seeded mm (pid p) (inject_Z (arrival_time p))
           (inject_Z (burst_time p)) pages (Some patt)).2,
        gcr2).

(** One turn of [for pid in processes] inside an adaptation round. *)
Definition adapt_one (bq : Z) (acc : option Paging.MemoryModel) (p : string)
    : option Paging.MemoryModel :=
  mm ← acc;
  q ← Paging.get_effective_quantum mm p bq;
  '(obs, mm1) ← Paging.observe_run mm p (inject_Z (Z.max 1 q));
  Paging.update_signal mm1 p obs.

Definition adapt_round (bq : Z) (pids : list string) (acc : option Paging.MemoryModel)
    : option Paging.MemoryModel :=
  Paging.recompute_normalization <$> foldl (adapt_one bq) acc pids.

Definition iterations : nat := 16.

(** [{p: f(p) for p in processes}] for an [f] that may raise. *)
Definition collect {A} (f : string → option A) (pids : list string) : option (gmap string A) :=
  foldl (fun acc p => m ← acc; v ← f p; Some (<[p := v]> m)) (Some ∅) pids.

(** [simulate_memory_aware] from the point where the seed handed to
    [MemoryModelConfig] has been evaluated to [seed]. *)
Definition memory_aware_run (seeded : Z → nat → Q) (fresh_model fresh_choice : nat → Q)
    (seed : option Z) (c : SystemConfig) : option SimulationResult :=
  let bq := cpu_quantum c in
  let mm0 := Paging.new_model seeded fresh_model (Paging.default_config bq seed) in
  let gcr := Rand.make seeded fresh_choice (Paging.rng_seed (Paging.cfg mm0)) in
  '(mm1, _) ← foldl (create_one seeded) (Some (mm0, gcr)) (processes c);
  mm ← Nat.iter iterations (adapt_round bq (pids_of c)) (Some mm1);
  memory_quanta ← collect (fun p => Paging.get_effective_quantum mm p bq) (pids_of c);
  memory_est ← collect (Paging.get_estimated_memory_mb mm) (pids_of c);
  tl ← simulate_rr_with_quanta (pids_of c) (initial_bursts_of c)
         (inject_Z <$> memory_quanta) (arrivals_of c);
  Some (result_of c tl memory_quanta memory_est
          (Some memory_quanta, Some memory_est,
           collect (fun p => Paging.mem_signal <$> Paging.processes mm !! p) (pids_of c))).

(** [simulate_memory_aware] of [Backend/app/core/scheduler.py]. *)
Definition simulate_memory_aware (seeded : Z → nat → Q) (fresh_model fresh_choice : nat → Q)
    (c : SystemConfig) : option SimulationResult :=
  memory_aware_run seeded fresh_model fresh_choice (config_rng_seed c) c.

(** *** The memory-aware driver of the older copy ([backend/]) *)

(** The seed is the constant 42, page counts are [p.pages_count or 1], the
    pattern is the configured default, and there are 12 rounds. *)
Definition adapt_one_legacy (bq : Z) (acc : option Paging.MemoryModel) (p : string)
    : option Paging.MemoryModel :=
  mm ← acc;
  q ← Paging.get_effective_quantum mm p bq;
  '(obs, mm1) ← Paging.observe_run_legacy mm p (inject_Z q);
  Paging.update_signal mm1 p obs.

Definition adapt_round_legacy (bq : Z) (pids : list string) (acc : option Paging.MemoryModel)
    : option Paging.MemoryModel :=
  Paging.recompute_normalization <$> foldl (adapt_one_legacy bq) acc pids.

Definition simulate_memory_aware_legacy (seeded : Z → nat → Q) (c : SystemConfig)
    : option SimulationResult :=
  let bq := cpu_quantum c in
  let mm0 := Paging.new_model seeded (seeded 42) (Paging.default_config bq (Some 42)) in
  let mm1 := foldl (fun mm p =>
                      let pc := default 0 (pages_count p) in
                      (Paging.create_process_legacy mm (pid p) (inject_Z (arrival_time p))
                         (inject_Z (burst_time p)) (if bool_decide (pc = 0) then 1 else pc)
                         None).2)
                   mm0 (processes c) in
  mm ← Nat.iter 12 (adapt_round_legacy bq (pids_of c)) (Some mm1);
  memory_quanta ← collect (fun p => Paging.get_effective_quantum mm p bq) (pids_of c);
  memory_est ← collect (Paging.get_estimated_memory_mb mm) (pids_of c);
  tl ← simulate_rr_with_quanta (pids_of c) (initial_bursts_of c)
         (inject_Z <$> memory_quanta) (arrivals_of c);
  Some (result_of c tl memory_quanta memory_est (None, None, None)).

End Scenario.

(** ** Facts about the coercions *)

Lemma py_round_Qeq (x y : Q) : (x == y)%Q → py_round x = py_round y.
Proof.
  intros H. unfold py_round. rewrite (Qfloor_comp x y H).
  assert (Hc : (x - inject_Z (Qfloor y) ?= 1 # 2)%Q = (y - inject_Z (Qfloor y) ?= 1 # 2)%Q).
  { apply Qcompare_comp; [by rewrite H | reflexivity]. }
  by rewrite Hc.
Qed.

Lemma py_round_inject_Z (z : Z) : py_round (inject_Z z) = z.
Proof.
  unfold py_round. rewrite Qfloor_Z.
  assert (Hlt : (inject_Z z - inject_Z z < 1 # 2)%Q).
  { assert (Hz : (inject_Z z - inject_Z z == 0)%Q) by ring. by rewrite Hz. }
  apply Qlt_alt in Hlt.
  change (Qcompare (inject_Z z - inject_Z z) (1 # 2) = Lt) in Hlt. by rewrite Hlt.
Qed.


Lemma py_float_Qeq (x y : Q) : (x == y)%Q → py_float x = py_float y.
Proof. intros H. unfold py_float. by rewrite (Qred_complete x y H). Qed.

Lemma Qred_inject_Z (z : Z) : Qred (inject_Z z) = inject_Z z.
Proof.
  unfold Qred, inject_Z.
  pose proof (Z.ggcd_gcd z 1) as Hg. pose proof (Z.ggcd_correct_divisors z 1) as Hd.
  destruct (Z.ggcd z 1) as [g [aa bb]]. simpl in *.
  rewrite Z.gcd_1_r in Hg. subst g. destruct Hd as [Ha Hb].
  replace aa with z by lia. replace bb with 1 by lia. done.
Qed.

(** Integers of at most 53 bits are binary64 numbers. *)
Lemma py_float_inject_Z (z : Z) :
  Z.abs z ≤ 2 ^ 53 → (py_float (inject_Z z) == inject_Z z)%Q.
Proof.
  intros Hz.
  destruct (decide (Z.abs z = 2 ^ 53)) as [Heq | Hne].
  { assert (z = 2 ^ 53 ∨ z = - 2 ^ 53) as [-> | ->] by lia; vm_compute; reflexivity. }
  destruct (decide (z = 0)) as [-> | Hz0]; [vm_compute; reflexivity|].
  unfold py_float. rewrite Qred_inject_Z. cbv zeta.
  assert (Hnz : Qeq_bool (inject_Z z) 0 = false).
  { apply not_true_iff_false. rewrite Qeq_bool_iff. unfold Qeq. simpl. lia. }
  rewrite Hnz, Qred_correct.
  assert (He : ilog2 (Qabs (inject_Z z)) = Z.log2 (Z.abs z)).
  { unfold ilog2. cbn [Qabs inject_Z Qnum Qden]. change (Z.log2 1) with 0.
    rewrite Z.sub_0_r.
    assert (Hle : Qle_bool (pow2 (Z.log2 (Z.abs z))) (Z.abs z # 1) = true).
    { apply Qle_bool_iff. unfold pow2.
      rewrite bool_decide_eq_true_2 by apply Z.log2_nonneg.
      change (Z.abs z # 1) with (inject_Z (Z.abs z)). rewrite <- Zle_Qle.
      apply Z.log2_spec. lia. }
    by rewrite Hle. }
  rewrite He.
  assert (Hlog : 0 ≤ Z.log2 (Z.abs z) < 53).
  { split; [apply Z.log2_nonneg|]. apply Z.log2_lt_pow2; lia. }
  set (e := Z.log2 (Z.abs z)) in *.
  replace (Z.max (e - 52) (-1074)) with (e - 52) by lia.
  set (s := 2 ^ (52 - e)).
  assert (Hs : 0 < s) by (apply Z.pow_pos_nonneg; lia).
  assert (Hp : (pow2 (e - 52) == 1 # Z.to_pos s)%Q).
  { unfold pow2, s. case_bool_decide as Hq.
    - replace (52 - e) with 0 by lia. replace (e - 52) with 0 by lia. reflexivity.
    - replace (- (e - 52)) with (52 - e) by lia. reflexivity. }
  assert (Hdiv : (inject_Z z / pow2 (e - 52) == inject_Z (z * s))%Q).
  { rewrite Hp. unfold Qdiv, Qinv, Qeq, Qmult, inject_Z. simpl.
    rewrite Z2Pos.id by lia. simpl. lia. }
  rewrite (py_round_Qeq _ _ Hdiv), py_round_inject_Z, Hp.
  unfold Qeq, Qmult, inject_Z. simpl. rewrite Pos.mul_1_l, Z2Pos.id by lia. lia.
Qed.

Lemma py_round_near (x : Q) :
  (inject_Z (py_round x) - (1 # 2) <= x)%Q ∧ (x <= inject_Z (py_round x) + (1 # 2))%Q.
Proof.
  pose proof (Qfloor_le x) as Hlo. pose proof (Qlt_floor x) as Hhi.
  rewrite inject_Z_plus in Hhi. change (inject_Z 1) with 1%Q in Hhi.
  unfold py_round. cbv zeta.
  destruct (Qcompare (x - inject_Z (Qfloor x)) (1 # 2)) eqn:Hc.
  - apply Qeq_alt in Hc.
    destruct (Z.even (Qfloor x)); rewrite ?inject_Z_plus;
      change (inject_Z 1) with 1%Q; split; lra.
  - apply Qlt_alt in Hc. split; lra.
  - apply Qgt_alt in Hc. rewrite inject_Z_plus. change (inject_Z 1) with 1%Q. split; lra.
Qed.

Lemma py_round_mono (x y : Q) : (x <= y)%Q → py_round x ≤ py_round y.
Proof.
  intros Hxy. destruct (Z_le_gt_dec (py_round x) (py_round y)) as [|Hgt]; [done|].
  destruct (py_round_near x) as [Hx _]. destruct (py_round_near y) as [_ Hy].
  assert (Hz : (inject_Z (py_round y) + 1 <= inject_Z (py_round x))%Q).
  { change 1%Q with (inject_Z 1). rewrite <- inject_Z_plus, <- Zle_Qle. lia. }
  assert (Heq : (x == y)%Q) by (apply Qle_antisym; lra).
  rewrite (py_round_Qeq _ _ Heq) in Hgt. lia.
Qed.

(** ** Facts about binary64 rounding *)

Section Binary64.
#[local] Open Scope Q_scope.

Lemma pow2_Qpower (e : Z) : pow2 e == 2 ^ e.
Proof.
  unfold pow2. case_bool_decide as He.
  - by rewrite Zpower_Qpower.
  - assert (Hn : (0 ≤ - e)%Z) by lia.
    assert (Hpos : (0 < 2 ^ (- e))%Z) by (apply Z.pow_pos_nonneg; lia).
    assert (H2 : 2 ^ e == / inject_Z (2 ^ (- e))).
    { replace e with (- - e)%Z at 1 by lia. rewrite Qpower_opp.
      apply Qinv_comp. symmetry. by apply (Zpower_Qpower 2). }
    rewrite H2. destruct (2 ^ (- e))%Z as [|p|p] eqn:Hp; [lia | | lia].
    reflexivity.
Qed.

Lemma pow2_pos (e : Z) : 0 < pow2 e.
Proof. rewrite pow2_Qpower. by apply Qpower_0_lt. Qed.

Lemma pow2_add (a b : Z) : pow2 (a + b) == pow2 a * pow2 b.
Proof. rewrite !pow2_Qpower. by apply Qpower_plus. Qed.

Lemma pow2_le (a b : Z) : (a ≤ b)%Z → pow2 a <= pow2 b.
Proof. intros H. rewrite !pow2_Qpower. by apply Qpower_le_compat_l. Qed.

Lemma pow2_lt_inv (a b : Z) : pow2 a < pow2 b → (a < b)%Z.
Proof. rewrite !pow2_Qpower. intros H. by apply (Qpower_lt_compat_l_inv 2). Qed.

Lemma pow2_inject (n : Z) : (0 ≤ n)%Z → pow2 n == inject_Z (2 ^ n).
Proof. intros H. unfold pow2. by rewrite bool_decide_eq_true_2. Qed.

Lemma pow2_succ (a : Z) : pow2 (a + 1) == 2 * pow2 a.
Proof. rewrite pow2_add. change (pow2 1) with 2. ring. Qed.

(** [ilog2] finds the binade of a positive number. *)
Lemma ilog2_spec (x : Q) : 0 < x → pow2 (ilog2 x) <= x ∧ x < pow2 (ilog2 x + 1).
Proof.
  intros Hx. destruct x as [n d].
  assert (Hn : (0 < n)%Z) by (unfold Qlt in Hx; simpl in Hx; lia).
  pose proof (Z.log2_spec n Hn) as [Hn1 Hn2].
  pose proof (Z.log2_spec (Z.pos d) ltac:(lia)) as [Hd1 Hd2].
  pose proof (Z.log2_nonneg n) as Ha0. pose proof (Z.log2_nonneg (Z.pos d)) as Hb0.
  set (a := Z.log2 n) in *. set (b := Z.log2 (Z.pos d)) in *.
  assert (HA : pow2 a <= inject_Z n ∧ inject_Z n < 2 * pow2 a).
  { rewrite <- pow2_succ, !pow2_inject by lia. rewrite <- Zle_Qle, <- Zlt_Qlt.
    unfold Z.succ in Hn2. lia. }
  assert (HB : pow2 b <= inject_Z (Z.pos d) ∧ inject_Z (Z.pos d) < 2 * pow2 b).
  { rewrite <- pow2_succ, !pow2_inject by lia. rewrite <- Zle_Qle, <- Zlt_Qlt.
    unfold Z.succ in Hd2. lia. }
  assert (Hx' : (n # d) * inject_Z (Z.pos d) == inject_Z n).
  { unfold Qeq, Qmult, inject_Z. simpl. lia. }
  assert (HK : pow2 (a - b) * pow2 b == pow2 a).
  { rewrite <- pow2_add. by replace (a - b + b)%Z with a by lia. }
  pose proof (pow2_pos (a - b)) as HKpos. pose proof (pow2_pos b) as HBpos.
  pose proof (pow2_pos a) as HApos.
  unfold ilog2. cbn [Qnum Qden]. fold a b.
  destruct (Qle_bool (pow2 (a - b)) (n # d)) eqn:Hle.
  - apply Qle_bool_iff in Hle. split; [done|].
    rewrite pow2_succ.
    set (K := pow2 (a - b)) in *. set (A := pow2 a) in *. set (B := pow2 b) in *.
    set (N := inject_Z n) in *. set (D := inject_Z (Z.pos d)) in *. set (X := n # d) in *.
    clearbody K A B N D X. nra.
  - assert (Hlt : (n # d) < pow2 (a - b)).
    { apply Qnot_le_lt. intros H. apply Qle_bool_iff in H. congruence. }
    replace (a - b - 1 + 1)%Z with (a - b)%Z by lia. split; [|done].
    assert (HK' : 2 * pow2 (a - b - 1) == pow2 (a - b)).
    { rewrite <- pow2_succ. by replace (a - b - 1 + 1)%Z with (a - b)%Z by lia. }
    pose proof (pow2_pos (a - b - 1)) as HK1pos.
    set (K := pow2 (a - b)) in *. set (K1 := pow2 (a - b - 1)) in *.
    set (A := pow2 a) in *. set (B := pow2 b) in *.
    set (N := inject_Z n) in *. set (D := inject_Z (Z.pos d)) in *. set (X := n # d) in *.
    clearbody K K1 A B N D X. nra.
Qed.

(** The rounding of [x] to a multiple of [2^q]. *)
Definition round_to (q : Z) (x : Q) : Q := inject_Z (py_round (x / pow2 q)) * pow2 q.

(** The quantum of the binade [e]: 53 significant bits, and subnormal
    numbers below [2^-1022]. *)
Definition quantum_of (e : Z) : Z := Z.max (e - 52) (-1074).

(** [py_float] on a positive number: rounding to the quantum of its
    binade. *)
Lemma py_float_pos (x : Q) :
  0 < x →
  ∃ e, pow2 e <= x ∧ x < pow2 (e + 1) ∧ py_float x == round_to (quantum_of e) x.
Proof.
  intros Hx. pose proof (Qred_correct x) as Hred.
  assert (Habs : Qabs (Qred x) == x).
  { rewrite Hred. apply Qabs_pos. lra. }
  assert (H3 : py_float x == round_to (quantum_of (ilog2 (Qabs (Qred x)))) x).
  { unfold py_float. cbv zeta.
    assert (Hnz : Qeq_bool (Qred x) 0 = false).
    { apply not_true_iff_false. rewrite Qeq_bool_iff, Hred. lra. }
    rewrite Hnz, Qred_correct. unfold round_to, quantum_of.
    assert (Hdiv : Qred x / pow2 (Z.max (ilog2 (Qabs (Qred x)) - 52) (-1074))
                   == x / pow2 (Z.max (ilog2 (Qabs (Qred x)) - 52) (-1074))).
    { apply Qmult_comp; [exact Hred | reflexivity]. }
    by rewrite (py_round_Qeq _ _ Hdiv). }
  destruct (ilog2_spec (Qabs (Qred x))) as [H1 H2]; [by rewrite Habs|].
  revert H1 H2 H3. generalize (ilog2 (Qabs (Qred x))) as e. intros e H1 H2 H3.
  rewrite Habs in H1, H2. by exists e.
Qed.

Lemma py_float_zero (x : Q) : x == 0 → py_float x = 0.
Proof. intros H. by rewrite (py_float_Qeq x 0 H). Qed.

Lemma py_round_le_int (t : Q) (n : Z) : t <= inject_Z n → (py_round t ≤ n)%Z.
Proof. intros H. rewrite <- (py_round_inject_Z n). by apply py_round_mono. Qed.

Lemma py_round_ge_int (t : Q) (n : Z) : inject_Z n <= t → (n ≤ py_round t)%Z.
Proof. intros H. rewrite <- (py_round_inject_Z n) at 1. by apply py_round_mono. Qed.

Lemma div_pow2 (x : Q) (q : Z) : x / pow2 q * pow2 q == x.
Proof. pose proof (pow2_pos q). field. lra. Qed.

Lemma pow2_split (u q : Z) : (q ≤ u)%Z → pow2 u == inject_Z (2 ^ (u - q)) * pow2 q.
Proof.
  intros H. rewrite <- pow2_inject by lia. rewrite <- pow2_add.
  by replace (u - q + q)%Z with u by lia.
Qed.

Lemma round_to_mono (q : Z) (x y : Q) : x <= y → round_to q x <= round_to q y.
Proof.
  intros H. unfold round_to. pose proof (pow2_pos q) as Hq.
  assert (Hd : x / pow2 q <= y / pow2 q).
  { apply Qmult_le_compat_r; [done|]. apply Qlt_le_weak, Qinv_lt_0_compat, Hq. }
  apply py_round_mono in Hd. rewrite Zle_Qle in Hd.
  apply Qmult_le_compat_r; [done | lra].
Qed.

Lemma round_to_upper (q u : Z) (x : Q) :
  (q ≤ u)%Z → x <= pow2 u → round_to q x <= pow2 u.
Proof.
  intros Hqu Hx. unfold round_to. pose proof (pow2_pos q) as Hq.
  rewrite (pow2_split u q Hqu). apply Qmult_le_compat_r; [|lra].
  rewrite <- Zle_Qle. apply py_round_le_int.
  apply Qle_shift_div_r; [done|]. by rewrite <- pow2_split.
Qed.

Lemma round_to_lower (q l : Z) (x : Q) :
  (q ≤ l)%Z → pow2 l <= x → pow2 l <= round_to q x.
Proof.
  intros Hql Hx. unfold round_to. pose proof (pow2_pos q) as Hq.
  rewrite (pow2_split l q Hql). apply Qmult_le_compat_r; [|lra].
  rewrite <- Zle_Qle. apply py_round_ge_int.
  apply Qle_shift_div_l; [done|]. by rewrite <- pow2_split.
Qed.

Lemma round_to_nonneg (q : Z) (x : Q) : 0 <= x → 0 <= round_to q x.
Proof.
  intros Hx. unfold round_to. pose proof (pow2_pos q) as Hq.
  apply Qmult_le_0_compat; [|lra].
  change 0 with (inject_Z 0). rewrite <- Zle_Qle. apply py_round_ge_int.
  apply Qle_shift_div_l; [done|]. change (inject_Z 0) with 0. lra.
Qed.

Lemma py_float_nonneg (x : Q) : 0 <= x → 0 <= py_float x.
Proof.
  intros Hx. destruct (Qlt_le_dec 0 x) as [Hpos | Hle].
  - destruct (py_float_pos x Hpos) as (e & _ & _ & ->). by apply round_to_nonneg.
  - rewrite (py_float_zero x); [lra|]. by apply Qle_antisym.
Qed.

(** Rounding is monotone. *)
Lemma py_float_mono (x y : Q) : 0 <= x → x <= y → py_float x <= py_float y.
Proof.
  intros Hx Hxy. destruct (Qlt_le_dec 0 x) as [Hpos | Hle].
  2: { rewrite (py_float_zero x); [|by apply Qle_antisym]. apply py_float_nonneg. lra. }
  destruct (py_float_pos x Hpos) as (ex & Hx1 & Hx2 & ->).
  destruct (py_float_pos y ltac:(lra)) as (ey & Hy1 & Hy2 & ->).
  assert (He : (ex ≤ ey)%Z).
  { assert (H : pow2 ex < pow2 (ey + 1)) by lra. apply pow2_lt_inv in H. lia. }
  unfold quantum_of.
  destruct (decide (Z.max (ex - 52) (-1074) = Z.max (ey - 52) (-1074))) as [-> | Hne].
  - by apply round_to_mono.
  - apply Qle_trans with (pow2 ey).
    + apply round_to_upper; [lia|].
      apply Qle_trans with (pow2 (ex + 1)); [lra | apply pow2_le; lia].
    + apply round_to_lower; [lia | done].
Qed.

(** A multiple of [2^q] with at most 53 significant bits, [q] not below
    the smallest subnormal exponent, is a binary64 number: rounding keeps
    it. *)
Lemma py_float_fixed (m q : Z) :
  (0 ≤ m ≤ 2 ^ 53)%Z → (-1074 ≤ q)%Z →
  py_float (inject_Z m * pow2 q) == inject_Z m * pow2 q.
Proof.
  assert (Hmain : ∀ m q, (0 < m < 2 ^ 53)%Z → (-1074 ≤ q)%Z →
            py_float (inject_Z m * pow2 q) == inject_Z m * pow2 q).
  { clear m q. intros m q Hm Hq. pose proof (pow2_pos q) as Hqpos.
    assert (Hm1 : 1 <= inject_Z m) by (change 1 with (inject_Z 1); rewrite <- Zle_Qle; lia).
    assert (Hm2 : inject_Z m < pow2 53).
    { rewrite pow2_inject by lia. rewrite <- Zlt_Qlt. lia. }
    destruct (py_float_pos (inject_Z m * pow2 q)) as (e & H1 & H2 & ->); [nra|].
    assert (He : (e - 52 ≤ q)%Z).
    { assert (H : pow2 e < pow2 (53 + q)).
      { rewrite (pow2_add 53 q). nra. }
      apply pow2_lt_inv in H. lia. }
    unfold round_to, quantum_of. set (q0 := Z.max (e - 52) (-1074)).
    assert (Hq0 : (q0 ≤ q)%Z) by (unfold q0; lia).
    assert (Hdiv : inject_Z m * pow2 q / pow2 q0 == inject_Z (m * 2 ^ (q - q0))).
    { rewrite (pow2_split q q0 Hq0), inject_Z_mult.
      pose proof (pow2_pos q0). field. lra. }
    rewrite (py_round_Qeq _ _ Hdiv), py_round_inject_Z, inject_Z_mult.
    rewrite (pow2_split q q0 Hq0). ring. }
  intros Hm Hq.
  destruct (decide (m = 0)%Z) as [-> | Hm0].
  { rewrite (py_float_zero (inject_Z 0 * pow2 q)); ring. }
  destruct (decide (m = 2 ^ 53)%Z) as [-> | Hm53]; [|apply Hmain; [lia | done]].
  assert (Heq : inject_Z (2 ^ 53) * pow2 q == inject_Z (2 ^ 52) * pow2 (q + 1)).
  { rewrite pow2_succ. change (2 ^ 53)%Z with (2 * 2 ^ 52)%Z. rewrite inject_Z_mult.
    change (inject_Z 2) with 2. ring. }
  rewrite (py_float_Qeq _ _ Heq), Hmain, Heq; [reflexivity | lia | lia].
Qed.

(** The value of [py_float] is a binary64 number. *)
Lemma py_float_idem (x : Q) : 0 <= x → py_float (py_float x) == py_float x.
Proof.
  intros Hx. destruct (Qlt_le_dec 0 x) as [Hpos | Hle].
  2: { rewrite (py_float_zero x); [done | by apply Qle_antisym]. }
  destruct (py_float_pos x Hpos) as (e & H1 & H2 & Hfl).
  assert (Hq : (-1074 ≤ quantum_of e)%Z) by (unfold quantum_of; lia).
  assert (Hm : (0 ≤ py_round (x / pow2 (quantum_of e)) ≤ 2 ^ 53)%Z).
  { pose proof (pow2_pos (quantum_of e)) as Hqpos. split.
    - apply py_round_ge_int. apply Qle_shift_div_l; [done|].
      change (inject_Z 0) with 0. lra.
    - apply py_round_le_int. apply Qle_shift_div_r; [done|].
      rewrite <- pow2_inject by lia. rewrite <- pow2_add.
      apply Qle_trans with (pow2 (e + 1)); [lra|]. apply pow2_le.
      unfold quantum_of. lia. }
  pose proof (py_float_fixed _ _ Hm Hq) as Hfix. fold (round_to (quantum_of e) x) in Hfix.
  rewrite (py_float_Qeq _ _ Hfl), Hfix. by symmetry.
Qed.

(** Below 1 the rounding error is at most [2^-54]. *)
Lemma py_float_error_below_one (x : Q) :
  0 <= x → x <= 1 → py_float x <= x + (1 # 2 ^ 54).
Proof.
  intros Hx0 Hx1. destruct (Qlt_le_dec 0 x) as [Hpos | Hle].
  2: { rewrite (py_float_zero x); [|by apply Qle_antisym].
       assert (0 < 1 # 2 ^ 54) by reflexivity. lra. }
  destruct (Qlt_le_dec x 1) as [Hlt | Hge].
  2: { assert (Heq : x == 1) by (by apply Qle_antisym).
       rewrite (py_float_Qeq _ _ Heq). rewrite Heq. vm_compute. discriminate. }
  destruct (py_float_pos x Hpos) as (e & H1 & H2 & ->).
  assert (He : (e < 0)%Z).
  { apply pow2_lt_inv. change (pow2 0) with 1. lra. }
  unfold round_to. set (q := quantum_of e).
  assert (Hq : (q ≤ -53)%Z) by (unfold q, quantum_of; lia).
  pose proof (pow2_pos q) as Hqpos.
  destruct (py_round_near (x / pow2 q)) as [Hnear _].
  assert (Hp : pow2 q <= 1 # 2 ^ 53).
  { apply Qle_trans with (pow2 (-53)); [by apply pow2_le|]. vm_compute. discriminate. }
  pose proof (div_pow2 x q) as Hd.
  set (t := x / pow2 q) in *. set (r := inject_Z (py_round t)) in *.
  assert (Hr : r * pow2 q <= x + (1 # 2) * pow2 q).
  { rewrite <- Hd. nra. }
  apply Qle_trans with (x + (1 # 2) * pow2 q); [done|].
  assert (H54 : (1 # 2) * (1 # 2 ^ 53) == 1 # 2 ^ 54) by reflexivity.
  rewrite <- H54. nra.
Qed.

Lemma py_float_unit (x : Q) : 0 <= x → x <= 1 → 0 <= py_float x ∧ py_float x <= 1.
Proof.
  intros Hx0 Hx1. split; [by apply py_float_nonneg|].
  apply Qle_trans with (py_float 1); [by apply py_float_mono|]. vm_compute. discriminate.
Qed.

(** The step of the moving average, evaluated in binary64, keeps a
    fraction a fraction. *)
Lemma average_step_unit (beta e o : Q) :
  0 <= beta → beta <= 1 → 0 <= e → e <= 1 → 0 <= o → o <= 1 →
  0 <= py_float (py_float (py_float beta * e)
                 + py_float (py_float (1 - py_float beta) * o))
  ∧ py_float (py_float (py_float beta * e)
              + py_float (py_float (1 - py_float beta) * o)) <= 1.
Proof.
  intros Hb0 Hb1 He0 He1 Ho0 Ho1.
  destruct (py_float_unit beta Hb0 Hb1) as [Hf0 Hf1]. set (b := py_float beta) in *.
  assert (Hbb : py_float b == b) by (by apply py_float_idem).
  assert (Ha : 0 <= py_float (b * e) ∧ py_float (b * e) <= b).
  { split; [apply py_float_nonneg; nra|]. rewrite <- Hbb at 2.
    apply py_float_mono; nra. }
  assert (Hc : 0 <= py_float (1 - b) ∧ py_float (1 - b) <= 1 - b + (1 # 2 ^ 54)).
  { split; [apply py_float_nonneg; lra | apply py_float_error_below_one; lra]. }
  assert (Hcc : py_float (py_float (1 - b)) == py_float (1 - b))
    by (apply py_float_idem; lra).
  set (c := py_float (1 - b)) in *.
  assert (Hd : 0 <= py_float (c * o) ∧ py_float (c * o) <= c).
  { split; [apply py_float_nonneg; nra|]. rewrite <- Hcc at 2.
    apply py_float_mono; nra. }
  set (a := py_float (b * e)) in *. set (d := py_float (c * o)) in *.
  split; [apply py_float_nonneg; lra|].
  apply Qle_trans with (py_float (1 + (1 # 2 ^ 54))).
  - apply py_float_mono; lra.
  - vm_compute. discriminate.
Qed.

(** The observed fault ratio, evaluated in binary64, is a fraction. *)
Lemma ratio_unit (a b : Z) :
  (0 ≤ a ≤ b)%Z → (0 < b)%Z →
  0 <= py_float (py_float (inject_Z a) / py_float (inject_Z b))
  ∧ py_float (py_float (inject_Z a) / py_float (inject_Z b)) <= 1.
Proof.
  intros Ha Hb.
  assert (Ha0 : 0 <= inject_Z a) by (change 0 with (inject_Z 0); rewrite <- Zle_Qle; lia).
  assert (Hab : inject_Z a <= inject_Z b) by (rewrite <- Zle_Qle; lia).
  assert (Hb1 : 1 <= inject_Z b) by (change 1 with (inject_Z 1); rewrite <- Zle_Qle; lia).
  pose proof (py_float_nonneg _ Ha0) as Hfa.
  pose proof (py_float_mono _ _ Ha0 Hab) as Hfab.
  assert (Hfb : 1 <= py_float (inject_Z b)).
  { apply Qle_trans with (py_float 1); [vm_compute; discriminate|].
    apply py_float_mono; lra. }
  set (x := py_float (inject_Z a)) in *. set (y := py_float (inject_Z b)) in *.
  apply py_float_unit.
  - apply Qle_shift_div_l; lra.
  - apply Qle_shift_div_r; lra.
Qed.

End Binary64.

(** ** Facts about the simulator *)

Module RRFacts.
Import RR Metrics.

(** Slices of [p] in a timeline: total duration, and the dictionary of last
    end ticks that [compute_metrics] builds. *)
Definition dur_sum (p : string) (tl : list slice) : Z :=
  foldr (fun s acc => (if bool_decide (slice_pid s = p) then slice_end s - slice_start s else 0) + acc)
        0 tl.

Definition has_slice (p : string) (tl : list slice) : Prop :=
  ∃ s, s ∈ tl ∧ slice_pid s = p.

Lemma dur_sum_app p tl1 tl2 : dur_sum p (tl1 ++ tl2) = dur_sum p tl1 + dur_sum p tl2.
Proof. induction tl1 as [|s tl1 IH]; simpl; [done | rewrite IH; lia]. Qed.

Lemma dur_sum_no_slice p tl : ¬ has_slice p tl → dur_sum p tl = 0.
Proof.
  induction tl as [|s tl IH]; simpl; intros Hn; [done|].
  assert (Hrest : ¬ has_slice p tl).
  { intros (s' & Hin & Hp). apply Hn. exists s'. split; [by right | done]. }
  rewrite (IH Hrest).
  case_bool_decide as Hp; [|done]. destruct Hn. exists s. split; [left | done].
Qed.

Lemma has_slice_snoc p tl s :
  has_slice p (tl ++ [s]) ↔ has_slice p tl ∨ slice_pid s = p.
Proof.
  unfold has_slice. split.
  - intros (s' & Hin & Hp). apply elem_of_app in Hin as [Hin | Hin].
    + left. eauto.
    + apply list_elem_of_singleton in Hin. subst. by right.
  - intros [(s' & Hin & Hp) | Hp].
    + exists s'. split; [apply elem_of_app; by left | done].
    + exists s. split; [apply elem_of_app; right; by apply list_elem_of_singleton | done].
Qed.

(** *** The helper closure only appends eligible arrivals *)

Lemma push_arrivals_spec r t fut : ∀ idx rdy i' r',
  push_arrivals r t fut idx rdy = (i', r') →
  ∃ added, r' = rdy ++ added
    ∧ (idx ≤ i')%nat ∧ (i' ≤ idx + length fut)%nat
    ∧ (length added ≤ i' - idx)%nat
    ∧ Forall (fun p => ∃ a, (a, p) ∈ fut ∧ a ≤ t ∧ 0 < get0 r p) added.
Proof.
  induction fut as [|[a pid] fut IH]; simpl; intros idx rdy i' r' Heq.
  - inversion Heq; subst. exists []. rewrite app_nil_r.
    repeat split; simpl; try lia. constructor.
  - case_bool_decide as Hat.
    + apply IH in Heq as (added & -> & Hle & Hub & Hlen & Hall).
      assert (Hmono : Forall (fun p => ∃ a0, (a0, p) ∈ (a, pid) :: fut ∧ a0 ≤ t ∧ 0 < get0 r p) added).
      { eapply Forall_impl; [exact Hall|]. intros p (a0 & Hin & ? & ?).
        exists a0. split; [by right | done]. }
      destruct (bool_decide (0 < get0 r pid) && negb (bool_decide (pid ∈ rdy))) eqn:Hc.
      * exists (pid :: added). rewrite <- app_assoc. simpl.
        repeat split; [lia | lia | lia |].
        constructor; [|done].
        apply andb_true_iff in Hc as [Hc _]. apply bool_decide_eq_true in Hc.
        exists a. split; [left | done].
      * exists added. repeat split; [lia | lia | lia | done].
    + inversion Heq; subst. exists []. rewrite app_nil_r.
      repeat split; simpl; try lia. constructor.
Qed.

(** Entries of [future] are [(arr[p], p)] for ids of the list. *)
Definition future_ok (e : env) : Prop :=
  ∀ a p, (a, p) ∈ future e → p ∈ processes e ∧ a = get0 (arr e) p.

Lemma mk_env_future_ok procs quanta arrivals : future_ok (mk_env procs quanta arrivals).
Proof.
  intros a p Hin. unfold mk_env, sorted_future in Hin. simpl in Hin.
  rewrite merge_sort_Permutation in Hin.
  apply list_elem_of_fmap in Hin as (p' & Heq & Hp'). inversion Heq; subst.
  simpl. done.
Qed.

(** [st'] is [st] after admissions only: same [rem] and timeline, a later
    or equal [now], and a queue extended by arrived ids of the list. *)
Definition enqueues (e : env) (st st' : state) : Prop :=
  rem st' = rem st ∧ timeline st' = timeline st ∧ now st ≤ now st'
  ∧ ∃ added, ready st' = ready st ++ added
      ∧ Forall (fun p => p ∈ processes e ∧ get0 (arr e) p ≤ now st' ∧ 0 < get0 (rem st) p) added.

(** Splits an [enqueues] goal, leaving the witness of the appended ids. *)
Ltac enqueues_intro :=
  split; [simpl; try done | split; [simpl; try done | split; [simpl; try lia | simpl]]].

Lemma enqueues_refl e st : enqueues e st st.
Proof. enqueues_intro. exists []. split; [by rewrite app_nil_r | constructor]. Qed.

Lemma enqueues_trans e st1 st2 st3 : enqueues e st1 st2 → enqueues e st2 st3 → enqueues e st1 st3.
Proof.
  intros (Hr1 & Ht1 & Hn1 & a1 & Ha1 & Hf1) (Hr2 & Ht2 & Hn2 & a2 & Ha2 & Hf2).
  enqueues_intro; [congruence | congruence |].
  exists (a1 ++ a2). rewrite Ha2, Ha1, app_assoc. split; [done|].
  apply Forall_app. split.
  - eapply Forall_impl; [exact Hf1|]. intros p (? & ? & ?). repeat split; [done | lia | done].
  - eapply Forall_impl; [exact Hf2|]. intros p (? & ? & ?). rewrite <- Hr1. done.
Qed.

Lemma push_arrivals_up_to_enqueues e st :
  future_ok e → enqueues e st (push_arrivals_up_to e (now st) st).
Proof.
  intros Hok. unfold push_arrivals_up_to.
  destruct (push_arrivals _ _ _ _ _) as [i r] eqn:Heq. simpl.
  apply push_arrivals_spec in Heq as (added & -> & _ & _ & _ & Hall).
  enqueues_intro. exists added. split; [done|].
  eapply Forall_impl; [exact Hall|]. intros p (a & Hin & Hle & Hpos).
  assert (Hin' : (a, p) ∈ future e) by (by eapply subseteq_drop).
  destruct (Hok _ _ Hin') as [Hp ->]. done.
Qed.

Lemma push_arrivals_up_to_now e t st : now (push_arrivals_up_to e t st) = now st.
Proof. unfold push_arrivals_up_to. by destruct (push_arrivals _ _ _ _ _). Qed.

Lemma jump_to_next_enqueues e st :
  future_ok e → enqueues e st (jump_to_next e st).
Proof.
  intros Hok. unfold jump_to_next.
  destruct (ready st) eqn:Hr; [|apply enqueues_refl].
  destruct (future e !! future_idx st) as [[a p]|]; [|apply enqueues_refl].
  set (st1 := State _ _ _ _ _).
  apply enqueues_trans with st1.
  - enqueues_intro. exists []. split; [by rewrite app_nil_r | constructor].
  - apply (push_arrivals_up_to_enqueues e st1 Hok).
Qed.

Lemma rescan_enqueues e st : enqueues e st (rescan e st).
Proof.
  unfold rescan. enqueues_intro.
  generalize (ready st) as rdy.
  assert (Hsub : ∀ p, p ∈ processes e → p ∈ processes e) by done. revert Hsub.
  generalize (processes e) at 1 3 as l.
  induction l as [|p l IH]; simpl; intros Hsub rdy.
  - exists []. split; [by rewrite app_nil_r | constructor].
  - destruct (bool_decide (0 < get0 (rem st) p) && bool_decide (get0 (arr e) p ≤ now st)
              && negb (bool_decide (p ∈ rdy))) eqn:Hc.
    + destruct (IH (fun q Hq => Hsub q (list_elem_of_further _ _ _ Hq)) (rdy ++ [p])) as (added & -> & Hall).
      exists (p :: added). rewrite <- app_assoc. split; [done|].
      constructor; [|done].
      apply andb_true_iff in Hc as [Hc _]. apply andb_true_iff in Hc as [Hc1 Hc2].
      apply bool_decide_eq_true in Hc1, Hc2. repeat split; [|done|done].
      apply Hsub. left.
    + apply IH. intros q Hq. apply Hsub. by right.
Qed.

(** *** The iteration budget never increases by admissions *)

Lemma push_arrivals_up_to_budget e t st :
  (budget e (push_arrivals_up_to e t st) ≤ budget e st)%nat.
Proof.
  unfold push_arrivals_up_to, budget.
  destruct (push_arrivals _ _ _ _ _) as [i r] eqn:Heq. simpl.
  apply push_arrivals_spec in Heq as (added & -> & Hle & Hub & Hlen & _).
  rewrite length_drop in Hub. rewrite length_app. lia.
Qed.

Lemma jump_to_next_budget e st : (budget e (jump_to_next e st) ≤ budget e st)%nat.
Proof.
  unfold jump_to_next.
  destruct (ready st) eqn:Hr; [|done].
  destruct (future e !! future_idx st) as [[a p]|]; [|done].
  etrans; [apply push_arrivals_up_to_budget|].
  unfold budget. simpl. rewrite Hr. done.
Qed.

Lemma rescan_ready_length e st :
  (length (ready (rescan e st)) ≤ length (ready st) + length (processes e))%nat.
Proof.
  unfold rescan. simpl. generalize (ready st) as rdy.
  induction (processes e) as [|p l IH]; simpl; intros rdy; [lia|].
  etrans; [apply IH|]. destruct (_ && _); rewrite ?length_app; simpl; lia.
Qed.

Lemma get0_insert (m : gmap string Z) p q v :
  get0 (<[p := v]> m) q = if decide (p = q) then v else get0 m q.
Proof. unfold get0. rewrite lookup_insert. by case_decide. Qed.

Lemma total_burst_nonneg procs (r : gmap string Z) :
  (∀ p, 0 ≤ get0 r p) → 0 ≤ total_burst procs r.
Proof. intros H. induction procs as [|p l IH]; simpl; [lia|]. specialize (H p). lia. Qed.

Lemma total_burst_insert_le procs (r : gmap string Z) pid v :
  v ≤ get0 r pid → total_burst procs (<[pid := v]> r) ≤ total_burst procs r.
Proof.
  intros Hv. induction procs as [|p l IH]; simpl; [lia|].
  rewrite get0_insert. case_decide; subst; lia.
Qed.

Lemma total_burst_insert_lt procs (r : gmap string Z) pid v :
  pid ∈ procs → v < get0 r pid →
  total_burst procs (<[pid := v]> r) < total_burst procs r.
Proof.
  intros Hin Hv. induction procs as [|p l IH]; simpl; [by apply elem_of_nil in Hin|].
  rewrite get0_insert. apply elem_of_cons in Hin as [-> | Hin].
  - rewrite decide_True by done.
    pose proof (total_burst_insert_le l r p v ltac:(lia)). lia.
  - specialize (IH Hin). case_decide; subst; lia.
Qed.

Lemma push_arrivals_stop r t fut : ∀ idx rdy i' r' a p,
  push_arrivals r t fut idx rdy = (i', r') →
  fut !! (i' - idx)%nat = Some (a, p) → t < a.
Proof.
  induction fut as [|[a0 pid] fut IH]; simpl; intros idx rdy i' r' a p Heq Hlk; [done|].
  case_bool_decide as Hat.
  - pose proof (push_arrivals_spec _ _ _ _ _ _ _ Heq) as (_ & _ & Hle & _).
    eapply IH; [exact Heq|].
    replace (i' - idx)%nat with (S (i' - S idx)) in Hlk by lia. exact Hlk.
  - inversion Heq; subst. rewrite Nat.sub_diag in Hlk. simpl in Hlk.
    inversion Hlk; subst. lia.
Qed.

(** *** Timeline bookkeeping by [compute_metrics] *)

Lemma completion_snoc tl s :
  completion (tl ++ [s])
  = <[slice_pid s := Z.max (get0 (completion tl) (slice_pid s)) (slice_end s)]> (completion tl).
Proof. unfold completion. by rewrite foldl_app. Qed.

Lemma completion_has_slice tl p : is_Some (completion tl !! p) ↔ has_slice p tl.
Proof.
  induction tl as [|s tl IH] using rev_ind.
  - split; [intros [? H]; change (completion []) with (∅ : gmap string Z) in H;
             by rewrite lookup_empty in H|].
    intros (s & Hin & _). by apply elem_of_nil in Hin.
  - rewrite completion_snoc, has_slice_snoc, lookup_insert, <- IH.
    case_decide as Hp; split; intros H; eauto.
    destruct H as [H | H]; [done | congruence].
Qed.

(** *** The loop invariant *)

(** [rem0] is the dictionary of coerced bursts the simulation started from;
    [pending] holds the id taken from the queue head while its turn runs. *)
Record Inv (e : env) (rem0 : gmap string Z) (pending : list string) (st : state) : Prop := {
  inv_now : 0 ≤ now st;
  inv_ready_procs : ∀ p, p ∈ ready st → p ∈ processes e;
  inv_arrived : ∀ p, p ∈ ready st → get0 (arr e) p ≤ now st;
  inv_rem_nonneg : ∀ p, 0 ≤ get0 (rem st) p;
  inv_slices : Forall (fun s => slice_start s < slice_end s ∧ slice_end s ≤ now st) (timeline st);
  inv_sorted : StronglySorted Z.le (slice_start <$> timeline st);
  inv_queued : ∀ p, has_slice p (timeline st) →
                 get0 (rem st) p = 0 ∨ p ∈ ready st ∨ p ∈ pending;
  inv_sum : ∀ p, dur_sum p (timeline st) + get0 (rem st) p = get0 rem0 p;
  inv_completion : ∀ p c, completion (timeline st) !! p = Some c →
                     get0 (arr e) p + dur_sum p (timeline st) ≤ c ∧ c ≤ now st
}.

Lemma Inv_enqueues e rem0 pending st st' :
  enqueues e st st' → Inv e rem0 pending st → Inv e rem0 pending st'.
Proof.
  intros (Hrem & Htl & Hnow & added & Hrdy & Hadd) [].
  rewrite Forall_forall in Hadd.
  split; rewrite ?Hrem, ?Htl; try done.
  - lia.
  - intros p. rewrite Hrdy, elem_of_app. intros [Hp | Hp]; [auto | by apply Hadd].
  - intros p. rewrite Hrdy, elem_of_app. intros [Hp | Hp].
    + specialize (inv_arrived0 p Hp). lia.
    + by apply Hadd.
  - eapply Forall_impl; [exact inv_slices0|]. simpl. intros s [? ?]. lia.
  - intros p Hp. rewrite Hrdy, elem_of_app.
    destruct (inv_queued0 p Hp) as [? | [? | ?]]; auto.
  - intros p c Hc. destruct (inv_completion0 p c Hc). lia.
Qed.

Lemma StronglySorted_snoc_le (l : list Z) (x : Z) :
  StronglySorted Z.le l → Forall (fun y => y ≤ x) l → StronglySorted Z.le (l ++ [x]).
Proof.
  induction 1 as [|y l Hs IH Hall]; simpl; intros Hle.
  - repeat constructor.
  - inversion Hle; subst. constructor; [by apply IH|].
    apply Forall_app. split; [done | by repeat constructor].
Qed.

Definition popped (st : state) (rest : list string) : state :=
  State (rem st) (future_idx st) (now st) (timeline st) rest.

Lemma Inv_pop e rem0 st pid rest :
  Inv e rem0 [] st → ready st = pid :: rest →
  Inv e rem0 [pid] (popped st rest) ∧ pid ∈ processes e ∧ get0 (arr e) pid ≤ now st.
Proof.
  intros [] Hr. rewrite Hr in *. split; [split; simpl; try done|].
  - intros p Hp. apply inv_ready_procs0. by right.
  - intros p Hp. apply inv_arrived0. by right.
  - intros p Hp. destruct (inv_queued0 p Hp) as [? | [Hin | Hin]]; auto.
    + apply elem_of_cons in Hin as [-> | Hin]; auto. right. right. left.
    + by apply elem_of_nil in Hin.
  - split; [apply inv_ready_procs0 | apply inv_arrived0]; left.
Qed.

Lemma Inv_drop_pending e rem0 st pid :
  Inv e rem0 [pid] st → get0 (rem st) pid ≤ 0 → Inv e rem0 [] st.
Proof.
  intros [] Hle. split; try done.
  intros p Hp. destruct (inv_queued0 p Hp) as [? | [? | Hin]]; auto.
  apply list_elem_of_singleton in Hin as ->. left.
  specialize (inv_rem_nonneg0 pid). lia.
Qed.

Lemma Inv_requeue e rem0 st pid :
  Inv e rem0 [pid] st → pid ∈ processes e → get0 (arr e) pid ≤ now st →
  Inv e rem0 [] (State (rem st) (future_idx st) (now st) (timeline st) (ready st ++ [pid])).
Proof.
  intros [] Hin Harr. split; simpl; try done.
  - intros p. rewrite elem_of_app, list_elem_of_singleton. intros [? | ->]; auto.
  - intros p. rewrite elem_of_app, list_elem_of_singleton. intros [? | ->]; auto.
  - intros p Hp. rewrite elem_of_app. destruct (inv_queued0 p Hp) as [? | [? | ?]]; auto.
Qed.

(** The state right after a slice is appended and its ticks are consumed. *)
Definition sliced (e : env) (pid : string) (st : state) : state :=
  let use := Z.max 1 (Z.min (get1 (qmap e) pid) (get0 (rem st) pid)) in
  State (<[pid := get0 (rem st) pid - use]> (rem st)) (future_idx st)
    (now st + use) (timeline st ++ [(pid, now st, now st + use)]) (ready st).

Lemma Inv_sliced e rem0 st pid :
  Inv e rem0 [pid] st → 0 < get0 (rem st) pid → get0 (arr e) pid ≤ now st →
  Inv e rem0 [pid] (sliced e pid st).
Proof.
  intros [] Hpos Harr. unfold sliced.
  set (use := Z.max 1 (Z.min (get1 (qmap e) pid) (get0 (rem st) pid))).
  assert (Huse : 1 ≤ use ≤ get0 (rem st) pid) by lia.
  assert (Hstarts : Forall (fun y => y ≤ now st) (slice_start <$> timeline st)).
  { apply Forall_fmap. eapply Forall_impl; [exact inv_slices0|]. simpl. intros s [? ?]. lia. }
  split; simpl.
  - lia.
  - done.
  - intros p Hp. specialize (inv_arrived0 p Hp). lia.
  - intros p. rewrite get0_insert. case_decide; [lia | done].
  - apply Forall_app. split.
    + eapply Forall_impl; [exact inv_slices0|]. simpl. intros s [? ?]. lia.
    + repeat constructor; unfold slice_start, slice_end; simpl; lia.
  - rewrite fmap_app. simpl. by apply StronglySorted_snoc_le.
  - intros p Hp. rewrite get0_insert. case_decide as Hpid.
    + subst. right. right. left.
    + apply has_slice_snoc in Hp as [Hp | Hp]; [|done].
      destruct (inv_queued0 p Hp) as [? | [? | ?]]; auto.
  - intros p. rewrite dur_sum_app, get0_insert. simpl. unfold slice_pid, slice_start, slice_end. simpl.
    specialize (inv_sum0 p). case_bool_decide; case_decide; subst; try congruence; lia.
  - intros p c. rewrite completion_snoc, lookup_insert, dur_sum_app. simpl.
    unfold slice_pid, slice_start, slice_end. simpl.
    case_decide as Hpid.
    + subst p. rewrite bool_decide_eq_true_2 by done. intros [= <-].
      unfold get0 at 2 3.
      destruct (completion (timeline st) !! pid) as [c0|] eqn:Hc0; simpl.
      * destruct (inv_completion0 pid c0 Hc0). lia.
      * rewrite dur_sum_no_slice; [lia|].
        intros Hs. apply completion_has_slice in Hs as [? Hs]. congruence.
    + rewrite bool_decide_eq_false_2 by done. intros Hc.
      destruct (inv_completion0 p c Hc). lia.
Qed.

Lemma run_head_sliced e pid st :
  ¬ get0 (rem st) pid ≤ 0 →
  run_head e pid st =
    let st2 := push_arrivals_up_to e (now (sliced e pid st)) (sliced e pid st) in
    let st3 := if bool_decide (0 < get0 (rem st2) pid)
               then State (rem st2) (future_idx st2) (now st2) (timeline st2) (ready st2 ++ [pid])
               else st2 in
    match ready st3 with
    | [] => jump_to_next e (rescan e st3)
    | _ :: _ => st3
    end.
Proof. intros H. unfold run_head. by rewrite bool_decide_eq_false_2. Qed.

Lemma Inv_run_head e rem0 st pid rest :
  future_ok e → Inv e rem0 [] st → ready st = pid :: rest →
  Inv e rem0 [] (run_head e pid (popped st rest)).
Proof.
  intros Hok HI Hr. destruct (Inv_pop _ _ _ _ _ HI Hr) as (HP & Hin & Harr).
  destruct (decide (get0 (rem (popped st rest)) pid ≤ 0)) as [Hle | Hgt].
  - unfold run_head. rewrite bool_decide_eq_true_2 by done.
    eapply Inv_enqueues; [by apply jump_to_next_enqueues|].
    eapply Inv_enqueues; [by apply push_arrivals_up_to_enqueues|].
    by eapply Inv_drop_pending.
  - rewrite run_head_sliced by done.
    assert (HS : Inv e rem0 [pid] (sliced e pid (popped st rest))).
    { apply Inv_sliced; [done | lia | done]. }
    pose proof (push_arrivals_up_to_enqueues e _ Hok : enqueues e (sliced e pid (popped st rest)) _) as Henq.
    pose proof (Inv_enqueues _ _ _ _ _ Henq HS) as H2.
    set (st2 := push_arrivals_up_to e _ _) in *. simpl.
    assert (H3 : Inv e rem0 []
              (if bool_decide (0 < get0 (rem st2) pid)
               then State (rem st2) (future_idx st2) (now st2) (timeline st2) (ready st2 ++ [pid])
               else st2)).
    { case_bool_decide as Hrem.
      - apply Inv_requeue; [done | done |].
        destruct Henq as (_ & _ & Hnow & _). simpl in Hnow.
        pose proof (inv_now _ _ _ _ HP). simpl in *. lia.
      - eapply Inv_drop_pending; [done | lia]. }
    set (st3 := if bool_decide (0 < get0 (rem st2) pid) then _ else _) in *.
    destruct (ready st3) eqn:Hr3; [|done].
    eapply Inv_enqueues; [by apply jump_to_next_enqueues|].
    eapply Inv_enqueues; [apply rescan_enqueues | done].
Qed.

(** *** Every iteration lowers the budget *)

Lemma budget_popped e st pid rest :
  ready st = pid :: rest → budget e st = S (budget e (popped st rest)).
Proof. intros Hr. unfold budget. simpl. rewrite Hr. simpl. lia. Qed.

Lemma budget_snoc e st pid :
  budget e (State (rem st) (future_idx st) (now st) (timeline st) (ready st ++ [pid]))
  = S (budget e st).
Proof. unfold budget. simpl. rewrite length_app. simpl. lia. Qed.

Lemma rescan_budget e st :
  (budget e (rescan e st) ≤ budget e st + length (processes e))%nat.
Proof.
  pose proof (rescan_ready_length e st) as Hlen.
  unfold budget. unfold rescan in *. simpl in *. lia.
Qed.

Lemma sliced_budget e rem0 st pid :
  Inv e rem0 [pid] st → pid ∈ processes e → 0 < get0 (rem st) pid →
  (budget e (sliced e pid st) + S (S (length (processes e))) ≤ budget e st)%nat.
Proof.
  intros HI Hin Hpos. unfold budget, sliced. simpl.
  set (use := Z.max 1 (Z.min (get1 (qmap e) pid) (get0 (rem st) pid))).
  pose proof (total_burst_insert_lt (processes e) (rem st) pid (get0 (rem st) pid - use)
                Hin ltac:(lia)) as Hlt.
  assert (Hnn : 0 ≤ total_burst (processes e) (<[pid := get0 (rem st) pid - use]> (rem st))).
  { apply total_burst_nonneg. intros p. rewrite get0_insert.
    pose proof (inv_rem_nonneg _ _ _ _ HI p). case_decide; lia. }
  set (T' := total_burst _ (<[_ := _]> _)) in *.
  set (T := total_burst _ (rem st)) in *.
  assert (HT : (Z.to_nat T' + 1 ≤ Z.to_nat T)%nat) by lia.
  apply (Nat.mul_le_mono_l _ _ (S (S (length (processes e))))) in HT. lia.
Qed.

Lemma run_head_budget e rem0 st pid rest :
  future_ok e → Inv e rem0 [] st → ready st = pid :: rest →
  (budget e (run_head e pid (popped st rest)) < budget e st)%nat.
Proof.
  intros Hok HI Hr. rewrite (budget_popped e st pid rest Hr).
  destruct (Inv_pop _ _ _ _ _ HI Hr) as (HP & Hin & Harr).
  destruct (decide (get0 (rem (popped st rest)) pid ≤ 0)) as [Hle | Hgt].
  - unfold run_head. rewrite bool_decide_eq_true_2 by done.
    pose proof (jump_to_next_budget e (push_arrivals_up_to e (now (popped st rest)) (popped st rest))).
    pose proof (push_arrivals_up_to_budget e (now (popped st rest)) (popped st rest)). lia.
  - rewrite run_head_sliced by done.
    pose proof (sliced_budget e rem0 (popped st rest) pid HP Hin ltac:(lia)) as Hs.
    set (st1 := sliced e pid (popped st rest)) in *.
    pose proof (push_arrivals_up_to_budget e (now st1) st1) as H2.
    set (st2 := push_arrivals_up_to e (now st1) st1) in *. simpl.
    case_bool_decide as Hrem.
    + simpl. destruct (ready st2 ++ [pid]) eqn:Happ.
      { by apply app_nil in Happ as [_ ?]. }
      rewrite <- Happ, budget_snoc. lia.
    + destruct (ready st2) eqn:Hr2; [|lia].
      pose proof (jump_to_next_budget e (rescan e st2)).
      pose proof (rescan_budget e st2). lia.
Qed.

(** The loop leaves by its own exit test, within the budget, and the
    invariant holds of the state it leaves with. *)
Lemma loop_total e rem0 : future_ok e → ∀ fuel st,
  Inv e rem0 [] st → (budget e st ≤ fuel)%nat →
  ∃ st', loop e fuel st = Some st' ∧ Inv e rem0 [] st' ∧ ready st' = [].
Proof.
  intros Hok. induction fuel as [|fuel IH]; intros st HI Hb.
  - destruct (ready st) eqn:Hr.
    + exists st. simpl. by rewrite Hr.
    + rewrite (budget_popped e st _ _ Hr) in Hb. lia.
  - simpl. destruct (ready st) as [|pid rest] eqn:Hr.
    + by exists st.
    + apply IH.
      * by eapply Inv_run_head.
      * pose proof (run_head_budget e rem0 st pid rest Hok HI Hr). 
        unfold popped in *. lia.
Qed.

(** *** The coerced dictionaries *)

(** More fuel than the loop needs changes nothing. *)
Lemma loop_fuel_mono e : ∀ (fuel fuel' : nat) st st',
  loop e fuel st = Some st' → (fuel ≤ fuel')%nat → loop e fuel' st = Some st'.
Proof.
  induction fuel as [|fuel IH]; intros fuel' st st' Hloop Hle.
  - simpl in Hloop. destruct (ready st) eqn:Hr; [|done].
    destruct fuel'; simpl; by rewrite Hr.
  - destruct fuel' as [|fuel']; [lia|]. simpl in *.
    destruct (ready st) as [|pid rest]; [done|]. apply (IH fuel'); [done | lia].
Qed.

Lemma budget_positive e st :
  0 < total_burst (processes e) (rem st) → (1 ≤ budget e st)%nat.
Proof. intros Hpos. unfold budget. nia. Qed.

(** A run that ends within one iteration of the loop. *)
Lemma simulate_in_one_step procs bursts quanta arrivals tl :
  timeline <$> loop (mk_env procs quanta arrivals) 1
                 (init (mk_env procs quanta arrivals) bursts) = Some tl →
  0 < total_burst procs (rem (init (mk_env procs quanta arrivals) bursts)) →
  simulate_rr_with_quanta procs bursts quanta arrivals = Some tl.
Proof.
  intros Hone Hpos. unfold simulate_rr_with_quanta. cbv zeta.
  destruct (loop (mk_env procs quanta arrivals) 1 _) as [st'|] eqn:Hloop; [|done].
  rewrite (loop_fuel_mono _ 1 _ _ st' Hloop); [done|].
  by apply budget_positive.
Qed.

Lemma foldl_insert_lookup (f : string → Z) (l : list string) : ∀ (m0 : gmap string Z) q,
  foldl (fun m p => <[p := f p]> m) m0 l !! q
  = if decide (q ∈ l) then Some (f q) else m0 !! q.
Proof.
  induction l as [|p l IH]; simpl; intros m0 q.
  - done.
  - rewrite IH. destruct (decide (q ∈ l)) as [Hin | Hnin].
    + rewrite decide_True; [done | by right].
    + rewrite lookup_insert. destruct (decide (p = q)) as [-> | Hne].
      * rewrite decide_True; [done | left].
      * rewrite decide_False; [done|]. intros Hq.
        apply elem_of_cons in Hq as [-> | ?]; done.
Qed.

Lemma coerce_rem_get procs bursts p :
  get0 (coerce_rem procs bursts) p
  = if decide (p ∈ procs) then Z.max 0 (py_round (getq 0 bursts p)) else 0.
Proof.
  unfold get0, coerce_rem.
  rewrite (foldl_insert_lookup (fun p => Z.max 0 (py_round (getq 0 bursts p)))).
  by case_decide.
Qed.

Lemma coerce_arr_get procs arrivals p :
  get0 (coerce_arr procs arrivals) p
  = if decide (p ∈ procs) then py_round (getq 0 arrivals p) else 0.
Proof.
  unfold get0, coerce_arr.
  rewrite (foldl_insert_lookup (fun p => py_round (getq 0 arrivals p))).
  by case_decide.
Qed.

Lemma coerce_rem_nonneg procs bursts p : 0 ≤ get0 (coerce_rem procs bursts) p.
Proof. rewrite coerce_rem_get. case_decide; lia. Qed.

(** *** The invariant holds when the loop is entered *)

Lemma Inv_start e bursts :
  Inv e (coerce_rem (processes e) bursts) [] (State (coerce_rem (processes e) bursts) 0 0 [] []).
Proof.
  split; simpl; try done.
  - intros p Hp. by apply elem_of_nil in Hp.
  - intros p Hp. by apply elem_of_nil in Hp.
  - apply coerce_rem_nonneg.
  - constructor.
  - intros p (s & Hs & _). by apply elem_of_nil in Hs.
Qed.

Lemma Inv_init e bursts :
  future_ok e → Inv e (coerce_rem (processes e) bursts) [] (init e bursts).
Proof.
  intros Hok. unfold init.
  set (st0 := State (coerce_rem (processes e) bursts) 0 0 [] []).
  pose proof (Inv_start e bursts) as H0. fold st0 in H0.
  pose proof (push_arrivals_up_to_enqueues e st0 Hok) as Henq.
  pose proof (Inv_enqueues _ _ _ _ _ Henq H0) as H1.
  assert (Hstop : ∀ a p, future e !! future_idx (push_arrivals_up_to e (now st0) st0) = Some (a, p) → 0 < a).
  { intros a p. unfold push_arrivals_up_to.
    destruct (push_arrivals _ _ _ _ _) as [i r] eqn:Heq. simpl in *.
    intros Hlk. eapply (push_arrivals_stop _ _ _ _ _ _ _ a p Heq).
    by rewrite Nat.sub_0_r. }
  set (st1 := push_arrivals_up_to e (now st0) st0) in *.
  destruct (ready st1) eqn:Hr1; [|done].
  destruct (future e !! future_idx st1) as [[a p]|] eqn:Hf; [|done].
  specialize (Hstop a p eq_refl).
  set (st1' := State (rem st1) (future_idx st1) a (timeline st1) []).
  assert (Henq' : enqueues e st1 st1').
  { assert (Hnow : now st1 = 0) by apply push_arrivals_up_to_now.
    enqueues_intro. exists []. split; [by rewrite Hr1 | constructor]. }
  eapply Inv_enqueues; [apply (push_arrivals_up_to_enqueues e st1' Hok)|].
  by eapply Inv_enqueues.
Qed.

Lemma init_budget e bursts :
  (budget e (init e bursts)
   ≤ S (S (length (processes e)))
       * Z.to_nat (total_burst (processes e) (coerce_rem (processes e) bursts))
     + 2 * length (future e))%nat.
Proof.
  unfold init.
  set (st0 := State (coerce_rem (processes e) bursts) 0 0 [] []).
  pose proof (push_arrivals_up_to_budget e (now st0) st0) as H1.
  set (st1 := push_arrivals_up_to e (now st0) st0) in *.
  assert (H0 : budget e st0 = (S (S (length (processes e)))
       * Z.to_nat (total_burst (processes e) (coerce_rem (processes e) bursts))
     + 2 * length (future e))%nat).
  { unfold budget, st0. cbn [rem ready future_idx length]. lia. }
  rewrite <- H0.
  destruct (ready st1) eqn:Hr1; [|done].
  destruct (future e !! future_idx st1) as [[a p]|] eqn:Hf; [|done].
  etrans; [apply push_arrivals_up_to_budget|].
  etrans; [|exact H1]. unfold budget. simpl. by rewrite Hr1.
Qed.

Lemma mk_env_future_length procs quanta arrivals :
  length (future (mk_env procs quanta arrivals)) = length procs.
Proof.
  unfold mk_env, sorted_future. simpl.
  rewrite merge_sort_Permutation. by rewrite length_fmap.
Qed.

(** The simulator returns, the loop has left by its own test, and the
    invariant holds of the final state. *)
Lemma simulate_final procs bursts quanta arrivals :
  ∃ st', loop (mk_env procs quanta arrivals)
              (budget (mk_env procs quanta arrivals) (init (mk_env procs quanta arrivals) bursts))
              (init (mk_env procs quanta arrivals) bursts) = Some st'
    ∧ simulate_rr_with_quanta procs bursts quanta arrivals = Some (timeline st')
    ∧ Inv (mk_env procs quanta arrivals) (coerce_rem procs bursts) [] st'
    ∧ ready st' = [].
Proof.
  pose proof (mk_env_future_ok procs quanta arrivals) as Hok.
  destruct (loop_total _ (coerce_rem procs bursts) Hok _ _
              (Inv_init (mk_env procs quanta arrivals) bursts Hok) (Nat.le_refl _))
    as (st' & Hloop & HI & Hr).
  exists st'. unfold simulate_rr_with_quanta. cbv zeta. rewrite Hloop. done.
Qed.

(** *** What [compute_metrics] stores for an id of the list *)

Definition waiting_of (compl : gmap string Z) (initial_bursts arrivals : gmap string Q)
    (p : string) : Z :=
  match compl !! p with
  | None => 0
  | Some comp =>
      Z.max 0 (py_round (py_float (py_float (inject_Z (comp - py_round (getq 0 arrivals p)))
                                   - py_float (getq 0 initial_bursts p))%Q))
  end.

Definition turnaround_of (compl : gmap string Z) (arrivals : gmap string Q) (p : string) : Z :=
  match compl !! p with
  | None => 0
  | Some comp => Z.max 0 (py_round (py_float (inject_Z (comp - py_round (getq 0 arrivals p)))))
  end.

Lemma metrics_fold compl initial_bursts arrivals pids : ∀ w t,
  foldl (metrics_step compl initial_bursts arrivals) (w, t) pids
  = (foldl (fun m p => <[p := waiting_of compl initial_bursts arrivals p]> m) w pids,
     foldl (fun m p => <[p := turnaround_of compl arrivals p]> m) t pids).
Proof.
  induction pids as [|p l IH]; simpl; intros w t; [done|].
  rewrite <- IH. f_equal. unfold metrics_step, waiting_of, turnaround_of. simpl.
  by destruct (compl !! p).
Qed.

Lemma compute_metrics_lookup pids initial_bursts tl arrivals p :
  p ∈ pids → tl ≠ [] →
  waiting (compute_metrics pids initial_bursts tl arrivals) !! p
    = Some (waiting_of (completion tl) initial_bursts arrivals p)
  ∧ turnaround (compute_metrics pids initial_bursts tl arrivals) !! p
    = Some (turnaround_of (completion tl) arrivals p).
Proof.
  intros Hin Htl. unfold compute_metrics.
  destruct pids as [|p0 l]; [by apply elem_of_nil in Hin|].
  destruct tl as [|s0 tl0]; [done|].
  cbv zeta. rewrite metrics_fold. cbn [waiting turnaround fst snd].
  rewrite !foldl_insert_lookup. by rewrite !decide_True.
Qed.

Lemma dur_sum_nonneg p tl :
  Forall (fun s => slice_start s < slice_end s) tl → 0 ≤ dur_sum p tl.
Proof. induction 1 as [|s tl Hs Hall IH]; simpl; [lia|]. case_bool_decide; lia. Qed.

Lemma dur_sum_pos p tl :
  Forall (fun s => slice_start s < slice_end s) tl → has_slice p tl → 0 < dur_sum p tl.
Proof.
  induction 1 as [|s tl Hs Hall IH]; intros (s' & Hin & Hp).
  - by apply elem_of_nil in Hin.
  - pose proof (dur_sum_nonneg p tl Hall) as Hnn.
    simpl. apply elem_of_cons in Hin as [-> | Hin].
    + rewrite bool_decide_eq_true_2 by done. lia.
    + specialize (IH (ex_intro _ s' (conj Hin Hp))). case_bool_decide; lia.
Qed.

(** At the end of a run: an id with a slice was served its whole coerced
    burst, it belongs to the id list, and its last end tick is at least its
    arrival plus its burst. *)
Lemma served_in_full e rem0 st p :
  Inv e rem0 [] st → ready st = [] → has_slice p (timeline st) →
  dur_sum p (timeline st) = get0 rem0 p ∧ 0 < get0 rem0 p
  ∧ ∃ c, completion (timeline st) !! p = Some c ∧ get0 (arr e) p + get0 rem0 p ≤ c.
Proof.
  intros HI Hr Hp.
  assert (Hrem : get0 (rem st) p = 0).
  { destruct (inv_queued _ _ _ _ HI p Hp) as [? | [Hin | Hin]]; [done | |].
    - rewrite Hr in Hin. by apply elem_of_nil in Hin.
    - by apply elem_of_nil in Hin. }
  pose proof (inv_sum _ _ _ _ HI p) as Hsum. rewrite Hrem in Hsum.
  assert (Hpos : 0 < dur_sum p (timeline st)).
  { apply dur_sum_pos; [|done].
    eapply Forall_impl; [apply (inv_slices _ _ _ _ HI)|]. simpl. by intros s [? ?]. }
  split; [lia|]. split; [lia|].
  destruct (proj2 (completion_has_slice (timeline st) p) Hp) as [c Hc].
  exists c. split; [done|]. destruct (inv_completion _ _ _ _ HI p c Hc). lia.
Qed.

(** *** When every listed process has work, every one is served *)

(** The pending arrivals are ordered by time. *)
Definition time_sorted (e : env) : Prop :=
  ∀ (i j : nat) a p b q, (i ≤ j)%nat →
    future e !! i = Some (a, p) → future e !! j = Some (b, q) → a ≤ b.

#[local] Instance key_le_total : Total key_le.
Proof.
  intros [a p] [b q]. unfold key_le. simpl.
  destruct (Z.lt_trichotomy a b) as [? | [-> | ?]]; [by left; left | | by right; left].
  destruct (String.leb_total p q) as [H | H]; [left | right]; right; done.
Qed.

Definition time_le (x y : Z * string) : Prop := x.1 ≤ y.1.

Lemma key_sorted_time_sorted (l : list (Z * string)) :
  Sorted key_le l → StronglySorted time_le l.
Proof.
  intros Hs. apply Sorted_StronglySorted.
  - intros x y z. unfold time_le. lia.
  - induction Hs as [|x l Hs IH Hhd]; constructor; [done|].
    destruct Hhd as [|y l Hxy]; constructor.
    unfold key_le, time_le in *. lia.
Qed.

Lemma future_key_sorted procs quanta arrivals :
  Sorted key_le (future (mk_env procs quanta arrivals)).
Proof. unfold mk_env, sorted_future. simpl. apply Sorted_merge_sort, _. Qed.

Lemma mk_env_time_sorted procs quanta arrivals : time_sorted (mk_env procs quanta arrivals).
Proof.
  unfold time_sorted.
  pose proof (key_sorted_time_sorted _ (future_key_sorted procs quanta arrivals)) as Hs.
  revert Hs. generalize (future (mk_env procs quanta arrivals)).
  intros l Hs. induction Hs as [|x l Hs IH Hall]; intros i j a p b q Hij Hi Hj; [done|].
  destruct i as [|i], j as [|j]; simpl in *; try lia.
  - injection Hi as ->. injection Hj as ->. lia.
  - injection Hi as ->. rewrite Forall_forall in Hall.
    assert (Hk : time_le (a, p) (b, q)).
    { apply Hall. by eapply list_elem_of_lookup_2. }
    exact Hk.
  - eapply (IH i j); [lia | done | done].
Qed.

(** Consequences for the returned timeline, in terms of the inputs. *)
Lemma served_exactly procs bursts quanta arrivals tl p :
  simulate_rr_with_quanta procs bursts quanta arrivals = Some tl →
  has_slice p tl →
  p ∈ procs ∧ dur_sum p tl = Z.max 0 (py_round (getq 0 bursts p))
  ∧ ∃ c, completion tl !! p = Some c
       ∧ py_round (getq 0 arrivals p) + Z.max 0 (py_round (getq 0 bursts p)) ≤ c.
Proof.
  intros Hsim Hp.
  destruct (simulate_final procs bursts quanta arrivals) as (st' & _ & Hsim' & HI & Hr).
  rewrite Hsim in Hsim'. injection Hsim' as ->.
  destruct (served_in_full _ _ _ p HI Hr Hp) as (Hsum & Hpos & c & Hc & Hle).
  rewrite coerce_rem_get in Hsum, Hpos, Hle.
  destruct (decide (p ∈ procs)) as [Hin | Hnin]; [|lia].
  split; [done|]. split; [done|]. exists c. split; [done|].
  simpl in Hle. rewrite coerce_arr_get, decide_True in Hle by done. done.
Qed.

Lemma never_over_served procs bursts quanta arrivals tl p :
  simulate_rr_with_quanta procs bursts quanta arrivals = Some tl →
  0 ≤ dur_sum p tl ≤ Z.max 0 (py_round (getq 0 bursts p)).
Proof.
  intros Hsim.
  destruct (simulate_final procs bursts quanta arrivals) as (st' & _ & Hsim' & HI & Hr).
  rewrite Hsim in Hsim'. injection Hsim' as ->.
  pose proof (inv_sum _ _ _ _ HI p) as Hsum.
  pose proof (inv_rem_nonneg _ _ _ _ HI p) as Hnn.
  assert (Hdn : 0 ≤ dur_sum p (timeline st')).
  { apply dur_sum_nonneg.
    eapply Forall_impl; [apply (inv_slices _ _ _ _ HI)|]. simpl. by intros s [? ?]. }
  rewrite coerce_rem_get in Hsum. case_decide; lia.
Qed.

Lemma zero_burst_never_runs procs bursts quanta arrivals tl p :
  simulate_rr_with_quanta procs bursts quanta arrivals = Some tl →
  py_round (getq 0 bursts p) ≤ 0 → ¬ has_slice p tl.
Proof.
  intros Hsim Hz Hp.
  destruct (served_exactly _ _ _ _ _ _ Hsim Hp) as (_ & Hsum & _).
  destruct (simulate_final procs bursts quanta arrivals) as (st' & _ & Hsim' & HI & Hr).
  rewrite Hsim in Hsim'. injection Hsim' as ->.
  assert (0 < dur_sum p (timeline st')); [|lia].
  apply dur_sum_pos; [|done].
  eapply Forall_impl; [apply (inv_slices _ _ _ _ HI)|]. simpl. by intros s [? ?].
Qed.

(** *** Coverage of the consumed arrivals *)

(** Every arrival the cursor has passed has run, is queued, or is the id
    whose turn is running. *)
Definition covered (e : env) (pending : list string) (st : state) : Prop :=
  ∀ (i : nat) a p, (i < future_idx st)%nat → future e !! i = Some (a, p) →
    has_slice p (timeline st) ∨ p ∈ ready st ∨ p ∈ pending.

Definition all_positive (e : env) (rem0 : gmap string Z) : Prop :=
  ∀ p, p ∈ processes e → 0 < get0 rem0 p.

(** The arrivals the cursor has not passed are later than [now]. *)
Definition unseen_later (e : env) (st : state) : Prop :=
  ∀ (i : nat) a p, (future_idx st ≤ i)%nat → future e !! i = Some (a, p) → now st < a.

(** The queue is empty only when no pending arrival is left. *)
Definition drained (e : env) (st : state) : Prop :=
  ready st = [] → (length (future e) ≤ future_idx st)%nat.

Lemma has_slice_of_dur_sum p tl : dur_sum p tl ≠ 0 → has_slice p tl.
Proof.
  induction tl as [|s tl IH]; simpl; [done|]. intros Hne.
  case_bool_decide as Hp.
  - exists s. split; [left | done].
  - destruct IH as (s' & Hin & Hp'); [lia|]. exists s'. split; [by right | done].
Qed.

Lemma push_arrivals_consumed r t fut : ∀ idx rdy i' r' (k : nat) a p,
  push_arrivals r t fut idx rdy = (i', r') → (k < i' - idx)%nat →
  fut !! k = Some (a, p) → p ∈ r' ∨ get0 r p ≤ 0.
Proof.
  induction fut as [|[a0 pid] fut IH]; simpl; intros idx rdy i' r' k a p Heq Hk Hlk; [done|].
  case_bool_decide as Hat.
  - pose proof (push_arrivals_spec _ _ _ _ _ _ _ Heq) as (added & Hr' & Hle & _).
    destruct k as [|k]; simpl in Hlk.
    + injection Hlk as -> ->. subst r'.
      destruct (bool_decide (0 < get0 r p)) eqn:Hpos; simpl.
      * left. apply elem_of_app. left.
        destruct (bool_decide (p ∈ rdy)) eqn:Hin; simpl.
        -- by apply bool_decide_eq_true in Hin.
        -- apply elem_of_app. right. by apply list_elem_of_singleton.
      * right. apply bool_decide_eq_false in Hpos. lia.
    + eapply (IH _ _ _ _ k); [exact Heq | lia | exact Hlk].
  - injection Heq as <- <-. lia.
Qed.

Lemma worked_has_slice e rem0 pending st p :
  all_positive e rem0 → Inv e rem0 pending st → p ∈ processes e →
  get0 (rem st) p ≤ 0 → has_slice p (timeline st).
Proof.
  intros Hall HI Hin Hle. apply has_slice_of_dur_sum.
  pose proof (inv_sum _ _ _ _ HI p). pose proof (inv_rem_nonneg _ _ _ _ HI p).
  specialize (Hall p Hin). lia.
Qed.

Lemma covered_push e rem0 pend1 pend2 st t :
  future_ok e → all_positive e rem0 → Inv e rem0 pend1 st →
  covered e pend2 st → covered e pend2 (push_arrivals_up_to e t st).
Proof.
  intros Hok Hall HI Hcov. unfold push_arrivals_up_to, covered.
  destruct (push_arrivals _ _ _ _ _) as [i0 r] eqn:Heq. simpl.
  pose proof (push_arrivals_spec _ _ _ _ _ _ _ Heq) as (added & -> & Hle & _).
  intros i a p Hi Hlk.
  destruct (decide (i < future_idx st)%nat) as [Hlt | Hge].
  - destruct (Hcov i a p Hlt Hlk) as [? | [? | ?]]; auto.
    right. left. apply elem_of_app. by left.
  - assert (Hd : drop (future_idx st) (future e) !! (i - future_idx st)%nat = Some (a, p)).
    { rewrite lookup_drop. rewrite <- Hlk. f_equal. lia. }
    assert (Hk : (i - future_idx st < i0 - future_idx st)%nat) by lia.
    destruct (push_arrivals_consumed _ _ _ _ _ _ _ _ a p Heq Hk Hd) as [? | Hz].
    + by right; left.
    + left. eapply worked_has_slice; [done | done | | done].
      apply (Hok a p). by eapply list_elem_of_lookup_2.
Qed.

Lemma push_unseen e t st :
  time_sorted e → ∀ (i : nat) a p,
    (future_idx (push_arrivals_up_to e t st) ≤ i)%nat →
    future e !! i = Some (a, p) → t < a.
Proof.
  intros Hsorted i a p. unfold push_arrivals_up_to.
  destruct (push_arrivals _ _ _ _ _) as [i0 r] eqn:Heq. simpl. intros Hi Hlk.
  pose proof (push_arrivals_spec _ _ _ _ _ _ _ Heq) as (_ & _ & Hle & _).
  destruct (future e !! i0) as [[a0 p0]|] eqn:H0.
  - assert (t < a0).
    { eapply (push_arrivals_stop _ _ _ _ _ _ _ a0 p0 Heq).
      rewrite lookup_drop. rewrite <- H0. f_equal. lia. }
    pose proof (Hsorted i0 i a0 p0 a p Hi H0 Hlk). lia.
  - apply lookup_ge_None in H0. apply lookup_lt_Some in Hlk. lia.
Qed.

(** [st] with [now] moved forward. *)
Definition at_time (st : state) (n : Z) : state :=
  State (rem st) (future_idx st) n (timeline st) (ready st).

Lemma at_time_enqueues e st n : now st ≤ n → enqueues e st (at_time st n).
Proof. intros. enqueues_intro. exists []. split; [by rewrite app_nil_r | constructor]. Qed.

Lemma jump_to_next_unfold e st :
  jump_to_next e st
  = match ready st, future e !! future_idx st with
    | [], Some (a, _) =>
        push_arrivals_up_to e (Z.max (now st) a) (at_time st (Z.max (now st) a))
    | _, _ => st
    end.
Proof. done. Qed.

Lemma covered_jump e rem0 st :
  future_ok e → all_positive e rem0 → Inv e rem0 [] st →
  covered e [] st → covered e [] (jump_to_next e st).
Proof.
  intros Hok Hall HI Hcov. rewrite jump_to_next_unfold.
  destruct (ready st) eqn:Hr; [|done].
  destruct (future e !! future_idx st) as [[a p]|]; [|done].
  eapply covered_push; [done | done | |].
  - eapply Inv_enqueues; [apply (at_time_enqueues e st (Z.max (now st) a)); lia | done].
  - exact Hcov.
Qed.

Lemma jump_drained e rem0 st :
  future_ok e → all_positive e rem0 → Inv e rem0 [] st → unseen_later e st →
  drained e (jump_to_next e st).
Proof.
  intros Hok Hall HI Hun. rewrite jump_to_next_unfold. unfold drained.
  destruct (ready st) eqn:Hr; [|by rewrite Hr].
  destruct (future e !! future_idx st) as [[a p]|] eqn:Hlk.
  - pose proof (Hun _ a p (Nat.le_refl _) Hlk) as Hlate.
    destruct (Hok a p ltac:(by eapply list_elem_of_lookup_2)) as [Hin Harr].
    assert (Hnoslice : ¬ has_slice p (timeline st)).
    { intros Hs. pose proof (proj2 (completion_has_slice _ _) Hs) as [c Hc].
      destruct (inv_completion _ _ _ _ HI p c Hc) as [H1 H2].
      assert (0 < dur_sum p (timeline st)); [|lia].
      apply dur_sum_pos; [|done].
      eapply Forall_impl; [apply (inv_slices _ _ _ _ HI)|]. simpl. by intros s [? ?]. }
    assert (Hrem : 0 < get0 (rem st) p).
    { pose proof (inv_sum _ _ _ _ HI p) as Hsum.
      rewrite (dur_sum_no_slice _ _ Hnoslice) in Hsum. specialize (Hall p Hin). lia. }
    unfold push_arrivals_up_to, at_time. simpl.
    rewrite (drop_S _ _ _ Hlk). simpl.
    rewrite bool_decide_eq_true_2 by lia. rewrite Hr.
    rewrite (bool_decide_eq_true_2 _ Hrem). simpl.
    destruct (push_arrivals _ _ _ _ _) as [i0 r] eqn:Heq. simpl.
    pose proof (push_arrivals_spec _ _ _ _ _ _ _ Heq) as (added & -> & _). done.
  - intros _. by apply lookup_ge_None.
Qed.

Lemma covered_pop e st pid rest :
  covered e [] st → ready st = pid :: rest → covered e [pid] (popped st rest).
Proof.
  intros Hcov Hr i a p Hi Hlk. simpl in *.
  destruct (Hcov i a p Hi Hlk) as [? | [Hin | Hin]]; auto.
  - rewrite Hr in Hin. apply elem_of_cons in Hin as [-> | ?]; auto.
    right. right. left.
  - by apply elem_of_nil in Hin.
Qed.

Lemma covered_done e st pid :
  covered e [pid] st → has_slice pid (timeline st) → covered e [] st.
Proof.
  intros Hcov Hs i a p Hi Hlk.
  destruct (Hcov i a p Hi Hlk) as [? | [? | Hin]]; auto.
  apply list_elem_of_singleton in Hin as ->. by left.
Qed.

Lemma run_head_serves e rem0 st pid rest :
  future_ok e → time_sorted e → all_positive e rem0 →
  Inv e rem0 [] st → covered e [] st → ready st = pid :: rest →
  covered e [] (run_head e pid (popped st rest))
  ∧ drained e (run_head e pid (popped st rest)).
Proof.
  intros Hok Hsorted Hall HI Hcov Hr.
  destruct (Inv_pop _ _ _ _ _ HI Hr) as (HP & Hin & Harr).
  pose proof (covered_pop _ _ _ _ Hcov Hr) as HcP.
  destruct (decide (get0 (rem (popped st rest)) pid ≤ 0)) as [Hle | Hgt].
  - unfold run_head. rewrite bool_decide_eq_true_2 by done.
    pose proof (Inv_drop_pending _ _ _ _ HP Hle) as HP0.
    assert (Hc0 : covered e [] (popped st rest)).
    { eapply covered_done; [done|]. by eapply worked_has_slice. }
    set (st1 := push_arrivals_up_to e (now (popped st rest)) (popped st rest)).
    assert (HI1 : Inv e rem0 [] st1).
    { eapply Inv_enqueues; [by apply push_arrivals_up_to_enqueues | done]. }
    assert (Hc1 : covered e [] st1) by (by eapply covered_push).
    assert (Hu1 : unseen_later e st1).
    { intros i a p Hi Hlk. unfold st1 in *. rewrite push_arrivals_up_to_now.
      by eapply push_unseen. }
    split; [by eapply covered_jump | by eapply jump_drained].
  - rewrite run_head_sliced by done.
    assert (HS : Inv e rem0 [pid] (sliced e pid (popped st rest))).
    { apply Inv_sliced; [done | lia | done]. }
    assert (HcS : covered e [] (sliced e pid (popped st rest))).
    { intros i a p Hi Hlk. simpl in *.
      destruct (HcP i a p Hi Hlk) as [Hs | [? | Hp]]; auto.
      - left. apply has_slice_snoc. by left.
      - apply list_elem_of_singleton in Hp as ->. left. apply has_slice_snoc. by right. }
    pose proof (push_arrivals_up_to_enqueues e _ Hok
                : enqueues e (sliced e pid (popped st rest)) _) as Henq.
    pose proof (Inv_enqueues _ _ _ _ _ Henq HS) as H2.
    assert (Hc2 : covered e [] (push_arrivals_up_to e (now (sliced e pid (popped st rest)))
                                  (sliced e pid (popped st rest))))
      by (by eapply covered_push).
    assert (Hu2 : unseen_later e (push_arrivals_up_to e (now (sliced e pid (popped st rest)))
                                    (sliced e pid (popped st rest)))).
    { intros i a p Hi Hlk. rewrite push_arrivals_up_to_now. by eapply push_unseen. }
    set (st2 := push_arrivals_up_to e _ _) in *. simpl.
    case_bool_decide as Hrem.
    + simpl. destruct (ready st2 ++ [pid]) eqn:Happ.
      { by apply app_nil in Happ as [_ ?]. }
      rewrite <- Happ. split.
      * intros i a p Hi Hlk. simpl in *.
        destruct (Hc2 i a p Hi Hlk) as [? | [? | ?]]; auto.
        right. left. apply elem_of_app. by left.
      * unfold drained. simpl. rewrite Happ. done.
    + destruct (ready st2) eqn:Hr2.
      * assert (HI2 : Inv e rem0 [] st2) by (eapply Inv_drop_pending; [done | lia]).
        assert (HIr : Inv e rem0 [] (rescan e st2)).
        { eapply Inv_enqueues; [apply rescan_enqueues | done]. }
        assert (Hcr : covered e [] (rescan e st2)).
        { destruct (rescan_enqueues e st2) as (_ & _ & _ & added & Hrdy & _).
          intros i a p Hi Hlk. simpl in *.
          destruct (Hc2 i a p Hi Hlk) as [? | [? | ?]]; auto.
          right. left. rewrite Hrdy. apply elem_of_app. by left. }
        split; [by eapply covered_jump|].
        eapply jump_drained; [done | done | done |].
        intros i a p Hi Hlk. simpl in *. by eapply Hu2.
      * split; [done|]. unfold drained. by rewrite Hr2.
Qed.

Lemma loop_serves e rem0 :
  future_ok e → time_sorted e → all_positive e rem0 → ∀ fuel st st',
  loop e fuel st = Some st' →
  Inv e rem0 [] st → covered e [] st → drained e st →
  covered e [] st' ∧ drained e st'.
Proof.
  intros Hok Hsorted Hall. induction fuel as [|fuel IH]; intros st st' Hloop HI Hcov Hdr.
  - simpl in Hloop. destruct (ready st); [|done]. by injection Hloop as <-.
  - simpl in Hloop. destruct (ready st) as [|pid rest] eqn:Hr.
    + by injection Hloop as <-.
    + destruct (run_head_serves e rem0 st pid rest Hok Hsorted Hall HI Hcov Hr) as [Hc' Hd'].
      eapply IH; [exact Hloop | by eapply Inv_run_head | exact Hc' | exact Hd'].
Qed.

Lemma init_is_jump e bursts :
  let st1 := push_arrivals_up_to e 0 (State (coerce_rem (processes e) bursts) 0 0 [] []) in
  init e bursts = jump_to_next e st1.
Proof.
  intros st1. unfold init. simpl. fold st1. rewrite jump_to_next_unfold.
  destruct (ready st1) eqn:Hr1; [|done].
  destruct (future e !! future_idx st1) as [[a p]|] eqn:Hf; [|done].
  assert (Hnow : now st1 = 0) by apply push_arrivals_up_to_now.
  assert (Ha : 0 < a).
  { unfold st1, push_arrivals_up_to in Hf.
    destruct (push_arrivals _ _ _ _ _) as [i r] eqn:Heq. simpl in *.
    eapply (push_arrivals_stop _ _ _ _ _ _ _ a p Heq). by rewrite Nat.sub_0_r. }
  rewrite Hnow. replace (Z.max 0 a) with a by lia.
  unfold at_time. by rewrite Hr1.
Qed.

Lemma init_serves e bursts :
  future_ok e → time_sorted e → all_positive e (coerce_rem (processes e) bursts) →
  covered e [] (init e bursts) ∧ drained e (init e bursts).
Proof.
  intros Hok Hsorted Hall. rewrite init_is_jump.
  set (st0 := State (coerce_rem (processes e) bursts) 0 0 [] []).
  pose proof (Inv_start e bursts) as H0. fold st0 in H0.
  assert (Hc0 : covered e [] st0) by (intros i a p Hi; simpl in Hi; lia).
  assert (HI1 : Inv e (coerce_rem (processes e) bursts) [] (push_arrivals_up_to e 0 st0)).
  { eapply Inv_enqueues; [apply (push_arrivals_up_to_enqueues e st0 Hok) | done]. }
  assert (Hc1 : covered e [] (push_arrivals_up_to e 0 st0)) by (by eapply covered_push).
  assert (Hu1 : unseen_later e (push_arrivals_up_to e 0 st0)).
  { intros i a p Hi Hlk. rewrite push_arrivals_up_to_now. simpl. by eapply push_unseen. }
  split; [by eapply covered_jump | by eapply jump_drained].
Qed.

(** When every listed process has a positive coerced burst, each one is
    served exactly that burst. *)
Lemma all_served_when_all_positive procs bursts quanta arrivals :
  (∀ p, p ∈ procs → 0 < py_round (getq 0 bursts p)) →
  ∃ tl, simulate_rr_with_quanta procs bursts quanta arrivals = Some tl
    ∧ ∀ p, p ∈ procs → dur_sum p tl = Z.max 0 (py_round (getq 0 bursts p)).
Proof.
  intros Hpos.
  pose proof (mk_env_future_ok procs quanta arrivals) as Hok.
  pose proof (mk_env_time_sorted procs quanta arrivals) as Hsorted.
  assert (Hall : all_positive (mk_env procs quanta arrivals) (coerce_rem procs bursts)).
  { intros p Hp. simpl in Hp. rewrite coerce_rem_get, decide_True by done.
    specialize (Hpos p Hp). lia. }
  destruct (simulate_final procs bursts quanta arrivals) as (st' & Hloop & Hsim & HI & Hr).
  destruct (init_serves (mk_env procs quanta arrivals) bursts Hok Hsorted Hall) as [Hc0 Hd0].
  destruct (loop_serves _ _ Hok Hsorted Hall _ _ _ Hloop
              (Inv_init (mk_env procs quanta arrivals) bursts Hok) Hc0 Hd0) as [Hc Hd].
  exists (timeline st'). split; [done|]. intros p Hp.
  assert (Hin : (get0 (coerce_arr procs arrivals) p, p) ∈ future (mk_env procs quanta arrivals)).
  { unfold mk_env, sorted_future. simpl. rewrite merge_sort_Permutation.
    apply list_elem_of_fmap. by exists p. }
  apply list_elem_of_lookup_1 in Hin as [i Hi].
  pose proof (lookup_lt_Some _ _ _ Hi) as Hlt. specialize (Hd Hr).
  destruct (Hc i _ p ltac:(lia) Hi) as [Hs | [Hq | Hq]].
  - by destruct (served_exactly _ _ _ _ _ _ Hsim Hs) as (_ & ? & _).
  - rewrite Hr in Hq. by apply elem_of_nil in Hq.
  - by apply elem_of_nil in Hq.
Qed.

End RRFacts.

(** ** Facts about the sliding window *)

Module PagingFacts.
Import Rand Paging.

Definition counts_positive (c : gmap Z Z) : Prop := ∀ page n, c !! page = Some n → 0 < n.

Definition within_capacity (w : deque) : Prop := (length (items w) ≤ maxlen w)%nat.

(** Number of occurrences of a page among the references of the window. *)
Definition occ (page : Z) (l : list Z) : Z :=
  Z.of_nat (length (filter (fun x => x = page) l)).

(** The counts are the multiplicities of the window's references. *)
Definition mirrors (w : deque) (c : gmap Z Z) : Prop := ∀ q, getc c q = occ q (items w).

Lemma occ_snoc page l x :
  occ page (l ++ [x]) = occ page l + (if decide (x = page) then 1 else 0).
Proof.
  unfold occ. rewrite filter_app, length_app, filter_cons, filter_nil.
  case_decide; simpl; lia.
Qed.

Lemma occ_cons page l x :
  occ page (x :: l) = (if decide (x = page) then 1 else 0) + occ page l.
Proof. unfold occ. rewrite filter_cons. case_decide; simpl; lia. Qed.

Lemma occ_zero_iff page l : occ page l = 0 ↔ page ∉ l.
Proof.
  induction l as [|x l IH].
  - split; [intros _; apply not_elem_of_nil | done].
  - rewrite occ_cons, not_elem_of_cons, <- IH.
    assert (0 ≤ occ page l) by (unfold occ; lia).
    case_decide; subst; split; try lia; intros [? ?]; try done.
Qed.

Lemma getc_insert (c : gmap Z Z) p q v :
  getc (<[p := v]> c) q = if decide (p = q) then v else getc c q.
Proof. unfold getc. rewrite lookup_insert. by case_decide. Qed.

Lemma getc_delete (c : gmap Z Z) p q :
  getc (delete p c) q = if decide (p = q) then 0 else getc c q.
Proof. unfold getc. rewrite lookup_delete. by case_decide. Qed.

Lemma getc_nonneg c page : counts_positive c → 0 ≤ getc c page.
Proof.
  intros Hc. unfold getc. destruct (c !! page) as [n|] eqn:Hn; simpl; [|lia].
  specialize (Hc _ _ Hn). lia.
Qed.

Lemma dq_append_maxlen x d : maxlen (dq_append x d) = maxlen d.
Proof. done. Qed.

Lemma dq_append_within x d : within_capacity (dq_append x d).
Proof. unfold within_capacity, dq_append. simpl. rewrite length_drop. lia. Qed.

Lemma dq_append_room x d :
  (length (items d) < maxlen d)%nat → items (dq_append x d) = items d ++ [x].
Proof.
  intros Hlt. unfold dq_append. simpl. rewrite length_app. simpl.
  replace (length (items d) + 1 - maxlen d)%nat with 0%nat by lia. done.
Qed.

Lemma evict_if_full_maxlen w c : maxlen (evict_if_full w c).1 = maxlen w.
Proof.
  unfold evict_if_full. destruct (_ && _); [|done]. by destruct (items w).
Qed.

Lemma evict_if_full_positive w c :
  counts_positive c → counts_positive (evict_if_full w c).2.
Proof.
  intros Hc. unfold evict_if_full. destruct (_ && _); [|done].
  destruct (items w) as [|oldest rest]; [done|]. simpl.
  intros page n. case_bool_decide as Hold.
  - rewrite lookup_delete. case_decide; [done | apply Hc].
  - rewrite lookup_insert. case_decide; [intros [= <-]; lia | apply Hc].
Qed.

(** After the eviction there is room for one more reference. *)
Lemma evict_if_full_room w c :
  (0 < maxlen w)%nat → within_capacity w →
  (length (items (evict_if_full w c).1) < maxlen w)%nat.
Proof.
  unfold within_capacity, evict_if_full. intros Hpos Hle.
  destruct (negb (maxlen w =? 0)%nat && (length (items w) =? maxlen w)%nat) eqn:Hfull.
  - apply andb_true_iff in Hfull as [_ Hfull]. apply Nat.eqb_eq in Hfull.
    destruct (items w) as [|oldest rest]; simpl in *; lia.
  - apply andb_false_iff in Hfull as [Hz | Hne].
    + apply negb_false_iff, Nat.eqb_eq in Hz. lia.
    + apply Nat.eqb_neq in Hne. simpl. lia.
Qed.

Lemma evict_if_full_mirrors w c :
  mirrors w c → mirrors (evict_if_full w c).1 (evict_if_full w c).2.
Proof.
  intros Hm. unfold evict_if_full. destruct (_ && _); [|done].
  unfold mirrors in *. destruct (items w) as [|oldest rest] eqn:Hit.
  { simpl. intros q. rewrite Hit. apply Hm. }
  simpl. intros q. pose proof (Hm oldest) as Ho. specialize (Hm q).
  rewrite occ_cons in Hm, Ho. rewrite decide_True in Ho by done.
  assert (Hq : 0 ≤ occ q rest) by (unfold occ; lia).
  assert (Hr : 0 ≤ occ oldest rest) by (unfold occ; lia).
  case_bool_decide; rewrite ?getc_delete, ?getc_insert;
    destruct (decide (oldest = q)) as [-> | Hne]; lia.
Qed.

Lemma observe_page_maxlen ws page :
  maxlen (window (observe_page ws page)) = maxlen (window ws).
Proof.
  unfold observe_page. pose proof (evict_if_full_maxlen (window ws) (counts ws)) as H.
  destruct (evict_if_full _ _) as [w c]. simpl in *. done.
Qed.

Lemma observe_page_within ws page : within_capacity (window (observe_page ws page)).
Proof.
  unfold observe_page. destruct (evict_if_full _ _) as [w c]. simpl.
  apply dq_append_within.
Qed.

Lemma observe_page_positive ws page :
  counts_positive (counts ws) → counts_positive (counts (observe_page ws page)).
Proof.
  intros Hc. unfold observe_page.
  pose proof (evict_if_full_positive (window ws) (counts ws) Hc) as Hc'.
  destruct (evict_if_full _ _) as [w c]. simpl in *.
  intros q n. rewrite lookup_insert. case_decide; [|apply Hc'].
  intros [= <-]. pose proof (getc_nonneg c page Hc'). lia.
Qed.

Lemma observe_page_mirrors ws page :
  (0 < maxlen (window ws))%nat → within_capacity (window ws) →
  mirrors (window ws) (counts ws) →
  mirrors (window (observe_page ws page)) (counts (observe_page ws page)).
Proof.
  intros Hpos Hle Hm. unfold observe_page.
  pose proof (evict_if_full_mirrors _ _ Hm) as Hm'.
  pose proof (evict_if_full_room (window ws) (counts ws) Hpos Hle) as Hroom.
  pose proof (evict_if_full_maxlen (window ws) (counts ws)) as Hmax.
  destruct (evict_if_full _ _) as [w c]. simpl in *.
  intros q. rewrite dq_append_room by lia.
  rewrite getc_insert, occ_snoc, <- (Hm' q), (Hm' page).
  case_decide; subst; [rewrite (Hm' q)|]; lia.
Qed.

(** The three properties along a whole run of references. *)
Lemma observe_pages_ok pages : ∀ ws,
  counts_positive (counts ws) → within_capacity (window ws) →
  counts_positive (counts (observe_pages ws pages))
  ∧ within_capacity (window (observe_pages ws pages))
  ∧ maxlen (window (observe_pages ws pages)) = maxlen (window ws).
Proof.
  induction pages as [|page pages IH]; simpl; intros ws Hc Hw; [done|].
  destruct (IH (observe_page ws page)) as (? & ? & Hmax).
  - by apply observe_page_positive.
  - apply observe_page_within.
  - rewrite observe_page_maxlen in Hmax. done.
Qed.

Lemma observe_pages_mirrors pages : ∀ ws,
  (0 < maxlen (window ws))%nat → within_capacity (window ws) →
  mirrors (window ws) (counts ws) →
  mirrors (window (observe_pages ws pages)) (counts (observe_pages ws pages)).
Proof.
  induction pages as [|page pages IH]; simpl; intros ws Hpos Hw Hm; [done|].
  apply IH.
  - by rewrite observe_page_maxlen.
  - apply observe_page_within.
  - by apply observe_page_mirrors.
Qed.

(** *** Every model state that the operations can produce *)

Inductive reachable (seeded : Z → nat → Q) : MemoryModel → Prop :=
  | reach_new fresh c : reachable seeded (new_model seeded fresh c)
  | reach_create mm p a b pc pat :
      reachable seeded mm → reachable seeded (create_process seeded mm p a b pc pat).2
  | reach_observe mm p rt obs mm' :
      reachable seeded mm → observe_run mm p rt = Some (obs, mm') → reachable seeded mm'
  | reach_update mm p obs mm' :
      reachable seeded mm → update_signal mm p obs = Some mm' → reachable seeded mm'
  | reach_recompute mm :
      reachable seeded mm → reachable seeded (recompute_normalization mm)
  | reach_create_legacy mm p a b pc pat :
      reachable seeded mm → reachable seeded (create_process_legacy mm p a b pc pat).2
  | reach_observe_legacy mm p rt obs mm' :
      reachable seeded mm → observe_run_legacy mm p rt = Some (obs, mm') →
      reachable seeded mm'.

Definition proc_ok (cap : nat) (proc : ProcessState) : Prop :=
  maxlen (sliding_window proc) = cap
  ∧ within_capacity (sliding_window proc)
  ∧ counts_positive (unique_counts proc)
  ∧ ((0 < cap)%nat → mirrors (sliding_window proc) (unique_counts proc)).

Definition model_ok (mm : MemoryModel) : Prop :=
  ∀ p proc, processes mm !! p = Some proc → proc_ok (window_access_count (cfg mm)) proc.

Lemma observe_pages_proc_ok cap proc pages g obs :
  proc_ok cap proc →
  proc_ok cap
    (MkProc (pid proc) (arrival proc) (burst proc) (remaining proc) (proc_pages_count proc) g
       (window (observe_pages (MkWin (sliding_window proc) (unique_counts proc) 0) pages))
       (ema proc) (mem_signal proc) obs
       (counts (observe_pages (MkWin (sliding_window proc) (unique_counts proc) 0) pages))).
Proof.
  intros (Hmax & Hw & Hc & Hm). unfold proc_ok. simpl.
  set (ws := MkWin (sliding_window proc) (unique_counts proc) 0).
  destruct (observe_pages_ok pages ws Hc Hw) as (Hc' & Hw' & Hmax').
  repeat split; [by rewrite Hmax' | done | done |].
  intros Hpos. apply observe_pages_mirrors; simpl; [lia | done | by apply Hm].
Qed.

Lemma create_process_cfg seeded mm p a b pc pat :
  cfg (create_process seeded mm p a b pc pat).2 = cfg mm.
Proof. unfold create_process. by destruct (randint _ _ _). Qed.

Lemma create_process_processes seeded mm p a b pc pat :
  processes (create_process seeded mm p a b pc pat).2
  = <[p := (create_process seeded mm p a b pc pat).1]> (processes mm).
Proof. unfold create_process. by destruct (randint _ _ _). Qed.

Lemma create_process_fresh seeded mm p a b pc pat :
  sliding_window (create_process seeded mm p a b pc pat).1
    = MkDeque [] (window_access_count (cfg mm))
  ∧ unique_counts (create_process seeded mm p a b pc pat).1 = ∅.
Proof. unfold create_process. by destruct (randint _ _ _). Qed.

Lemma reachable_ok seeded mm : reachable seeded mm → model_ok mm.
Proof.
  induction 1 as [fresh c | mm p a b pc pat Hr IH | mm p rt obs mm' Hr IH Hobs
                  | mm p obs mm' Hr IH Hupd | mm Hr IH
                  | mm p a b pc pat Hr IH | mm p rt obs mm' Hr IH Hobs]; intros q proc.
  - simpl. by rewrite lookup_empty.
  - rewrite create_process_cfg, create_process_processes, lookup_insert.
    case_decide; [|apply IH]. intros Heq.
    assert (Hproc : proc = (create_process seeded mm p a b pc pat).1) by congruence.
    destruct (create_process_fresh seeded mm p a b pc pat) as [Hw Hc].
    unfold proc_ok. rewrite Hproc, Hw, Hc. simpl.
    split; [done|]. split; [unfold within_capacity; simpl; lia|]. split.
    + intros page n Hn. by rewrite lookup_empty in Hn.
    + intros _ page. unfold getc, occ. by rewrite lookup_empty.
  - unfold observe_run in Hobs.
    destruct (processes mm !! p) as [proc0|] eqn:Hp; [|done].
    destruct (next_n _ _) as [pages g]. injection Hobs as <- <-. simpl.
    rewrite lookup_insert. case_decide; [|apply IH].
    intros [= <-]. apply observe_pages_proc_ok. by eapply IH.
  - unfold update_signal in Hupd.
    destruct (processes mm !! p) as [proc0|] eqn:Hp; [|done].
    injection Hupd as <-. simpl. rewrite lookup_insert. case_decide; [|apply IH].
    intros [= <-]. apply (IH _ _ Hp).
  - unfold recompute_normalization. destruct (negb _); [apply IH|]. simpl.
    rewrite lookup_fmap. destruct (processes mm !! q) as [proc0|] eqn:Hq; [|done].
    intros [= <-]. apply (IH _ _ Hq).
  - unfold create_process_legacy. simpl. rewrite lookup_insert.
    case_decide; [|apply IH]. intros [= <-].
    unfold proc_ok. simpl.
    split; [done|]. split; [unfold within_capacity; simpl; lia|]. split.
    + intros page n Hn. by rewrite lookup_empty in Hn.
    + intros _ page. unfold getc, occ. by rewrite lookup_empty.
  - unfold observe_run_legacy in Hobs.
    destruct (processes mm !! p) as [proc0|] eqn:Hp; [|done].
    destruct (next_n _ _) as [pages g]. injection Hobs as <- <-. simpl.
    rewrite lookup_insert. case_decide; [|apply IH].
    intros [= <-]. apply observe_pages_proc_ok. by eapply IH.
Qed.

(** [observe_run] returns for every known id. *)
Lemma observe_run_total mm p rt :
  is_Some (processes mm !! p) → is_Some (observe_run mm p rt).
Proof.
  intros [proc Hp]. unfold observe_run. rewrite Hp.
  destruct (next_n _ _) as [pages g]. eauto.
Qed.

Lemma next_n_length (n : nat) : ∀ g, length (next_n n g).1 = n.
Proof.
  induction n as [|n IH]; intros g; cbn [next_n]; [done|].
  destruct (next g) as [page g1]. specialize (IH g1).
  destruct (next_n n g1) as [pages g2]. simpl in *. by rewrite IH.
Qed.

(** Which references of a run are counted as faults. *)
Fixpoint fault_flags (ws : window_state) (pages : list Z) : list bool :=
  match pages with
  | [] => []
  | page :: rest =>
      bool_decide (faults (observe_page ws page) = faults ws + 1)
      :: fault_flags (observe_page ws page) rest
  end.

Lemma observe_page_fault ws page :
  faults (observe_page ws page)
  = if bool_decide (getc (counts ws) page = 0) then faults ws + 1 else faults ws.
Proof. unfold observe_page. by destruct (evict_if_full _ _). Qed.

(** *** The hotspot window of a generator *)


(** [int(r * n)] for a draw [r] of [[0, 1)] and a positive integer [n]. *)
Lemma py_int_unit_scale (x : Q) (n : Z) :
  (0 <= x)%Q → (x < 1)%Q → 0 < n → 0 ≤ py_int (x * inject_Z n) < n.
Proof.
  intros H0 H1 Hn.
  assert (Hn' : (inject_Z 0 < inject_Z n)%Q) by (rewrite <- Zlt_Qlt; lia).
  change (inject_Z 0) with 0%Q in Hn'.
  assert (Hy0 : (0 <= x * inject_Z n)%Q).
  { apply Qmult_le_0_compat; [done | by apply Qlt_le_weak]. }
  assert (Hy1 : (x * inject_Z n < inject_Z n)%Q).
  { rewrite <- (Qmult_1_l (inject_Z n)) at 2. by apply Qmult_lt_r. }
  unfold py_int. rewrite (proj2 (Qle_bool_iff _ _) Hy0).
  split.
  - rewrite <- (Qfloor_Z 0). by apply Qfloor_resp_le.
  - rewrite Zlt_Qlt. eapply Qle_lt_trans; [apply Qfloor_le | exact Hy1].
Qed.


(** The coerced page count, the window size and the largest start, as
    the constructor computes them. *)
Definition coerced_pages (pc : Z) : Z := Z.max 1 pc.
Definition window_size (pc : Z) (frac : Q) : Z :=
  Z.max 1 (py_int (py_float (py_float (inject_Z (coerced_pages pc)) * py_float frac))).
Definition last_start (pc : Z) (frac : Q) : Z :=
  Z.max 0 (coerced_pages pc - window_size pc frac).




Lemma new_generator_legacy_start pc r pat frac prob :
  hotspot_start (new_generator_legacy pc r pat frac prob)
  = if bool_decide (0 < last_start pc frac)
    then py_int (draws r (pos r) * inject_Z (Z.max 1 (last_start pc frac)))
    else 0.
Proof.
  unfold new_generator_legacy. fold (coerced_pages pc). fold (window_size pc frac).
  fold (last_start pc frac). by case_bool_decide.
Qed.

(** The older constructor never yields the last offset of a range with
    more than one element. *)
Lemma new_generator_legacy_misses_last pc r pat frac prob :
  unit_draws (draws r) → 0 < last_start pc frac →
  hotspot_start (new_generator_legacy pc r pat frac prob) < last_start pc frac.
Proof.
  intros Hu Hpos. rewrite new_generator_legacy_start, bool_decide_eq_true_2 by done.
  destruct (Hu (pos r)) as [H0 H1].
  pose proof (py_int_unit_scale _ (Z.max 1 (last_start pc frac)) H0 H1 ltac:(lia)). lia.
Qed.

Lemma fault_flags_lookup pages : ∀ ws (i : nat) page,
  pages !! i = Some page →
  fault_flags ws pages !! i
  = Some (bool_decide (getc (counts (observe_pages ws (take i pages))) page = 0)).
Proof.
  induction pages as [|x pages IH]; intros ws i page Hi; [done|].
  destruct i as [|i]; simpl in *.
  - injection Hi as ->. rewrite observe_page_fault. f_equal.
    destruct (bool_decide (getc (counts ws) page = 0)).
    + by rewrite bool_decide_eq_true_2.
    + rewrite bool_decide_eq_false_2; [done | lia].
  - by apply IH.
Qed.

Lemma faults_count pages : ∀ ws,
  faults (observe_pages ws pages)
  = faults ws + Z.of_nat (length (filter (fun b => b = true) (fault_flags ws pages))).
Proof.
  induction pages as [|x pages IH]; intros ws; simpl; [lia|].
  rewrite IH, filter_cons. rewrite observe_page_fault.
  destruct (bool_decide (getc (counts ws) x = 0)).
  - rewrite bool_decide_eq_true_2 by done. rewrite decide_True by done. simpl. lia.
  - rewrite bool_decide_eq_false_2 by lia. rewrite decide_False by done. lia.
Qed.

End PagingFacts.

(** * Properties named by the specification *)

Import RR Metrics RRFacts.

Definition P1 : string := "P1".
Definition P2 : string := "P2".
Definition P3 : string := "P3".

(** The configuration of the test scripts: P1(arrival 0, burst 8),
    P2(arrival 3, burst 5), P3(arrival 5, burst 2), quantum 2. *)
Definition ex_bursts : gmap string Q :=
  <[P1 := inject_Z 8]> (<[P2 := inject_Z 5]> (<[P3 := inject_Z 2]> ∅)).
Definition ex_arrivals : gmap string Q :=
  <[P1 := inject_Z 0]> (<[P2 := inject_Z 3]> (<[P3 := inject_Z 5]> ∅)).
Definition ex_quanta : gmap string Q :=
  <[P1 := inject_Z 2]> (<[P2 := inject_Z 2]> (<[P3 := inject_Z 2]> ∅)).
Definition ex_timeline : list slice :=
  [(P1, 0, 2); (P1, 2, 4); (P2, 4, 6); (P1, 6, 8); (P3, 8, 10);
   (P2, 10, 12); (P1, 12, 14); (P2, 14, 15)].

Lemma ex_timeline_computed :
  simulate_rr_with_quanta [P1; P2; P3] ex_bursts ex_quanta ex_arrivals = Some ex_timeline.
Proof. vm_compute. reflexivity. Qed.

(** A zero-burst process arriving first, then a process with work. *)
Definition zb_procs : list string := ["A"; "B"].
Definition zb_bursts : gmap string Q := <["A" := inject_Z 0]> (<["B" := inject_Z 1]> ∅).
Definition zb_arrivals : gmap string Q := <["A" := inject_Z 1]> (<["B" := inject_Z 2]> ∅).
Definition zb_quanta : gmap string Q := <["A" := inject_Z 1]> (<["B" := inject_Z 1]> ∅).

(** A burst of [2^53 + 1] ticks served in one slice; a burst of two and a
    half ticks; a timeline that was not made for the burst. *)
Definition big : Z := 2 ^ 53 + 1.
Definition big_bursts : gmap string Q := <["P" := inject_Z big]> ∅.
Definition big_arrivals : gmap string Q := <["P" := inject_Z 0]> ∅.
Definition half_bursts : gmap string Q := <["P" := 5 # 2]> ∅.
Definition four_quanta : gmap string Q := <["P" := inject_Z 4]> ∅.
Definition five_bursts : gmap string Q := <["P" := inject_Z 5]> ∅.

Lemma big_timeline :
  simulate_rr_with_quanta ["P"] big_bursts big_bursts big_arrivals = Some [("P", 0, big)].
Proof.
  apply simulate_in_one_step.
  - vm_compute. reflexivity.
  - assert (H : total_burst ["P"]
                  (rem (init (mk_env ["P"] big_bursts big_arrivals) big_bursts)) = big)
      by (vm_compute; reflexivity).
    rewrite H. unfold big. lia.
Qed.

(** C3, as stated, fails.  The code computes turnaround and waiting in
    binary64: for a burst of [2^53 + 1] ticks, arrival 0, served in one
    slice, it stores waiting 0 and turnaround [2^53].  It also fails for a
    burst that is not an integer (the simulator serves the rounded burst)
    and for a timeline that does not come from the simulator (the floor at 0
    is active). *)
Lemma waiting_plus_burst_fails_beyond_binary64 :
  (∃ tl w t,
     simulate_rr_with_quanta ["P"] big_bursts big_bursts big_arrivals = Some tl
     ∧ has_slice "P" tl
     ∧ waiting (compute_metrics ["P"] big_bursts tl big_arrivals) !! "P" = Some w
     ∧ turnaround (compute_metrics ["P"] big_bursts tl big_arrivals) !! "P" = Some t
     ∧ w = 0 ∧ t = 2 ^ 53 ∧ w + big ≠ t)
  ∧ (∃ tl w t,
       simulate_rr_with_quanta ["P"] half_bursts four_quanta big_arrivals = Some tl
       ∧ has_slice "P" tl
       ∧ waiting (compute_metrics ["P"] half_bursts tl big_arrivals) !! "P" = Some w
       ∧ turnaround (compute_metrics ["P"] half_bursts tl big_arrivals) !! "P" = Some t
       ∧ ¬ (inject_Z w + getq 0 half_bursts "P" == inject_Z t)%Q)
  ∧ (∃ w t,
       has_slice "P" [("P", 0, 1)]
       ∧ waiting (compute_metrics ["P"] five_bursts [("P", 0, 1)] big_arrivals) !! "P" = Some w
       ∧ turnaround (compute_metrics ["P"] five_bursts [("P", 0, 1)] big_arrivals) !! "P"
         = Some t
       ∧ w + 5 ≠ t).
Proof.
  split; [|split].
  - exists [("P", 0, big)], 0, (2 ^ 53). split; [exact big_timeline|].
    split; [exists ("P", 0, big); split; [by left | done]|].
    split; [vm_compute; reflexivity|]. split; [vm_compute; reflexivity|].
    unfold big. lia.
  - exists [("P", 0, 2)], 0, 2. split; [vm_compute; reflexivity|].
    split; [exists ("P", 0, 2); split; [by left | done]|].
    split; [vm_compute; reflexivity|]. split; [vm_compute; reflexivity|].
    vm_compute. discriminate.
  - exists 0, 1. split; [exists ("P", 0, 1); split; [by left | done]|].
    split; [vm_compute; reflexivity|]. split; [vm_compute; reflexivity | lia].
Qed.

(** C3, amended: for a timeline produced by the simulator and a process
    with at least one slice whose burst is an integer, when its completion
    minus its arrival is at most [2^53] (so that the binary64 numbers of
    [compute_metrics] are exact), [compute_metrics] stores turnaround =
    completion - arrival and waiting = turnaround - burst (the floors at 0
    are inactive), so waiting + burst = turnaround. *)
Theorem waiting_plus_burst_is_turnaround procs bursts quanta arrivals tl p (z : Z) :
  simulate_rr_with_quanta procs bursts quanta arrivals = Some tl →
  has_slice p tl →
  (getq 0 bursts p == inject_Z z)%Q →
  (∀ c, completion tl !! p = Some c → c - py_round (getq 0 arrivals p) ≤ 2 ^ 53) →
  ∃ w t c,
    waiting (compute_metrics procs bursts tl arrivals) !! p = Some w
    ∧ turnaround (compute_metrics procs bursts tl arrivals) !! p = Some t
    ∧ completion tl !! p = Some c
    ∧ t = c - py_round (getq 0 arrivals p)
    ∧ w = t - z
    ∧ w + z = t.
Proof.
  intros Hsim Hp Hz Hbound.
  destruct (served_exactly _ _ _ _ _ _ Hsim Hp) as (Hin & Hsum & c & Hc & Hle).
  assert (Hpos : 0 < dur_sum p tl).
  { destruct (simulate_final procs bursts quanta arrivals) as (st' & _ & Hsim' & HI & Hr).
    rewrite Hsim in Hsim'. injection Hsim' as ->.
    apply dur_sum_pos; [|done].
    eapply Forall_impl; [apply (inv_slices _ _ _ _ HI)|]. simpl. by intros s [? ?]. }
  rewrite (py_round_Qeq _ _ Hz), py_round_inject_Z in Hsum, Hle.
  assert (Htl : tl ≠ []).
  { destruct Hp as (s & Hs & _). intros ->. by apply elem_of_nil in Hs. }
  destruct (compute_metrics_lookup procs bursts tl arrivals p Hin Htl) as [Hw Ht].
  specialize (Hbound c Hc).
  set (a := py_round (getq 0 arrivals p)) in *.
  exists (c - a - z), (c - a), c.
  rewrite Hw, Ht. unfold waiting_of, turnaround_of. rewrite Hc. fold a.
  assert (Htat : (py_float (inject_Z (c - a)) == inject_Z (c - a))%Q)
    by (apply py_float_inject_Z; lia).
  assert (Hbt : (py_float (getq 0 bursts p) == inject_Z z)%Q).
  { rewrite (py_float_Qeq _ _ Hz). apply py_float_inject_Z. lia. }
  assert (Hq : (py_float (inject_Z (c - a)) - py_float (getq 0 bursts p)
                == inject_Z (c - a - z))%Q).
  { rewrite Htat, Hbt. unfold Zminus. rewrite !inject_Z_plus, !inject_Z_opp. ring. }
  assert (Hwt : (py_float (py_float (inject_Z (c - a)) - py_float (getq 0 bursts p))
                 == inject_Z (c - a - z))%Q).
  { rewrite (py_float_Qeq _ _ Hq). apply py_float_inject_Z. lia. }
  rewrite (py_round_Qeq _ _ Hwt), (py_round_Qeq _ _ Htat), !py_round_inject_Z.
  repeat split; try done; f_equal; lia.
Qed.

Lemma waiting_plus_burst_witness :
  ∃ w t c,
    waiting (compute_metrics [P1; P2; P3] ex_bursts ex_timeline ex_arrivals) !! P2 = Some w
    ∧ turnaround (compute_metrics [P1; P2; P3] ex_bursts ex_timeline ex_arrivals) !! P2 = Some t
    ∧ completion ex_timeline !! P2 = Some c
    ∧ t = c - py_round (getq 0 ex_arrivals P2)
    ∧ w = t - 5
    ∧ w + 5 = t.
Proof.
  apply (waiting_plus_burst_is_turnaround [P1; P2; P3] ex_bursts ex_quanta ex_arrivals
           ex_timeline P2 5).
  - vm_compute. reflexivity.
  - exists (P2, 4, 6). split; [|reflexivity]. do 2 right. left.
  - reflexivity.
  - intros c Hc. vm_compute in Hc. injection Hc as <-. vm_compute. discriminate.
Defined.

(** C4: every timeline the simulator returns is well formed: each slice
    ends strictly after it starts, and start ticks never decrease in order
    of emission. *)
Theorem timeline_well_formed procs bursts quanta arrivals :
  ∃ tl, simulate_rr_with_quanta procs bursts quanta arrivals = Some tl
    ∧ Forall (fun s => slice_start s < slice_end s) tl
    ∧ StronglySorted Z.le (slice_start <$> tl).
Proof.
  destruct (simulate_final procs bursts quanta arrivals) as (st' & _ & Hsim & HI & _).
  exists (timeline st'). split; [done|]. split.
  - eapply Forall_impl; [apply (inv_slices _ _ _ _ HI)|]. simpl. by intros s [? ?].
  - apply (inv_sorted _ _ _ _ HI).
Qed.

(** C9: the simulator terminates on every input: its main loop leaves by
    its own test ([ready] empty) after at most [(n + 2) * B + 2 * n]
    iterations, [n] the number of ids and [B] the total coerced burst. *)
Theorem simulator_terminates procs bursts quanta arrivals :
  ∃ (k : nat) (st' : state),
    (k ≤ (length procs + 2) * Z.to_nat (total_burst procs (coerce_rem procs bursts))
         + 2 * length procs)%nat
    ∧ loop (mk_env procs quanta arrivals) k (init (mk_env procs quanta arrivals) bursts)
        = Some st'
    ∧ ready st' = []
    ∧ simulate_rr_with_quanta procs bursts quanta arrivals = Some (timeline st').
Proof.
  destruct (simulate_final procs bursts quanta arrivals) as (st' & Hloop & Hsim & _ & Hr).
  eexists _, st'. split; [|split; [exact Hloop | done]].
  pose proof (init_budget (mk_env procs quanta arrivals) bursts) as Hb.
  rewrite mk_env_future_length in Hb. simpl in Hb.
  replace (length procs + 2)%nat with (S (S (length procs))) by lia. exact Hb.
Qed.

(** C1: the sum of a process's slice durations equals its coerced burst
    whenever every listed process has a positive coerced burst, but not for
    every configuration.  With A (arrival 1, burst 0) and B (arrival 2,
    burst 1) the simulator jumps to tick 1, finds nothing to enqueue, and
    returns the empty timeline: B, whose coerced burst is 1, is served 0
    ticks. *)
Theorem zero_burst_arrival_starves_later_process :
  (∀ procs bursts quanta arrivals,
     (∀ p, p ∈ procs → 0 < py_round (getq 0 bursts p)) →
     ∃ tl, simulate_rr_with_quanta procs bursts quanta arrivals = Some tl
       ∧ ∀ p, p ∈ procs → dur_sum p tl = Z.max 0 (py_round (getq 0 bursts p)))
  ∧ simulate_rr_with_quanta zb_procs zb_bursts zb_quanta zb_arrivals = Some []
  ∧ "B" ∈ zb_procs
  ∧ Z.max 0 (py_round (getq 0 zb_bursts "B")) = 1
  ∧ dur_sum "B" [] = 0.
Proof.
  split; [exact all_served_when_all_positive|].
  split; [vm_compute; reflexivity|]. split; [right; left|].
  split; vm_compute; reflexivity.
Qed.

(** C10: a process whose burst coerces to 0 or less never gets a slice,
    but removing it can change the slices of the others.  With A (arrival
    1, burst 0) in the list, B gets no slice; with A removed from the same
    configuration, B runs in [2, 3). *)
Theorem zero_burst_removal_changes_timeline :
  (∀ procs bursts quanta arrivals tl p,
     simulate_rr_with_quanta procs bursts quanta arrivals = Some tl →
     py_round (getq 0 bursts p) ≤ 0 → ¬ has_slice p tl)
  ∧ simulate_rr_with_quanta ["A"; "B"] zb_bursts zb_quanta zb_arrivals = Some []
  ∧ simulate_rr_with_quanta ["B"] (delete "A" zb_bursts) (delete "A" zb_quanta)
      (delete "A" zb_arrivals) = Some [("B", 2, 3)].
Proof.
  split; [exact zero_burst_never_runs|].
  split; vm_compute; reflexivity.
Qed.

Import Scenario.

(** The configuration of [test_scheduler.py]. *)
Definition example_config : SystemConfig :=
  MkSystem 64 4 2 (Some 2) (Some 1)
    [MkInput P1 0 8 (Some 0) (Some 100);
     MkInput P2 3 5 (Some 0) (Some 100);
     MkInput P3 5 2 (Some 0) (Some 100)].

(** C2, as stated, fails: the baseline timeline of the example does not
    begin P1[0,2), P1[2,4), P2[4,6), P1[6,8), P3[8,9). *)
Lemma baseline_example_fifth_slice_not_clamped :
  ¬ ∃ rest, baseline_timeline example_config
            = Some ([(P1, 0, 2); (P1, 2, 4); (P2, 4, 6); (P1, 6, 8); (P3, 8, 9)] ++ rest).
Proof.
  intros [rest H].
  assert (Hc : baseline_timeline example_config = Some ex_timeline)
    by (vm_compute; reflexivity).
  rewrite Hc in H. discriminate H.
Qed.

(** C2, amended: on the example the baseline timeline is P1[0,2), P1[2,4),
    P2[4,6), P1[6,8), P3[8,10) (a full quantum, which exhausts P3's burst of
    2), P2[10,12), P1[12,14), P2[14,15); every burst is exhausted and the
    reported total time is 15. *)
Theorem baseline_example_timeline :
  baseline_timeline example_config
    = Some [(P1, 0, 2); (P1, 2, 4); (P2, 4, 6); (P1, 6, 8); (P3, 8, 10);
            (P2, 10, 12); (P1, 12, 14); (P2, 14, 15)]
  ∧ dur_sum P1 ex_timeline = 8 ∧ dur_sum P2 ex_timeline = 5 ∧ dur_sum P3 ex_timeline = 2
  ∧ result_total_time <$> simulate_baseline example_config = Some 15.
Proof. repeat split; vm_compute; reflexivity. Qed.

Import Rand Paging PagingFacts.

(** A model with a window of 3 references and one process whose generator
    draws the pages 1, 1, 2, 3, 4 (pattern [random] over 5 pages). *)
Definition window3_config : MemoryModelConfig :=
  MkConfig 4 8 320 1 3 (85 # 100) 2 1 "locality" (2 # 10) (8 # 10) (Some 42) (1 # 1000000000).

Definition window3_draws (_ : Z) (i : nat) : Q :=
  match i with
  | 0%nat => 0
  | 1%nat => 1 # 5
  | 2%nat => 1 # 5
  | 3%nat => 2 # 5
  | 4%nat => 3 # 5
  | _ => 4 # 5
  end.

Definition window3_model : MemoryModel :=
  (create_process window3_draws (new_model window3_draws (fun _ => 0%Q) window3_config)
     "P" 0 5 5 (Some "random")).2.

Lemma window3_model_reachable : reachable window3_draws window3_model.
Proof. apply reach_create, reach_new. Qed.

Definition window3_proc : ProcessState :=
  (create_process window3_draws (new_model window3_draws (fun _ => 0%Q) window3_config)
     "P" 0 5 5 (Some "random")).1.

(** The observation and the model after one run of 5 ticks on the example. *)
Definition window3_run : SliceObservation * MemoryModel :=
  default (MkObs 0 0 0 0, window3_model) (observe_run window3_model "P" 5).

(** The same, with a window of capacity 0 and one process over a single
    page (pattern [sequential]): every reference is to page 0. *)
Definition window0_config : MemoryModelConfig :=
  MkConfig 4 8 320 1 0 (85 # 100) 2 1 "locality" (2 # 10) (8 # 10) (Some 42) (1 # 1000000000).

Definition window0_start : ProcessState * MemoryModel :=
  create_process window3_draws (new_model window3_draws (fun _ => 0%Q) window0_config)
    "P" 0 2 1 (Some "sequential").

Definition window0_run : SliceObservation * MemoryModel :=
  default (MkObs 0 0 0 0, window0_start.2) (observe_run window0_start.2 "P" 2).

(** The references that a run of [n] accesses simulates: drawn from the
    generator of the process, which in the older copy reads the model's
    shared source. *)
Definition run_pages (legacy : bool) (mm : MemoryModel) (proc : ProcessState) (n : Z) : list Z :=
  (next_n (Z.to_nat n)
     (if legacy then with_rng (generator proc) (global_rng mm) else generator proc)).1.

(** What [observe_run] (either copy) reports as faults: the counter of the
    loop over the simulated references, started at 0. *)
Lemma observe_run_faults (legacy : bool) mm p rt obs mm' :
  (if legacy then observe_run_legacy mm p rt else observe_run mm p rt) = Some (obs, mm') →
  ∃ proc,
    Paging.processes mm !! p = Some proc
    ∧ length (run_pages legacy mm proc (accesses obs)) = Z.to_nat (accesses obs)
    ∧ page_faults obs
      = faults (observe_pages (MkWin (sliding_window proc) (unique_counts proc) 0)
                  (run_pages legacy mm proc (accesses obs))).
Proof.
  intros Hobs.
  assert (Hcase : ∃ proc g0,
             Paging.processes mm !! p = Some proc
             ∧ g0 = (if legacy then with_rng (generator proc) (global_rng mm)
                     else generator proc)
             ∧ accesses obs
               = Z.max 1 (py_int (inject_Z (accesses_per_time_unit (cfg mm)) * rt))
             ∧ page_faults obs
               = faults (observe_pages (MkWin (sliding_window proc) (unique_counts proc) 0)
                           (next_n (Z.to_nat (accesses obs)) g0).1)).
  { destruct legacy; [unfold observe_run_legacy in Hobs | unfold observe_run in Hobs];
      (destruct (Paging.processes mm !! p) as [proc|] eqn:Hp; [|done]); cbv zeta in Hobs;
      match type of Hobs with
      | context [next_n ?n ?g0] =>
          exists proc, g0; destruct (next_n n g0) as [pages g] eqn:Hn
      end;
      injection Hobs as <- <-; cbn [accesses page_faults]; rewrite Hn; done. }
  destruct Hcase as (proc & g0 & Hp & -> & Hacc & Hpf).
  exists proc. split; [done|]. unfold run_pages. split; [apply next_n_length | done].
Qed.

(** C5, as stated, fails: with a window of capacity 0 (which keeps no
    reference, while the counts grow) a run of two references to page 0
    reports one fault, although page 0 is in the window before neither
    reference. *)
Lemma fault_rule_fails_without_window :
  reachable window3_draws window0_start.2
  ∧ Paging.processes window0_start.2 !! "P" = Some window0_start.1
  ∧ window_access_count (cfg window0_start.2) = 0%nat
  ∧ observe_run window0_start.2 "P" 2 = Some window0_run
  ∧ run_pages false window0_start.2 window0_start.1 (accesses window0_run.1) = [0; 0]
  ∧ (let ws0 := MkWin (sliding_window window0_start.1) (unique_counts window0_start.1) 0 in
     items (window ws0) = []
     ∧ items (window (observe_pages ws0 (take 1 [0; 0]))) = []
     ∧ fault_flags ws0 [0; 0] = [true; false])
  ∧ page_faults window0_run.1 = 1.
Proof.
  split; [apply reach_create, reach_new|]. cbv zeta.
  repeat match goal with |- _ ∧ _ => split end; vm_compute; reflexivity.
Qed.

(** C5, amended: in [observe_run] (either copy) the reported number of
    page faults is the number of simulated references that are counted as
    faults, and a reference is counted as a fault exactly when the count of
    its page is zero or absent before the access; on any model state the
    operations can produce, when the window capacity is at least 1, this is
    exactly when the page is not in the window before the access.  With
    capacity 3 and the references 1, 1, 2, 3, 4 the observer reports 4
    faults (all but the second reference to page 1) and a working set of 3. *)
Theorem observe_run_fault_rule :
  (∀ (legacy : bool) mm p rt obs mm',
     (if legacy then observe_run_legacy mm p rt else observe_run mm p rt) = Some (obs, mm') →
     ∃ proc,
       Paging.processes mm !! p = Some proc
       ∧ let pages := run_pages legacy mm proc (accesses obs) in
         let ws0 := MkWin (sliding_window proc) (unique_counts proc) 0 in
         length pages = Z.to_nat (accesses obs)
         ∧ page_faults obs
           = Z.of_nat (length (filter (fun b => b = true) (fault_flags ws0 pages)))
         ∧ ∀ (i : nat) page, pages !! i = Some page →
             let before := observe_pages ws0 (take i pages) in
             fault_flags ws0 pages !! i
             = Some (bool_decide (getc (counts before) page = 0))
             ∧ ((∃ seeded, reachable seeded mm) →
                (0 < window_access_count (cfg mm))%nat →
                (getc (counts before) page = 0 ↔ page ∉ items (window before))))
  ∧ (reachable window3_draws window3_model
     ∧ window_access_count (cfg window3_model) = 3%nat
     ∧ Paging.processes window3_model !! "P" = Some window3_proc
     ∧ maxlen (sliding_window window3_proc) = 3%nat
     ∧ observe_run window3_model "P" 5 = Some window3_run
     ∧ run_pages false window3_model window3_proc (accesses window3_run.1) = [1; 1; 2; 3; 4]
     ∧ accesses window3_run.1 = 5
     ∧ page_faults window3_run.1 = 4
     ∧ working_set_size window3_run.1 = 3
     ∧ fault_flags (MkWin (sliding_window window3_proc) (unique_counts window3_proc) 0)
         [1; 1; 2; 3; 4]
       = [true; false; true; true; true]).
Proof.
  split.
  - intros legacy mm p rt obs mm' Hobs.
    destruct (observe_run_faults legacy mm p rt obs mm' Hobs) as (proc & Hp & Hlen & Hpf).
    exists proc. split; [done|]. cbv zeta.
    split; [done|]. split.
    + rewrite Hpf, faults_count. simpl. lia.
    + intros i page Hi. split; [by apply fault_flags_lookup|].
      intros [seeded Hreach] Hpos.
      destruct (reachable_ok _ _ Hreach _ _ Hp) as (Hmax & Hw & Hc & Hm).
      assert (Hmir : mirrors
                (window (observe_pages (MkWin (sliding_window proc) (unique_counts proc) 0)
                           (take i (run_pages legacy mm proc (accesses obs)))))
                (counts (observe_pages (MkWin (sliding_window proc) (unique_counts proc) 0)
                           (take i (run_pages legacy mm proc (accesses obs)))))).
      { apply observe_pages_mirrors; simpl; [lia | done | by apply Hm]. }
      rewrite (Hmir page). apply occ_zero_iff.
  - split; [exact window3_model_reachable|].
    repeat match goal with |- _ ∧ _ => split end; vm_compute; reflexivity.
Qed.

Lemma observe_run_fault_rule_witness :
  ∃ proc,
    Paging.processes window3_model !! "P" = Some proc
    ∧ let pages := run_pages false window3_model proc (accesses window3_run.1) in
      let ws0 := MkWin (sliding_window proc) (unique_counts proc) 0 in
      length pages = Z.to_nat (accesses window3_run.1)
      ∧ page_faults window3_run.1
        = Z.of_nat (length (filter (fun b => b = true) (fault_flags ws0 pages)))
      ∧ ∀ (i : nat) page, pages !! i = Some page →
          let before := observe_pages ws0 (take i pages) in
          fault_flags ws0 pages !! i
          = Some (bool_decide (getc (counts before) page = 0))
          ∧ ((∃ seeded, reachable seeded window3_model) →
             (0 < window_access_count (cfg window3_model))%nat →
             (getc (counts before) page = 0 ↔ page ∉ items (window before))).
Proof.
  apply (proj1 observe_run_fault_rule false window3_model "P" 5%Q
           window3_run.1 window3_run.2).
  vm_compute. reflexivity.
Defined.

(** C6: after every [observe_run] call (of either copy of the scheduler),
    on any model state the operations can produce, for every process and
    run length, each sliding window holds at most [window_access_count]
    references and no page is mapped to a zero count. *)
Theorem window_bounded_and_counts_nonzero seeded mm p rt obs mm' :
  reachable seeded mm →
  observe_run mm p rt = Some (obs, mm') ∨ observe_run_legacy mm p rt = Some (obs, mm') →
  ∀ q proc, Paging.processes mm' !! q = Some proc →
    (length (items (sliding_window proc)) ≤ window_access_count (cfg mm'))%nat
    ∧ ∀ page n, unique_counts proc !! page = Some n → n ≠ 0.
Proof.
  intros Hreach Hobs q proc Hq.
  assert (Hreach' : reachable seeded mm').
  { destruct Hobs as [Hobs | Hobs];
      [by eapply reach_observe | by eapply reach_observe_legacy]. }
  destruct (reachable_ok _ _ Hreach' _ _ Hq) as (Hmax & Hw & Hc & _).
  split.
  - unfold within_capacity in Hw. lia.
  - intros page n Hn. specialize (Hc _ _ Hn). lia.
Qed.

Lemma window_bounded_and_counts_nonzero_witness :
  observe_run window3_model "P" 5 = Some (window3_run.1, window3_run.2)
  ∧ ∀ q proc, Paging.processes window3_run.2 !! q = Some proc →
      (length (items (sliding_window proc)) ≤ window_access_count (cfg window3_run.2))%nat
      ∧ ∀ page n, unique_counts proc !! page = Some n → n ≠ 0.
Proof.
  assert (Hrun : observe_run window3_model "P" 5 = Some (window3_run.1, window3_run.2))
    by (vm_compute; reflexivity).
  split; [exact Hrun|].
  exact (window_bounded_and_counts_nonzero window3_draws window3_model "P" 5
           window3_run.1 window3_run.2 window3_model_reachable (or_introl Hrun)).
Defined.

(** Two runs without a seed: the environment supplies the draws. *)
Definition zero_draws (_ : nat) : Q := 0.
Definition late_draws (i : nat) : Q := if Nat.eqb i 0 then 0 else 9 # 10.
Definition zero_seeded (_ : Z) (_ : nat) : Q := 0.
Definition toy_seeded (s : Z) (i : nat) : Q := ((s * 7 + Z.of_nat i * 13 + 3) `mod` 100) # 100.

(** The body of a request for the example that also carries a seed. *)
Definition example_fields : gmap string Z :=
  <["total_frames" := 64]> (<["page_size" := 4]> (<["cpu_quantum" := 2]>
    (<["memory_threshold" := 2]> (<["cpu_idle_gap" := 1]> ∅)))).

Definition seeded_request (s : Z) : Payload :=
  MkPayload (<["rng_seed" := s]> example_fields) (Scenario.processes example_config).

Lemma model_validate_drops_seed (d : Payload) (s : Z) :
  model_validate (MkPayload (<["rng_seed" := s]> (fields d)) (payload_processes d))
  = model_validate d.
Proof. unfold model_validate. cbn [fields payload_processes]. by rewrite !lookup_insert_ne. Qed.

(** C7: the code departs from the claim.  A seed in the request never
    reaches the memory model: validation into [SystemConfig] drops the key,
    so the driver reads [None] and draws from unseeded sources.  On the
    request for the example with [rng_seed = 1], two runs whose environments
    supply different draws return different results (the quantum inferred
    for P1 is 4 in one and 2 in the other).  The rest of the driver does what
    the claim
    says: from the point where a seed [Some s] has reached
    [MemoryModelConfig], the result does not depend on the environment's
    draws. *)
Theorem memory_aware_request_seed_is_dropped :
  (∀ d s, model_validate (MkPayload (<["rng_seed" := s]> (fields d)) (payload_processes d))
          = model_validate d)
  ∧ model_validate (seeded_request 1) = Some example_config
  ∧ (∀ seeded f g c,
       simulate_memory_aware seeded f g c = memory_aware_run seeded f g None c)
  ∧ simulate_memory_aware zero_seeded zero_draws zero_draws example_config
    ≠ simulate_memory_aware zero_seeded zero_draws late_draws example_config
  ∧ (simulate_memory_aware zero_seeded zero_draws zero_draws example_config
       ≫= fun r => inferred_quanta r !! P1) = Some 4
  ∧ (simulate_memory_aware zero_seeded zero_draws late_draws example_config
       ≫= fun r => inferred_quanta r !! P1) = Some 2
  ∧ (∀ seeded c s f1 g1 f2 g2,
       memory_aware_run seeded f1 g1 (Some s) c = memory_aware_run seeded f2 g2 (Some s) c).
Proof.
  assert (H4 : (simulate_memory_aware zero_seeded zero_draws zero_draws example_config
                  ≫= fun r => inferred_quanta r !! P1) = Some 4)
    by (vm_compute; reflexivity).
  assert (H2 : (simulate_memory_aware zero_seeded zero_draws late_draws example_config
                  ≫= fun r => inferred_quanta r !! P1) = Some 2)
    by (vm_compute; reflexivity).
  split; [exact model_validate_drops_seed|].
  split; [vm_compute; reflexivity|].
  split; [reflexivity|].
  split; [intros H; rewrite H, H2 in H4; discriminate H4|].
  split; [exact H4|]. split; [exact H2|].
  intros seeded c s f1 g1 f2 g2. reflexivity.
Qed.

(** The hotspot size on four inputs, as Python evaluates them:
    [int(8 * 0.2) = 1], [int(10 * 0.3) = 3] (the exact product of the two
    binary64 numbers is below 3, its rounding is 3.0), [int(100 * 0.29) = 28]
    (the product of the decimals is 29) and
    [int(36028797018963977 * 0.2) = 7205759403792796] (the page count itself
    is rounded to binary64 first). *)
Example hotspot_size_examples :
  hotspot_size (new_generator 8 (MkRng zero_draws 0) "locality" (2 # 10) (8 # 10)) = 1
  ∧ hotspot_size (new_generator 10 (MkRng zero_draws 0) "locality" (3 # 10) (8 # 10)) = 3
  ∧ hotspot_size (new_generator 100 (MkRng zero_draws 0) "locality" (29 # 100) (8 # 10)) = 28
  ∧ hotspot_size (new_generator 36028797018963977 (MkRng zero_draws 0) "locality"
                    (2 # 10) (8 # 10)) = 7205759403792796
  ∧ hotspot_size (new_generator_legacy 10 (MkRng zero_draws 0) "locality" (3 # 10) (8 # 10)) = 3
  ∧ hotspot_size (new_generator_legacy 100 (MkRng zero_draws 0) "locality" (29 # 100)
                    (8 # 10)) = 28.
Proof. repeat split; vm_compute; reflexivity. Qed.




(** * Further properties of the code *)

(** ** The timeline simulator: what every emitted slice satisfies *)

Module RRMore.
Import RR Metrics RRFacts.

(** A property of the timeline that holds of the empty timeline and
    survives every appended slice holds of the returned timeline. *)
Section TimelineInvariant.
Variables (e : env) (rem0 : gmap string Z) (T : list slice → Prop).
Hypothesis Hok : future_ok e.
Hypothesis T_slice : ∀ st pid,
  Inv e rem0 [pid] st → pid ∈ processes e → get0 (arr e) pid ≤ now st →
  0 < get0 (rem st) pid → T (timeline st) → T (timeline (sliced e pid st)).

Lemma enqueues_timeline st st' : enqueues e st st' → timeline st' = timeline st.
Proof. by intros (_ & ? & _). Qed.

Lemma run_head_keeps st pid rest :
  Inv e rem0 [] st → ready st = pid :: rest → T (timeline st) →
  T (timeline (run_head e pid (popped st rest))).
Proof.
  intros HI Hr HT. destruct (Inv_pop _ _ _ _ _ HI Hr) as (HP & Hin & Harr).
  destruct (decide (get0 (rem (popped st rest)) pid ≤ 0)) as [Hle | Hgt].
  - unfold run_head. rewrite bool_decide_eq_true_2 by done.
    rewrite (enqueues_timeline _ _ (jump_to_next_enqueues e _ Hok)).
    by rewrite (enqueues_timeline _ _ (push_arrivals_up_to_enqueues e _ Hok)).
  - rewrite run_head_sliced by done.
    assert (HS : T (timeline (sliced e pid (popped st rest)))).
    { apply T_slice; [done | done | done | simpl in *; lia | done]. }
    pose proof (enqueues_timeline _ _
                  (push_arrivals_up_to_enqueues e (sliced e pid (popped st rest)) Hok)) as H2.
    set (st2 := push_arrivals_up_to e _ _) in *. simpl.
    set (st3 := if bool_decide (0 < get0 (rem st2) pid) then _ else _).
    assert (H3 : timeline st3 = timeline st2) by (unfold st3; by case_bool_decide).
    destruct (ready st3) eqn:Hr3.
    + rewrite (enqueues_timeline _ _ (jump_to_next_enqueues e _ Hok)).
      rewrite (enqueues_timeline _ _ (rescan_enqueues e st3)). by rewrite H3, H2.
    + by rewrite H3, H2.
Qed.

Lemma loop_keeps : ∀ fuel st st',
  loop e fuel st = Some st' → Inv e rem0 [] st → T (timeline st) → T (timeline st').
Proof.
  induction fuel as [|fuel IH]; intros st st' Hloop HI HT; simpl in Hloop.
  - destruct (ready st); [|done]. by injection Hloop as <-.
  - destruct (ready st) as [|pid rest] eqn:Hr; [by injection Hloop as <-|].
    eapply IH; [exact Hloop | by eapply Inv_run_head | by eapply run_head_keeps].
Qed.
End TimelineInvariant.

Lemma init_timeline e bursts : future_ok e → timeline (init e bursts) = [].
Proof.
  intros Hok. rewrite init_is_jump.
  rewrite (enqueues_timeline e _ _ (jump_to_next_enqueues e _ Hok)).
  exact (enqueues_timeline e _ _
           (push_arrivals_up_to_enqueues e (State (coerce_rem (processes e) bursts) 0 0 [] []) Hok)).
Qed.

(** The returned timeline satisfies every such property. *)
Lemma simulate_keeps procs bursts quanta arrivals (T : list slice → Prop) :
  T [] →
  (∀ st pid,
     Inv (mk_env procs quanta arrivals) (coerce_rem procs bursts) [pid] st →
     pid ∈ procs → get0 (coerce_arr procs arrivals) pid ≤ now st →
     0 < get0 (rem st) pid →
     T (timeline st) → T (timeline (sliced (mk_env procs quanta arrivals) pid st))) →
  ∃ tl, simulate_rr_with_quanta procs bursts quanta arrivals = Some tl ∧ T tl.
Proof.
  intros Hnil Hstep.
  pose proof (mk_env_future_ok procs quanta arrivals) as Hok.
  destruct (simulate_final procs bursts quanta arrivals) as (st' & Hloop & Hsim & HI & Hr).
  exists (timeline st'). split; [done|].
  eapply (loop_keeps _ (coerce_rem procs bursts) T Hok); [| exact Hloop | by apply Inv_init |].
  - exact Hstep.
  - by rewrite init_timeline.
Qed.

Lemma StronglySorted_snoc {A} (R : A → A → Prop) (l : list A) (x : A) :
  StronglySorted R l → Forall (fun y => R y x) l → StronglySorted R (l ++ [x]).
Proof.
  induction 1 as [|y l Hs IH Hall]; simpl; intros Hle.
  - repeat constructor.
  - inversion Hle; subst. constructor; [by apply IH|].
    apply Forall_app. split; [done | by repeat constructor].
Qed.

(** One slice wholly before another. *)
Definition before (a b : slice) : Prop := slice_end a ≤ slice_start b.

(** X1: the simulator models one CPU: in the returned timeline every
    slice ends no later than every slice emitted after it starts. *)
Theorem slices_never_overlap procs bursts quanta arrivals :
  ∃ tl, simulate_rr_with_quanta procs bursts quanta arrivals = Some tl
    ∧ StronglySorted before tl.
Proof.
  apply simulate_keeps; [constructor|].
  intros st pid HI _ _ _ HT. unfold sliced. simpl.
  apply StronglySorted_snoc; [done|].
  eapply Forall_impl; [apply (inv_slices _ _ _ _ HI)|].
  intros s [_ Hend]. unfold before. simpl. exact Hend.
Qed.

(** X2: only listed ids run, no slice starts before tick 0, and no
    process runs before its (coerced) arrival time. *)
Theorem slices_start_after_arrival procs bursts quanta arrivals :
  ∃ tl, simulate_rr_with_quanta procs bursts quanta arrivals = Some tl
    ∧ Forall (fun s => slice_pid s ∈ procs
                       ∧ 0 ≤ slice_start s
                       ∧ py_round (getq 0 arrivals (slice_pid s)) ≤ slice_start s) tl.
Proof.
  apply simulate_keeps; [constructor|].
  intros st pid HI Hin Harr _ HT. unfold sliced. simpl.
  apply Forall_app. split; [done|]. repeat constructor; simpl; [done | |].
  - apply (inv_now _ _ _ _ HI).
  - rewrite coerce_arr_get, decide_True in Harr by done. exact Harr.
Qed.

Lemma coerce_q_get procs quanta p :
  p ∈ procs → get1 (coerce_q procs quanta) p = Z.max 1 (py_round (getq 1 quanta p)).
Proof.
  intros Hin. unfold get1, coerce_q.
  rewrite (foldl_insert_lookup (fun p => Z.max 1 (py_round (getq 1 quanta p)))).
  by rewrite decide_True.
Qed.

(** X3: every slice lasts at least one tick and at most the process's
    coerced quantum, [max(1, round(quanta.get(p, 1)))]. *)
Theorem slices_respect_quantum procs bursts quanta arrivals :
  ∃ tl, simulate_rr_with_quanta procs bursts quanta arrivals = Some tl
    ∧ Forall (fun s => 1 ≤ slice_end s - slice_start s
                         ≤ Z.max 1 (py_round (getq 1 quanta (slice_pid s)))) tl.
Proof.
  apply simulate_keeps; [constructor|].
  intros st pid HI Hin _ Hpos HT. unfold sliced. simpl.
  apply Forall_app. split; [done|]. constructor; [|constructor].
  unfold slice_end, slice_start, slice_pid. simpl.
  rewrite coerce_q_get by done. lia.
Qed.

(** X22: every slice runs for the smaller of the process's coerced
    quantum and what is left of its coerced burst when the slice starts, that
    is the burst minus the lengths of the process's earlier slices. *)
Theorem slice_length_is_quantum_or_rest procs bursts quanta arrivals :
  ∃ tl, simulate_rr_with_quanta procs bursts quanta arrivals = Some tl
    ∧ ∀ (i : nat) s, tl !! i = Some s →
        slice_end s - slice_start s
        = Z.min (Z.max 1 (py_round (getq 1 quanta (slice_pid s))))
                (Z.max 0 (py_round (getq 0 bursts (slice_pid s)))
                 - dur_sum (slice_pid s) (take i tl)).
Proof.
  apply simulate_keeps; [by intros i s|].
  intros st pid HI Hin _ Hpos HT i s. unfold sliced. cbn [timeline].
  destruct (decide (i < length (timeline st))%nat) as [Hlt | Hge].
  - rewrite lookup_app_l by done. rewrite take_app_le by lia. apply HT.
  - intros Hlk. pose proof (lookup_lt_Some _ _ _ Hlk) as Hi.
    rewrite length_app in Hi. simpl in Hi.
    assert (i = length (timeline st)) as -> by lia.
    rewrite list_lookup_middle in Hlk by done. injection Hlk as <-.
    rewrite take_app_length.
    unfold slice_end, slice_start, slice_pid. cbn [fst snd].
    pose proof (inv_sum _ _ _ _ HI pid) as Hsum.
    rewrite coerce_rem_get, decide_True in Hsum by done.
    rewrite coerce_q_get by done. lia.
Qed.

End RRMore.

(** ** The metrics: context switches, waiting and turnaround, total time *)

Module MetricsMore.
Import RR Metrics RRFacts RRMore.

(** The pairs of neighbours of a timeline whose ids differ. *)
Definition differing_neighbours (tl : list slice) : list (slice * slice) :=
  filter (fun ab => slice_pid ab.2 ≠ slice_pid ab.1) (zip tl (drop 1 tl)).

Lemma differing_neighbours_cons a b rest :
  differing_neighbours (a :: b :: rest)
  = (if decide (slice_pid b ≠ slice_pid a) then [(a, b)] else [])
    ++ differing_neighbours (b :: rest).
Proof.
  unfold differing_neighbours.
  change (drop 1 (a :: b :: rest)) with (b :: rest).
  change (drop 1 (b :: rest)) with rest.
  change (zip (a :: b :: rest) (b :: rest)) with ((a, b) :: zip (b :: rest) rest).
  rewrite filter_cons. cbn [fst snd]. by case_decide.
Qed.

Lemma switches_fold (rest : list slice) : ∀ (n : Z) (prev : slice),
  (foldl (fun '(switches, prev) s =>
            ((if bool_decide (slice_pid s ≠ prev) then switches + 1 else switches),
             slice_pid s))
         (n, slice_pid prev) rest).1
  = n + Z.of_nat (length (differing_neighbours (prev :: rest))).
Proof.
  induction rest as [|s rest IH]; intros n prev.
  - simpl. unfold differing_neighbours. simpl. lia.
  - cbn [foldl]. rewrite IH, differing_neighbours_cons, length_app.
    case_bool_decide as Hd; case_decide as Hd'; simpl length; try lia; congruence.
Qed.

(** X4: [count_context_switches] counts the neighbouring slices whose ids
    differ; it lies between 0 and the number of slices minus one, and is 0
    when one id owns every slice. *)
Theorem context_switches_are_changes (tl : list slice) :
  count_context_switches tl = Z.of_nat (length (differing_neighbours tl))
  ∧ 0 ≤ count_context_switches tl ≤ Z.max 0 (Z.of_nat (length tl) - 1)
  ∧ ∀ p, Forall (fun s => slice_pid s = p) tl → count_context_switches tl = 0.
Proof.
  assert (Heq : count_context_switches tl = Z.of_nat (length (differing_neighbours tl))).
  { destruct tl as [|s0 rest]; [done|]. unfold count_context_switches.
    rewrite switches_fold. lia. }
  split; [done|]. rewrite Heq. split.
  - pose proof (length_filter (fun ab : slice * slice => slice_pid ab.2 ≠ slice_pid ab.1)
                  (zip tl (drop 1 tl))) as Hf.
    unfold differing_neighbours.
    rewrite length_zip, length_drop in Hf. lia.
  - intros p Hall.
    assert (Hnil : differing_neighbours tl = []); [|by rewrite Hnil].
    clear Heq. induction tl as [|a l IH]; [done|].
    destruct l as [|b l]; [done|].
    rewrite differing_neighbours_cons.
    inversion Hall as [|?? Ha Hrest]; subst.
    pose proof (Forall_inv Hrest) as Hb. simpl in Hb.
    rewrite decide_False by congruence. simpl. by apply IH.
Qed.

Lemma zeros_lookup pids p :
  zeros pids !! p = if decide (p ∈ pids) then Some 0 else None.
Proof.
  unfold zeros. rewrite (foldl_insert_lookup (fun _ => 0)).
  case_decide; [done | by rewrite lookup_empty].
Qed.

Lemma max_end_fold (tl : list slice) : ∀ m,
  let r := foldl (fun m s => if bool_decide (m < slice_end s) then slice_end s else m) m tl in
  m ≤ r ∧ Forall (fun s => slice_end s ≤ r) tl.
Proof.
  induction tl as [|s tl IH]; intros m; simpl; [split; [lia | constructor]|].
  destruct (IH (if bool_decide (m < slice_end s) then slice_end s else m)) as [Hle Hall].
  split; [case_bool_decide; lia|]. constructor; [case_bool_decide; lia | done].
Qed.

(** What the metrics dictionaries hold, in every case of the function. *)
Lemma compute_metrics_entries pids initial_bursts tl arrivals p :
  waiting (compute_metrics pids initial_bursts tl arrivals) !! p
  = (if decide (p ∈ pids)
     then Some (match tl with
                | [] => 0
                | _ :: _ => waiting_of (completion tl) initial_bursts arrivals p
                end)
     else None)
  ∧ turnaround (compute_metrics pids initial_bursts tl arrivals) !! p
    = (if decide (p ∈ pids)
       then Some (match tl with
                  | [] => 0
                  | _ :: _ => turnaround_of (completion tl) arrivals p
                  end)
       else None).
Proof.
  unfold compute_metrics. destruct pids as [|p0 l].
  - simpl. rewrite !zeros_lookup. rewrite decide_False; [done | apply not_elem_of_nil].
  - destruct tl as [|s0 tl0].
    + simpl. by rewrite !zeros_lookup.
    + cbv zeta. rewrite metrics_fold. cbn [waiting turnaround fst snd].
      rewrite !foldl_insert_lookup. split; case_decide; by rewrite ?lookup_empty.
Qed.

(** X5: [compute_metrics] gives every listed id, and no other, a waiting
    and a turnaround time; both are never negative; an id without a slice
    gets 0 for both; the total time is never negative and, when the id list
    is not empty, at least every end tick of the timeline. *)
Theorem metrics_cover_listed_ids pids initial_bursts tl arrivals :
  let m := compute_metrics pids initial_bursts tl arrivals in
  (∀ p, is_Some (waiting m !! p) ↔ p ∈ pids)
  ∧ (∀ p, is_Some (turnaround m !! p) ↔ p ∈ pids)
  ∧ (∀ p w, waiting m !! p = Some w → 0 ≤ w)
  ∧ (∀ p t, turnaround m !! p = Some t → 0 ≤ t)
  ∧ (∀ p, p ∈ pids → ¬ has_slice p tl →
       waiting m !! p = Some 0 ∧ turnaround m !! p = Some 0)
  ∧ 0 ≤ total_time m
  ∧ (pids ≠ [] → Forall (fun s => slice_end s ≤ total_time m) tl).
Proof.
  intros m.
  assert (Hent := fun p => compute_metrics_entries pids initial_bursts tl arrivals p).
  fold m in Hent.
  split; [|split; [|split; [|split; [|split; [|split]]]]].
  - intros p. destruct (Hent p) as [-> _]. case_decide; split; try done; by intros [? ?].
  - intros p. destruct (Hent p) as [_ ->]. case_decide; split; try done; by intros [? ?].
  - intros p w. destruct (Hent p) as [-> _]. case_decide; [|done]. intros [= <-].
    destruct tl; [done|]. unfold waiting_of. destruct (completion _ !! p); lia.
  - intros p t. destruct (Hent p) as [_ ->]. case_decide; [|done]. intros [= <-].
    destruct tl; [done|]. unfold turnaround_of. destruct (completion _ !! p); lia.
  - intros p Hin Hns. destruct (Hent p) as [-> ->]. rewrite !decide_True by done.
    destruct tl as [|s0 tl0]; [done|].
    unfold waiting_of, turnaround_of.
    destruct (completion (s0 :: tl0) !! p) as [c|] eqn:Hc; [|done].
    destruct Hns. apply completion_has_slice. eauto.
  - unfold m, compute_metrics. destruct pids; [simpl; lia|]. destruct tl; [simpl; lia|].
    cbv zeta. cbn [total_time]. apply (max_end_fold (s0 :: tl) 0).
  - intros Hne. unfold m, compute_metrics. destruct pids; [done|].
    destruct tl; [constructor|]. cbv zeta. cbn [total_time].
    apply (max_end_fold (s0 :: tl) 0).
Qed.

Lemma max_end_snoc tl s :
  max_end (tl ++ [s]) = if bool_decide (max_end tl < slice_end s) then slice_end s else max_end tl.
Proof. unfold max_end. by rewrite foldl_app. Qed.

(** X6: on a timeline returned by the simulator, the total time that
    [compute_metrics] reports is the end tick of the last slice (0 for the
    empty timeline). *)
Theorem total_time_is_last_end procs bursts quanta arrivals :
  ∃ tl, simulate_rr_with_quanta procs bursts quanta arrivals = Some tl
    ∧ total_time (compute_metrics procs bursts tl arrivals)
      = default 0 (slice_end <$> last tl).
Proof.
  destruct (simulate_keeps procs bursts quanta arrivals
              (fun tl => Forall (fun s => slice_pid s ∈ procs) tl
                         ∧ max_end tl = default 0 (slice_end <$> last tl)))
    as (tl & Hsim & Hpids & Hmax).
  - split; [constructor | done].
  - intros st pid HI Hin _ _ [Hp Hm]. unfold sliced. cbn [timeline]. split.
    + apply Forall_app. split; [done | by repeat constructor].
    + rewrite max_end_snoc, last_snoc. cbn.
      assert (Hle : max_end (timeline st) ≤ now st).
      { rewrite Hm. pose proof (inv_now _ _ _ _ HI) as Hnow.
        destruct (last (timeline st)) as [s|] eqn:Hlast; [|done]. cbn.
        pose proof (inv_slices _ _ _ _ HI) as Hsl. rewrite Forall_forall in Hsl.
        apply last_Some in Hlast as [l' Hl'].
        apply (Hsl s). rewrite Hl'. apply elem_of_app. right. by left. }
      rewrite bool_decide_true; [done|]. unfold slice_end. simpl. lia.
  - exists tl. split; [done|]. unfold compute_metrics.
    destruct procs as [|p0 ps].
    + destruct tl as [|s tl']; [done|].
      apply Forall_inv in Hpids. by apply elem_of_nil in Hpids.
    + destruct tl as [|s tl']; [done|]. cbv zeta. cbn [total_time]. exact Hmax.
Qed.

End MetricsMore.

(** ** The chart series, the event trace and the averages *)

Module ScenarioMore.
Import RR Metrics RRFacts Scenario.

(** Some slice of the timeline runs during tick [t]. *)
Definition busy (tl : list slice) (t : Z) : Prop :=
  Exists (fun s => slice_start s ≤ t < slice_end s) tl.

#[local] Instance busy_dec tl t : Decision (busy tl t).
Proof. unfold busy. apply _. Defined.

Lemma mark_ticks_spec (T : Z) (l : list Z) : ∀ occupied : list bool,
  let r := foldl (fun occ tt => if bool_decide (0 ≤ tt < T)
                                then <[Z.to_nat tt := true]> occ else occ) occupied l in
  length r = length occupied
  ∧ ∀ i, r !! i = Some true
         ↔ occupied !! i = Some true
           ∨ ((i < length occupied)%nat ∧ ∃ tt, tt ∈ l ∧ 0 ≤ tt < T ∧ Z.to_nat tt = i).
Proof.
  induction l as [|tt l IH]; intros occupied; cbn [foldl]; cbv zeta.
  - split; [done|]. intros i. split; [auto|]. intros [H | (_ & tt & Hin & _)]; [done|].
    by apply elem_of_nil in Hin.
  - match goal with
    | |- context [foldl _ ?o l] => destruct (IH o) as [Hlen Hlk]; set (o' := o) in *
    end.
    assert (Hlen' : length o' = length occupied).
    { unfold o'. case_bool_decide; [apply length_insert | done]. }
    split; [by rewrite Hlen|].
    intros i. rewrite Hlk, Hlen'. unfold o'. split.
    + intros [H | (Hi & tt' & Hin & Hr & Ht)].
      * case_bool_decide as Hd; [|by left].
        apply list_lookup_insert_Some in H as [(Heq & _ & Hi) | [_ H]]; [|by left].
        right. split; [done|]. exists tt. split; [by left | done].
      * right. split; [done|]. exists tt'. split; [by right | done].
    + intros [H | (Hi & tt' & Hin & Hr & Ht)].
      * left. case_bool_decide; [|done].
        destruct (decide (Z.to_nat tt = i)) as [<- | Hne].
        -- apply list_lookup_insert_Some. left. split; [done|]. split; [done|].
           by eapply lookup_lt_Some.
        -- apply list_lookup_insert_Some. right. done.
      * apply elem_of_cons in Hin as [-> | Hin].
        -- left. rewrite bool_decide_true by done.
           apply list_lookup_insert_Some. left. done.
        -- right. split; [done|]. exists tt'. done.
Qed.

Lemma mark_slice_spec (T : Z) (occupied : list bool) (s : slice) :
  length occupied = Z.to_nat T →
  length (mark_slice T occupied s) = length occupied
  ∧ ∀ i, mark_slice T occupied s !! i = Some true
         ↔ occupied !! i = Some true
           ∨ ((i < Z.to_nat T)%nat ∧ slice_start s ≤ Z.of_nat i < slice_end s).
Proof.
  intros HT. unfold mark_slice. case_bool_decide as Hempty.
  - split; [done|]. intros i. split; [auto|]. intros [? | [_ ?]]; [done | lia].
  - cbv zeta.
    match goal with
    | |- context [foldl _ occupied ?l] =>
        destruct (mark_ticks_spec T l occupied) as [Hlen Hlk]; set (ticks := l) in *
    end.
    split; [done|]. intros i. rewrite Hlk, HT. split.
    + intros [? | (Hi & tt & Hin & Hr & <-)]; [by left|]. right. split; [done|].
      unfold ticks in Hin. apply elem_of_seqZ in Hin. lia.
    + intros [? | (Hi & Hr)]; [by left|]. right. split; [done|].
      exists (Z.of_nat i). split; [|lia].
      unfold ticks. apply elem_of_seqZ. lia.
Qed.

Lemma mark_slices_spec (T : Z) (tl : list slice) : ∀ occupied : list bool,
  length occupied = Z.to_nat T →
  length (foldl (mark_slice T) occupied tl) = length occupied
  ∧ ∀ i, foldl (mark_slice T) occupied tl !! i = Some true
         ↔ occupied !! i = Some true ∨ ((i < Z.to_nat T)%nat ∧ busy tl (Z.of_nat i)).
Proof.
  induction tl as [|s tl IH]; intros occupied HT; cbn [foldl].
  - split; [done|]. intros i. split; [auto|]. intros [? | [_ Hb]]; [done|].
    by apply Exists_nil in Hb.
  - destruct (mark_slice_spec T occupied s HT) as [Hlen1 Hlk1].
    destruct (IH (mark_slice T occupied s)) as [Hlen Hlk]; [by rewrite Hlen1|].
    split; [by rewrite Hlen|]. intros i. rewrite Hlk, Hlk1. unfold busy.
    rewrite Exists_cons. tauto.
Qed.

Lemma build_cpu_series_points (tl : list slice) (total : Z) :
  tl ≠ [] → 0 < total →
  build_cpu_series tl total
  = (fun t => (t, if decide (busy tl t) then 100 else 0)) <$> seqZ 0 total.
Proof.
  intros Hne Htot. unfold build_cpu_series.
  destruct tl as [|s0 tl0]; [done|]. rewrite bool_decide_false by lia. cbv zeta.
  remember (s0 :: tl0) as tl eqn:Htl. clear Htl Hne.
  apply list_fmap_ext. intros i t Hseq. apply lookup_seqZ in Hseq as [-> Hi].
  rewrite Z.add_0_l, Nat2Z.id. f_equal.
  destruct (mark_slices_spec total tl (replicate (Z.to_nat total) false))
    as [Hlen Hlk]; [apply length_replicate|].
  specialize (Hlk i).
  destruct (foldl (mark_slice total) _ tl !! i) as [[|]|] eqn:Hocc; cbn.
  - rewrite decide_True; [done|].
    destruct (proj1 Hlk eq_refl) as [Hrep | [_ Hb]]; [|done].
    apply lookup_replicate in Hrep as [? _]. done.
  - rewrite decide_False; [done|]. intros Hb.
    assert (Some false = Some true); [|done]. apply Hlk. right. split; [lia | done].
  - rewrite decide_False; [done|]. intros Hb.
    assert (@None bool = Some true); [|done]. apply Hlk. right. split; [lia | done].
Qed.

(** X7: [build_cpu_series] on a non-empty timeline and a positive total
    returns one point per tick [0 .. total-1], in order; the point of tick
    [t] is [(t, 100)] when some slice runs during [t] and [(t, 0)]
    otherwise. *)
Theorem cpu_series_marks_busy_ticks (tl : list slice) (total : Z) :
  tl ≠ [] → 0 < total →
  length (build_cpu_series tl total) = Z.to_nat total
  ∧ ∀ t, 0 ≤ t < total →
      build_cpu_series tl total !! Z.to_nat t
      = Some (t, if decide (busy tl t) then 100 else 0).
Proof.
  intros Hne Htot. rewrite build_cpu_series_points by done.
  split; [by rewrite length_fmap, length_seqZ|].
  intros t Ht. rewrite list_lookup_fmap.
  assert (Hseq : seqZ 0 total !! Z.to_nat t = Some t) by (apply lookup_seqZ; lia).
  by rewrite Hseq.
Qed.

Lemma cpu_series_marks_busy_ticks_witness :
  ex_timeline ≠ [] ∧ 0 < 15
  ∧ length (build_cpu_series ex_timeline 15) = Z.to_nat 15
  ∧ ∀ t, 0 ≤ t < 15 →
      build_cpu_series ex_timeline 15 !! Z.to_nat t
      = Some (t, if decide (busy ex_timeline t) then 100 else 0).
Proof.
  assert (Hne : ex_timeline ≠ []) by (unfold ex_timeline; done).
  split; [done|]. split; [lia|].
  exact (cpu_series_marks_busy_ticks ex_timeline 15 Hne ltac:(lia)).
Defined.

(** The two events of a slice, in the order the loop appends them. *)
Definition events_of (s : slice) : list TraceEntry :=
  [MkTrace (slice_start s) "running" (slice_pid s);
   MkTrace (slice_end s) "stopped" (slice_pid s)].

(** [x] may stand before [y] in the trace: earlier, or at the same tick
    unless [x] starts a slice and [y] stops one. *)
Definition stop_first (x y : TraceEntry) : Prop :=
  time x < time y
  ∨ (time x = time y ∧ ¬ (event x = "running" ∧ event y = "stopped")).

#[local] Instance trace_le_total : Total trace_le.
Proof.
  intros x y. unfold trace_le.
  destruct (Z.lt_trichotomy (time x) (time y)) as [? | [Ht | ?]];
    [by left; left | | by right; left].
  destruct (Z.lt_trichotomy (trace_order x) (trace_order y)) as [? | [Ho | ?]].
  - left. right. split; [done|]. by left.
  - destruct (String.leb_total (trace_pid x) (trace_pid y)) as [H | H];
      [left | right]; right; (split; [done|]); right; done.
  - right. right. split; [done|]. by left.
Qed.

Lemma trace_events_fold (tl : list slice) : ∀ acc,
  foldl (fun tr s => if bool_decide (slice_start s < slice_end s)
                     then tr ++ [MkTrace (slice_start s) "running" (slice_pid s);
                                 MkTrace (slice_end s) "stopped" (slice_pid s)]
                     else tr) acc tl
  = acc ++ (filter (fun s => slice_start s < slice_end s) tl ≫= events_of).
Proof.
  induction tl as [|s tl IH]; intros acc; cbn [foldl].
  - by rewrite app_nil_r.
  - rewrite IH, filter_cons. case_bool_decide.
    + rewrite decide_True by done. by rewrite <- app_assoc.
    + by rewrite decide_False.
Qed.

Lemma trace_le_stop_first (l : list TraceEntry) :
  Sorted trace_le l → StronglySorted stop_first l.
Proof.
  intros Hs.
  assert (Hk : StronglySorted
                 (fun x y => time x < time y
                             ∨ (time x = time y ∧ trace_order x ≤ trace_order y)) l).
  { apply Sorted_StronglySorted.
    - intros x y z. lia.
    - induction Hs as [|x l Hs IH Hhd]; constructor; [done|].
      destruct Hhd as [|y l Hxy]; constructor. unfold trace_le in Hxy. lia. }
  clear Hs. induction Hk as [|x l Hk IH Hall]; [constructor|]. constructor; [done|].
  eapply Forall_impl; [exact Hall|]. intros y [Hlt | [Heq Hord]]; [by left|].
  right. split; [done|]. intros [Hx Hy]. unfold trace_order in Hord.
  rewrite Hx, Hy in Hord. simpl in Hord. lia.
Qed.

(** X8: [generate_trace] returns exactly the [running] and [stopped] events
    of the slices of positive length, ordered by time, and at one tick no
    [running] event stands before a [stopped] event. *)
Theorem trace_closes_before_it_opens (tl : list slice) :
  generate_trace tl ≡ₚ filter (fun s => slice_start s < slice_end s) tl ≫= events_of
  ∧ StronglySorted stop_first (generate_trace tl).
Proof.
  unfold generate_trace. split.
  - rewrite merge_sort_Permutation. by rewrite trace_events_fold.
  - apply trace_le_stop_first. apply Sorted_merge_sort, _.
Qed.

Lemma length_filter_fmap {A B} (P : B → Prop) `{!∀ y, Decision (P y)}
    (Q : A → Prop) `{!∀ x, Decision (Q x)} (f : A → B) (l : list A) :
  Forall (fun x => P (f x) ↔ Q x) l →
  length (filter P (f <$> l)) = length (filter Q l).
Proof.
  induction 1 as [|x l Hx Hall IH]; [done|].
  rewrite fmap_cons, !filter_cons.
  destruct (decide (P (f x))), (decide (Q x)); simpl; try tauto; by rewrite IH.
Qed.

Lemma percentage_bounds (a b : nat) :
  (a ≤ b)%nat → (0 < b)%nat →
  (0 <= Qmult (Qdiv (inject_Z (Z.of_nat a)) (inject_Z (Z.of_nat b))) (100 # 1))%Q
  ∧ (Qmult (Qdiv (inject_Z (Z.of_nat a)) (inject_Z (Z.of_nat b))) (100 # 1) <= 100 # 1)%Q.
Proof.
  intros Hab Hb.
  assert (Hbpos : (0 < inject_Z (Z.of_nat b))%Q).
  { change 0%Q with (inject_Z 0). rewrite <- Zlt_Qlt. lia. }
  split.
  - apply Qmult_le_0_compat; [|done].
    apply Qle_shift_div_l; [done|]. rewrite Qmult_0_l.
    change 0%Q with (inject_Z 0). rewrite <- Zle_Qle. lia.
  - apply (Qle_trans _ (Qmult 1 (100 # 1))); [|done].
    apply Qmult_le_compat_r; [|done].
    apply Qle_shift_div_r; [done|]. rewrite Qmult_1_l. rewrite <- Zle_Qle. lia.
Qed.

(** X9: the utilisation computed from the chart series of a non-empty
    timeline is the share of the ticks [0 .. total-1] during which some slice
    runs, as a percentage; it lies between 0 and 100. *)
Theorem utilisation_is_busy_share (tl : list slice) (total : Z) :
  tl ≠ [] → 0 < total →
  cpu_util_from_series (build_cpu_series tl total)
  = Qmult (Qdiv (inject_Z (Z.of_nat (length (filter (busy tl) (seqZ 0 total)))))
                (inject_Z (Z.of_nat (Z.to_nat total))))
          (100 # 1)
  ∧ (0 <= cpu_util_from_series (build_cpu_series tl total))%Q
  ∧ (cpu_util_from_series (build_cpu_series tl total) <= 100 # 1)%Q.
Proof.
  intros Hne Htot.
  assert (Heq : cpu_util_from_series (build_cpu_series tl total)
                = Qmult (Qdiv (inject_Z (Z.of_nat (length (filter (busy tl) (seqZ 0 total)))))
                              (inject_Z (Z.of_nat (Z.to_nat total))))
                        (100 # 1)).
  { rewrite build_cpu_series_points by done.
    match goal with
    | |- context [?f <$> seqZ 0 total] =>
        assert (Hlen : length (f <$> seqZ 0 total) = Z.to_nat total)
          by (by rewrite length_fmap, length_seqZ);
        assert (Hcount : length (filter (fun tc : Z * Z => 0 < tc.2) (f <$> seqZ 0 total))
                         = length (filter (busy tl) (seqZ 0 total)));
        [|set (series := f <$> seqZ 0 total) in *]
    end.
    - apply length_filter_fmap. apply Forall_forall. intros t _. cbn [snd].
      case_decide; split; try done; lia.
    - unfold cpu_util_from_series. destruct series as [|pt series].
      + simpl in Hlen. lia.
      + by rewrite Hcount, Hlen. }
  split; [done|]. rewrite Heq.
  apply percentage_bounds; [|lia].
  etrans; [apply length_filter|]. rewrite length_seqZ. done.
Qed.

Lemma utilisation_is_busy_share_witness :
  ex_timeline ≠ [] ∧ 0 < 15
  ∧ cpu_util_from_series (build_cpu_series ex_timeline 15)
    = Qmult (Qdiv (inject_Z (Z.of_nat (length (filter (busy ex_timeline) (seqZ 0 15)))))
                  (inject_Z (Z.of_nat (Z.to_nat 15))))
            (100 # 1)
  ∧ (0 <= cpu_util_from_series (build_cpu_series ex_timeline 15))%Q
  ∧ (cpu_util_from_series (build_cpu_series ex_timeline 15) <= 100 # 1)%Q.
Proof.
  assert (Hne : ex_timeline ≠ []) by (unfold ex_timeline; done).
  split; [done|]. split; [lia|].
  exact (utilisation_is_busy_share ex_timeline 15 Hne ltac:(lia)).
Defined.

Lemma sum_values_bounds (m : gmap string Z) (lo hi : Z) :
  map_Forall (fun _ v => lo ≤ v ≤ hi) m →
  lo * Z.of_nat (size m) ≤ map_fold (fun _ v acc => v + acc) 0 m ≤ hi * Z.of_nat (size m).
Proof.
  induction m as [|p v m Hnone IH] using map_ind; intros Hall.
  - rewrite map_fold_empty, map_size_empty. lia.
  - rewrite map_fold_insert_L; [|intros; lia | done].
    rewrite map_size_insert_None by done.
    apply map_Forall_insert in Hall as [Hv Hall]; [|done].
    specialize (IH Hall). lia.
Qed.

(** X10: [_compute_avg_from_map] of a non-empty dictionary lies between
    any lower and upper bound of its values. *)
Theorem average_within_bounds (m : gmap string Z) (lo hi : Z) :
  m ≠ ∅ → map_Forall (fun _ v => lo ≤ v ≤ hi) m →
  (inject_Z lo <= compute_avg_from_map m)%Q ∧ (compute_avg_from_map m <= inject_Z hi)%Q.
Proof.
  intros Hne Hall. unfold compute_avg_from_map.
  assert (Hsz : (0 < size m)%nat).
  { destruct (decide (size m = 0%nat)) as [Hz | ?]; [|lia].
    by apply map_size_empty_iff in Hz. }
  rewrite bool_decide_false by lia.
  pose proof (sum_values_bounds m lo hi Hall) as [Hlo Hhi].
  assert (Hpos : (0 < inject_Z (Z.of_nat (size m)))%Q).
  { change 0%Q with (inject_Z 0). rewrite <- Zlt_Qlt. lia. }
  split.
  - apply Qle_shift_div_l; [done|]. rewrite <- inject_Z_mult, <- Zle_Qle. done.
  - apply Qle_shift_div_r; [done|]. rewrite <- inject_Z_mult, <- Zle_Qle. done.
Qed.

Lemma average_within_bounds_witness :
  let m : gmap string Z := <["A" := 3]> (<["B" := 6]> ∅) in
  m ≠ ∅ ∧ map_Forall (fun _ v => 3 ≤ v ≤ 6) m
  ∧ (inject_Z 3 <= compute_avg_from_map m)%Q ∧ (compute_avg_from_map m <= inject_Z 6)%Q.
Proof.
  intros m.
  assert (Hne : m ≠ ∅).
  { unfold m. apply insert_non_empty. }
  assert (Hall : map_Forall (fun _ v => 3 ≤ v ≤ 6) m).
  { unfold m. apply map_Forall_insert_2; [lia|]. apply map_Forall_insert_2; [lia|].
    apply map_Forall_empty. }
  split; [done|]. split; [done|].
  exact (average_within_bounds m 3 6 Hne Hall).
Defined.

Lemma cpu_util_bounds (series : list (Z * Z)) :
  (0 <= cpu_util_from_series series)%Q ∧ (cpu_util_from_series series <= 100 # 1)%Q.
Proof.
  unfold cpu_util_from_series. destruct series as [|pt series]; [done|].
  apply percentage_bounds; [apply length_filter | simpl; lia].
Qed.

Lemma build_cpu_series_length (tl : list slice) (total : Z) :
  (tl = [] → total ≤ 0) → length (build_cpu_series tl total) = Z.to_nat total.
Proof.
  intros Hnil. unfold build_cpu_series. destruct tl as [|s0 tl0].
  - specialize (Hnil eq_refl). simpl. lia.
  - case_bool_decide; [simpl; lia|]. by rewrite length_fmap, length_seqZ.
Qed.

Lemma average_nonneg (m : gmap string Z) :
  map_Forall (fun _ v => 0 ≤ v) m → (0 <= compute_avg_from_map m)%Q.
Proof.
  intros Hall. unfold compute_avg_from_map. case_bool_decide as Hsz; [done|].
  assert (Hsum : 0 ≤ map_fold (fun _ v acc => v + acc) 0 m).
  { clear Hsz. induction m as [|p v m Hnone IH] using map_ind.
    - by rewrite map_fold_empty.
    - rewrite map_fold_insert_L; [|intros; lia | done].
      apply map_Forall_insert in Hall as [Hv Hall]; [|done].
      specialize (IH Hall). lia. }
  apply Qle_shift_div_l.
  - change 0%Q with (inject_Z 0). rewrite <- Zlt_Qlt. lia.
  - rewrite Qmult_0_l. change 0%Q with (inject_Z 0). by rewrite <- Zle_Qle.
Qed.

Lemma fixed_quanta_lookup c p :
  fixed_quanta c !! p = if decide (p ∈ pids_of c) then Some (cpu_quantum c) else None.
Proof.
  unfold fixed_quanta. rewrite (foldl_insert_lookup (fun _ => cpu_quantum c)).
  case_decide; [done | by rewrite lookup_empty].
Qed.

(** X11: [simulate_baseline] returns a result for every configuration.  In
    it every listed id, and no other, has the fixed quantum, a waiting and a
    turnaround time; there are no memory estimates; the chart series has one
    point per tick of the total time; the utilisation is a percentage; and
    no count or average is negative. *)
Theorem baseline_result_is_complete (c : SystemConfig) :
  ∃ r, simulate_baseline c = Some r
    ∧ (∀ p, inferred_quanta r !! p
            = if decide (p ∈ pids_of c) then Some (cpu_quantum c) else None)
    ∧ memory_estimates r = ∅
    ∧ (∀ p, is_Some (waiting_times r !! p) ↔ p ∈ pids_of c)
    ∧ (∀ p, is_Some (turnaround_times r !! p) ↔ p ∈ pids_of c)
    ∧ 0 ≤ result_total_time r
    ∧ length (cpu_series r) = Z.to_nat (result_total_time r)
    ∧ (0 <= cpu_utilization r)%Q ∧ (cpu_utilization r <= 100 # 1)%Q
    ∧ 0 ≤ context_switches r
    ∧ (0 <= avg_wait (meta r))%Q ∧ (0 <= avg_turnaround (meta r))%Q.
Proof.
  destruct (RRMore.simulate_keeps (pids_of c) (initial_bursts_of c)
              (inject_Z <$> fixed_quanta c) (arrivals_of c) (fun _ => True))
    as (tl & Hsim & _); [done | done |].
  unfold simulate_baseline, baseline_timeline. rewrite Hsim. cbn [mbind option_bind].
  eexists. split; [reflexivity|].
  unfold result_of. cbv zeta. cbn [inferred_quanta memory_estimates waiting_times
    turnaround_times result_total_time cpu_series cpu_utilization context_switches
    meta avg_wait avg_turnaround].
  set (m := compute_metrics (pids_of c) (initial_bursts_of c) tl (arrivals_of c)).
  assert (Hent := fun p =>
            MetricsMore.compute_metrics_entries (pids_of c) (initial_bursts_of c) tl
              (arrivals_of c) p).
  fold m in Hent.
  assert (Hw : map_Forall (fun _ v => 0 ≤ v) (waiting m)).
  { intros p w. destruct (Hent p) as [-> _]. case_decide; [|done]. intros [= <-].
    destruct tl; [done|]. unfold waiting_of. destruct (completion _ !! p); lia. }
  assert (Ht : map_Forall (fun _ v => 0 ≤ v) (turnaround m)).
  { intros p t. destruct (Hent p) as [_ ->]. case_decide; [|done]. intros [= <-].
    destruct tl; [done|]. unfold turnaround_of. destruct (completion _ !! p); lia. }
  assert (Htot : 0 ≤ total_time m ∧ (tl = [] → total_time m ≤ 0)).
  { unfold m, compute_metrics. destruct (pids_of c); [simpl; lia|].
    destruct tl as [|s0 tl0]; [simpl; lia|]. cbv zeta. cbn [total_time].
    split; [apply (MetricsMore.max_end_fold (s0 :: tl0) 0) | done]. }
  split; [apply fixed_quanta_lookup|]. split; [done|].
  split.
  { intros p. destruct (Hent p) as [-> _]. case_decide; split; try done; by intros [? ?]. }
  split.
  { intros p. destruct (Hent p) as [_ ->]. case_decide; split; try done; by intros [? ?]. }
  split; [apply Htot|]. split; [apply build_cpu_series_length, Htot|].
  split; [apply cpu_util_bounds|]. split; [apply cpu_util_bounds|].
  split.
  { destruct tl as [|s0 rest]; [done|]. unfold count_context_switches.
    rewrite MetricsMore.switches_fold. lia. }
  split; by apply average_nonneg.
Qed.

End ScenarioMore.

(** ** The page generator and the observations of the pressure model *)

Module PagingMore.
Import Rand Paging PagingFacts.

Lemma next_keeps (g : PageGenerator) :
  pages_count (next g).2 = pages_count g
  ∧ pattern (next g).2 = pattern g
  ∧ draws (rng (next g).2) = draws (rng g).
Proof.
  unfold next. destruct (String.eqb (pattern g) "random"); [done|].
  destruct (String.eqb (pattern g) "sequential"); [done|].
  cbn. by destruct (Qle_bool _ _).
Qed.

Lemma next_in_range (g : PageGenerator) :
  0 < pages_count g → unit_draws (draws (rng g)) → 0 ≤ (next g).1 < pages_count g.
Proof.
  intros Hpc Hu. unfold next.
  destruct (String.eqb (pattern g) "random").
  { cbn. destruct (Hu (pos (rng g))). by apply py_int_unit_scale. }
  destruct (String.eqb (pattern g) "sequential").
  { cbn. by apply Z.mod_pos_bound. }
  cbn. destruct (Qle_bool _ _); cbn.
  - destruct (Hu (S (pos (rng g)))). by apply py_int_unit_scale.
  - by apply Z.mod_pos_bound.
Qed.

Lemma next_n_in_range (n : nat) : ∀ g,
  0 < pages_count g → unit_draws (draws (rng g)) →
  length (next_n n g).1 = n
  ∧ Forall (fun page => 0 ≤ page < pages_count g) (next_n n g).1.
Proof.
  induction n as [|n IH]; intros g Hpc Hu; cbn [next_n]; [by split|].
  pose proof (next_in_range g Hpc Hu) as Hr.
  destruct (next_keeps g) as (Hk1 & _ & Hk3).
  destruct (next g) as [page g1]. cbn [fst snd] in *.
  destruct (IH g1) as [Hlen Hall]; [lia | by rewrite Hk3|].
  destruct (next_n n g1) as [pages g2]. cbn [fst snd] in *.
  split; [simpl; by rewrite Hlen|]. constructor; [done|]. by rewrite <- Hk1.
Qed.

Lemma new_generator_fields pc r pat frac prob :
  pages_count (new_generator pc r pat frac prob) = Z.max 1 pc
  ∧ draws (rng (new_generator pc r pat frac prob)) = draws r
  ∧ pattern (new_generator pc r pat frac prob) = or_locality pat
  ∧ seq_index (new_generator pc r pat frac prob) = 0.
Proof. unfold new_generator. cbv zeta. by case_bool_decide. Qed.

Lemma new_generator_legacy_fields pc r pat frac prob :
  pages_count (new_generator_legacy pc r pat frac prob) = Z.max 1 pc
  ∧ draws (rng (new_generator_legacy pc r pat frac prob)) = draws r
  ∧ pattern (new_generator_legacy pc r pat frac prob) = or_locality pat
  ∧ seq_index (new_generator_legacy pc r pat frac prob) = 0.
Proof. unfold new_generator_legacy. cbv zeta. by case_bool_decide. Qed.

(** X12: a generator built for [pc] pages, by the constructor of either
    copy and with any pattern, yields only page numbers of
    [0 .. max(1, pc) - 1], however many are requested. *)
Theorem generated_pages_in_range pc r pat frac prob (n : nat) :
  unit_draws (draws r) →
  (length (next_n n (new_generator pc r pat frac prob)).1 = n
   ∧ Forall (fun page => 0 ≤ page < Z.max 1 pc)
       (next_n n (new_generator pc r pat frac prob)).1)
  ∧ (length (next_n n (new_generator_legacy pc r pat frac prob)).1 = n
     ∧ Forall (fun page => 0 ≤ page < Z.max 1 pc)
         (next_n n (new_generator_legacy pc r pat frac prob)).1).
Proof.
  intros Hu. split.
  - destruct (new_generator_fields pc r pat frac prob) as (Hpc & Hd & _).
    rewrite <- Hpc. apply next_n_in_range; [lia | by rewrite Hd].
  - destruct (new_generator_legacy_fields pc r pat frac prob) as (Hpc & Hd & _).
    rewrite <- Hpc. apply next_n_in_range; [lia | by rewrite Hd].
Qed.

(** A source whose every draw is one half. *)
Definition half_draws (_ : nat) : Q := 1 # 2.

Lemma half_draws_unit : unit_draws half_draws.
Proof. intros i. by split. Qed.

Lemma generated_pages_in_range_witness :
  unit_draws (draws (MkRng half_draws 0))
  ∧ (length (next_n 7 (new_generator 5 (MkRng half_draws 0) "locality" (2 # 10) (8 # 10))).1
     = 7%nat
     ∧ Forall (fun page => 0 ≤ page < Z.max 1 5)
         (next_n 7 (new_generator 5 (MkRng half_draws 0) "locality" (2 # 10) (8 # 10))).1)
  ∧ (length (next_n 7 (new_generator_legacy 5 (MkRng half_draws 0) "locality"
                         (2 # 10) (8 # 10))).1 = 7%nat
     ∧ Forall (fun page => 0 ≤ page < Z.max 1 5)
         (next_n 7 (new_generator_legacy 5 (MkRng half_draws 0) "locality"
                      (2 # 10) (8 # 10))).1).
Proof.
  split; [exact half_draws_unit|].
  exact (generated_pages_in_range 5 (MkRng half_draws 0) "locality" (2 # 10) (8 # 10) 7
           half_draws_unit).
Defined.

(** X13: with the pattern [sequential] the generator walks the pages in
    order, wrapping around, and takes nothing from its random source. *)
Theorem sequential_pattern_cycles (n : nat) : ∀ g,
  pattern g = "sequential" →
  (∀ i : nat, (i < n)%nat →
     (next_n n g).1 !! i = Some ((seq_index g + Z.of_nat i) `mod` pages_count g))
  ∧ rng (next_n n g).2 = rng g
  ∧ seq_index (next_n n g).2 = seq_index g + Z.of_nat n.
Proof.
  induction n as [|n IH]; intros g Hpat; cbn [next_n].
  - split; [intros i Hi; lia|]. split; [done | simpl; lia].
  - assert (Hnext : next g = (seq_index g `mod` pages_count g,
                              MkGen (pages_count g) (rng g) (pattern g) (gen_hotspot_frac g)
                                (gen_hotspot_prob g) (hotspot_size g) (hotspot_start g)
                                (seq_index g + 1))).
    { unfold next. by rewrite Hpat. }
    rewrite Hnext.
    match goal with |- context [next_n n ?g1] => destruct (IH g1 Hpat) as (Hlk & Hr & Hs) end.
    destruct (next_n n _) as [pages g2].
    cbn [fst snd seq_index rng pages_count] in *.
    split; [|split; [done | lia]].
    intros [|i] Hi; cbn.
    + by rewrite Z.add_0_r.
    + rewrite Hlk by lia. do 2 f_equal. lia.
Qed.

Lemma sequential_pattern_cycles_witness :
  let g := new_generator 3 (MkRng half_draws 0) "sequential" (2 # 10) (8 # 10) in
  pattern g = "sequential"
  ∧ (∀ i : nat, (i < 5)%nat →
       (next_n 5 g).1 !! i = Some ((seq_index g + Z.of_nat i) `mod` pages_count g))
  ∧ rng (next_n 5 g).2 = rng g
  ∧ seq_index (next_n 5 g).2 = seq_index g + Z.of_nat 5.
Proof.
  intros g.
  assert (Hpat : pattern g = "sequential") by reflexivity.
  split; [exact Hpat|].
  exact (sequential_pattern_cycles 5 g Hpat).
Defined.

Lemma observe_pages_snoc ws pages page :
  observe_pages ws (pages ++ [page]) = observe_page (observe_pages ws pages) page.
Proof. unfold observe_pages. by rewrite foldl_app. Qed.

Lemma observe_pages_faults pages : ∀ ws,
  faults ws ≤ faults (observe_pages ws pages) ≤ faults ws + Z.of_nat (length pages).
Proof.
  induction pages as [|page pages IH]; intros ws; cbn [observe_pages foldl length]; [lia|].
  specialize (IH (observe_page ws page)). unfold observe_pages in IH.
  rewrite observe_page_fault in IH. case_bool_decide; lia.
Qed.

Lemma observe_pages_counts_nonempty pages ws :
  pages ≠ [] → (0 < size (counts (observe_pages ws pages)))%nat.
Proof.
  destruct pages as [|page pages _] using rev_ind; [done|]. intros _.
  rewrite observe_pages_snoc. unfold observe_page.
  destruct (evict_if_full _ _) as [w c]. cbn [counts].
  assert (Hne : size (<[page := getc c page + 1]> c) ≠ 0%nat); [|lia].
  apply map_size_non_empty_iff, insert_non_empty.
Qed.

(** What a run leaves behind, for the observer of either copy. *)
Lemma observe_either_result mm p rt obs mm' :
  observe_run mm p rt = Some (obs, mm') ∨ observe_run_legacy mm p rt = Some (obs, mm') →
  ∃ proc pages g,
    processes mm !! p = Some proc
    ∧ run_time obs = rt
    ∧ accesses obs = Z.max 1 (py_int (inject_Z (accesses_per_time_unit (cfg mm)) * rt))
    ∧ length pages = Z.to_nat (accesses obs)
    ∧ page_faults obs
      = faults (observe_pages (MkWin (sliding_window proc) (unique_counts proc) 0) pages)
    ∧ working_set_size obs
      = Z.of_nat (size (counts (observe_pages
                                  (MkWin (sliding_window proc) (unique_counts proc) 0) pages)))
    ∧ cfg mm' = cfg mm
    ∧ processes mm'
      = <[p := MkProc (pid proc) (arrival proc) (burst proc) (remaining proc)
                 (proc_pages_count proc) g
                 (window (observe_pages
                            (MkWin (sliding_window proc) (unique_counts proc) 0) pages))
                 (ema proc) (mem_signal proc) (Some obs)
                 (counts (observe_pages
                            (MkWin (sliding_window proc) (unique_counts proc) 0) pages))]>
          (processes mm).
Proof.
  intros [Hobs | Hobs].
  - unfold observe_run in Hobs. destruct (processes mm !! p) as [proc|] eqn:Hp; [|done].
    cbv zeta in Hobs.
    match type of Hobs with
    | context [next_n ?n ?g0] =>
        pose proof (next_n_length n g0) as Hlen; destruct (next_n n g0) as [pages g]
    end.
    injection Hobs as <- <-. exists proc, pages, g. cbn. done.
  - unfold observe_run_legacy in Hobs.
    destruct (processes mm !! p) as [proc|] eqn:Hp; [|done]. cbv zeta in Hobs.
    match type of Hobs with
    | context [next_n ?n ?g0] =>
        pose proof (next_n_length n g0) as Hlen; destruct (next_n n g0) as [pages g]
    end.
    injection Hobs as <- <-. exists proc, pages, g. cbn. done.
Qed.

(** X14: an observation returned by [observe_run] (either copy) carries
    the run time it was given, at least one access, a fault count between 0
    and the number of accesses, and a working set of at least one page; the
    call records the observation in the process, keeps its fault average and
    its signal, and leaves every other process and the configuration as
    they were. *)
Theorem observation_is_consistent mm p rt obs mm' :
  observe_run mm p rt = Some (obs, mm') ∨ observe_run_legacy mm p rt = Some (obs, mm') →
  run_time obs = rt
  ∧ accesses obs = Z.max 1 (py_int (inject_Z (accesses_per_time_unit (cfg mm)) * rt))
  ∧ 0 ≤ page_faults obs ≤ accesses obs
  ∧ 1 ≤ working_set_size obs
  ∧ cfg mm' = cfg mm
  ∧ (∀ q, q ≠ p → processes mm' !! q = processes mm !! q)
  ∧ ∃ proc proc', processes mm !! p = Some proc ∧ processes mm' !! p = Some proc'
      ∧ last_obs proc' = Some obs ∧ ema proc' = ema proc
      ∧ mem_signal proc' = mem_signal proc.
Proof.
  intros Hobs.
  destruct (observe_either_result _ _ _ _ _ Hobs)
    as (proc & pages & g & Hp & Hrt & Hacc & Hlen & Hpf & Hws & Hcfg & Hprocs).
  split; [done|]. split; [done|].
  pose proof (observe_pages_faults pages (MkWin (sliding_window proc) (unique_counts proc) 0))
    as Hf. cbn [faults] in Hf.
  split; [lia|]. split.
  { rewrite Hws.
    pose proof (observe_pages_counts_nonempty pages
                  (MkWin (sliding_window proc) (unique_counts proc) 0)) as Hne.
    assert (Hpages : pages ≠ []); [|specialize (Hne Hpages); lia].
    intros ->. simpl in Hlen. lia. }
  split; [done|]. split.
  { intros q Hq. rewrite Hprocs. by rewrite lookup_insert_ne. }
  eexists proc, _. split; [done|]. rewrite Hprocs, lookup_insert_eq. done.
Qed.

Lemma observation_is_consistent_witness :
  let obs := window3_run.1 in
  let mm' := window3_run.2 in
  (observe_run window3_model "P" 5 = Some (obs, mm')
   ∨ observe_run_legacy window3_model "P" 5 = Some (obs, mm'))
  ∧ run_time obs = 5%Q
  ∧ accesses obs
    = Z.max 1 (py_int (inject_Z (accesses_per_time_unit (cfg window3_model)) * 5)%Q)
  ∧ 0 ≤ page_faults obs ≤ accesses obs
  ∧ 1 ≤ working_set_size obs
  ∧ cfg mm' = cfg window3_model
  ∧ (∀ q, q ≠ "P" → processes mm' !! q = processes window3_model !! q)
  ∧ ∃ proc proc', processes window3_model !! "P" = Some proc
      ∧ processes mm' !! "P" = Some proc'
      ∧ last_obs proc' = Some obs ∧ ema proc' = ema proc
      ∧ mem_signal proc' = mem_signal proc.
Proof.
  intros obs mm'.
  assert (Hrun : observe_run window3_model "P" 5 = Some (obs, mm')
                 ∨ observe_run_legacy window3_model "P" 5 = Some (obs, mm'))
    by (left; vm_compute; reflexivity).
  split; [exact Hrun|].
  exact (observation_is_consistent window3_model "P" 5 obs mm' Hrun).
Defined.

Lemma size_list_to_set_le (l : list Z) : (size (list_to_set l : gset Z) ≤ length l)%nat.
Proof.
  induction l as [|x l IH]; [done|].
  rewrite list_to_set_cons, size_union_alt, size_singleton. simpl.
  assert (size (list_to_set l ∖ {[x]} : gset Z) ≤ size (list_to_set l : gset Z))%nat.
  { apply subseteq_size. intros y Hy. apply elem_of_difference in Hy. tauto. }
  lia.
Qed.

(** X15: for a window of capacity at least 1, the working set that
    [observe_run] reports is the number of distinct pages in the sliding
    window after the run, hence at most the capacity. *)
Theorem working_set_counts_window_pages seeded mm p rt obs mm' :
  reachable seeded mm →
  (0 < window_access_count (cfg mm))%nat →
  observe_run mm p rt = Some (obs, mm') ∨ observe_run_legacy mm p rt = Some (obs, mm') →
  ∃ proc', processes mm' !! p = Some proc'
    ∧ working_set_size obs
      = Z.of_nat (size (list_to_set (items (sliding_window proc')) : gset Z))
    ∧ working_set_size obs ≤ Z.of_nat (window_access_count (cfg mm)).
Proof.
  intros Hreach Hcap Hobs.
  assert (Hreach' : reachable seeded mm').
  { destruct Hobs as [Hobs | Hobs];
      [by eapply reach_observe | by eapply reach_observe_legacy]. }
  destruct (observe_either_result _ _ _ _ _ Hobs)
    as (proc & pages & g & Hp & Hrt & Hacc & Hlen & Hpf & Hws & Hcfg & Hprocs).
  eexists. split; [rewrite Hprocs; apply lookup_insert_eq|].
  assert (Hlk : processes mm' !! p = Some
            (MkProc (pid proc) (arrival proc) (burst proc) (remaining proc)
               (proc_pages_count proc) g
               (window (observe_pages
                          (MkWin (sliding_window proc) (unique_counts proc) 0) pages))
               (ema proc) (mem_signal proc) (Some obs)
               (counts (observe_pages
                          (MkWin (sliding_window proc) (unique_counts proc) 0) pages))))
    by (rewrite Hprocs; apply lookup_insert_eq).
  destruct (reachable_ok _ _ Hreach' _ _ Hlk) as (Hmax & Hw & Hc & Hm).
  rewrite Hcfg in *. cbn [sliding_window unique_counts] in *.
  specialize (Hm Hcap).
  set (ws := observe_pages (MkWin (sliding_window proc) (unique_counts proc) 0) pages) in *.
  assert (Hdom : dom (counts ws) = (list_to_set (items (window ws)) : gset Z)).
  { apply set_eq. intros page. rewrite elem_of_dom, elem_of_list_to_set.
    pose proof (Hm page) as Hpage. pose proof (occ_zero_iff page (items (window ws))) as Hz.
    unfold getc in Hpage. split.
    - intros [n Hn]. rewrite Hn in Hpage. simpl in Hpage. specialize (Hc _ _ Hn).
      destruct (decide (page ∈ items (window ws))) as [|Hnot]; [done|].
      apply Hz in Hnot. lia.
    - intros Hin. destruct (counts ws !! page) as [n|] eqn:Hn; [eauto|].
      simpl in Hpage. symmetry in Hpage. apply Hz in Hpage. done. }
  assert (Hsize : size (counts ws) = size (list_to_set (items (window ws)) : gset Z)).
  { by rewrite <- Hdom, size_dom. }
  rewrite Hws, Hsize. split; [done|].
  pose proof (size_list_to_set_le (items (window ws))) as Hle.
  unfold within_capacity in Hw. lia.
Qed.

Lemma working_set_counts_window_pages_witness :
  let obs := window3_run.1 in
  let mm' := window3_run.2 in
  reachable window3_draws window3_model
  ∧ (0 < window_access_count (cfg window3_model))%nat
  ∧ (observe_run window3_model "P" 5 = Some (obs, mm')
     ∨ observe_run_legacy window3_model "P" 5 = Some (obs, mm'))
  ∧ ∃ proc', processes mm' !! "P" = Some proc'
      ∧ working_set_size obs
        = Z.of_nat (size (list_to_set (items (sliding_window proc')) : gset Z))
      ∧ working_set_size obs ≤ Z.of_nat (window_access_count (cfg window3_model)).
Proof.
  intros obs mm'.
  assert (Hcap : (0 < window_access_count (cfg window3_model))%nat)
    by (vm_compute; lia).
  assert (Hrun : observe_run window3_model "P" 5 = Some (obs, mm')
                 ∨ observe_run_legacy window3_model "P" 5 = Some (obs, mm'))
    by (left; vm_compute; reflexivity).
  split; [exact window3_model_reachable|]. split; [exact Hcap|]. split; [exact Hrun|].
  exact (working_set_counts_window_pages window3_draws window3_model "P" 5 obs mm'
           window3_model_reachable Hcap Hrun).
Defined.

(** *** The fault average and the normalised signal *)

Lemma fraction_of (a b : Z) :
  0 ≤ a ≤ b → 0 < b → (0 <= inject_Z a / inject_Z b)%Q ∧ (inject_Z a / inject_Z b <= 1)%Q.
Proof.
  intros Ha Hb.
  assert (Hbpos : (0 < inject_Z b)%Q).
  { change 0%Q with (inject_Z 0). rewrite <- Zlt_Qlt. lia. }
  split.
  - apply Qle_shift_div_l; [done|]. rewrite Qmult_0_l.
    change 0%Q with (inject_Z 0). rewrite <- Zle_Qle. lia.
  - apply Qle_shift_div_r; [done|]. rewrite Qmult_1_l, <- Zle_Qle. lia.
Qed.

(** X16: [update_signal] on a known process replaces its fault average by
    [beta * ema + (1 - beta) * faults / accesses], every conversion and
    operation rounded to binary64 (the ratio is 0 when there is no access);
    when [beta] and the old average lie in [[0, 1]] and the observation has
    no more faults than accesses, the new average lies in [[0, 1]] too.
    Nothing else of the model changes, except that the signals are marked
    stale. *)
Theorem fault_average_stays_a_fraction mm p obs proc :
  processes mm !! p = Some proc →
  (0 <= ema_beta (cfg mm))%Q → (ema_beta (cfg mm) <= 1)%Q →
  (0 <= ema proc)%Q → (ema proc <= 1)%Q →
  0 ≤ page_faults obs ≤ accesses obs →
  ∃ mm' proc',
    update_signal mm p obs = Some mm'
    ∧ processes mm' !! p = Some proc'
    ∧ (let beta := py_float (ema_beta (cfg mm)) in
       let observed := if bool_decide (0 < accesses obs)%Z
                       then py_float (py_float (inject_Z (page_faults obs))
                                      / py_float (inject_Z (accesses obs)))
                       else 0 in
       ema proc' = py_float (py_float (beta * ema proc)
                             + py_float (py_float (1 - beta) * observed)))%Q
    ∧ (0 <= ema proc')%Q ∧ (ema proc' <= 1)%Q
    ∧ mem_signal proc' = mem_signal proc
    ∧ sliding_window proc' = sliding_window proc
    ∧ unique_counts proc' = unique_counts proc
    ∧ (∀ q, q ≠ p → processes mm' !! q = processes mm !! q)
    ∧ cfg mm' = cfg mm
    ∧ normalization_dirty mm' = true.
Proof.
  intros Hp Hb0 Hb1 He0 He1 Hpf. unfold update_signal. rewrite Hp. cbv zeta.
  eexists _, _. split; [reflexivity|]. cbn [processes cfg normalization_dirty].
  split; [apply lookup_insert_eq|]. cbn [ema mem_signal sliding_window unique_counts with_ema].
  split; [reflexivity|].
  set (o := if bool_decide (0 < accesses obs) then _ else _).
  assert (Hobs : (0 <= o)%Q ∧ (o <= 1)%Q).
  { unfold o. case_bool_decide; [by apply ratio_unit | by split]. }
  destruct Hobs as [Ho0 Ho1]. clearbody o.
  destruct (average_step_unit (ema_beta (cfg mm)) (ema proc) o) as [H0 H1]; try done.
  split; [done|]. split; [done|].
  repeat split; try done. intros q Hq. by rewrite lookup_insert_ne.
Qed.

Lemma fault_average_stays_a_fraction_witness :
  let obs := window3_run.1 in
  processes window3_model !! "P" = Some window3_proc
  ∧ (0 <= ema_beta (cfg window3_model))%Q ∧ (ema_beta (cfg window3_model) <= 1)%Q
  ∧ (0 <= ema window3_proc)%Q ∧ (ema window3_proc <= 1)%Q
  ∧ 0 ≤ page_faults obs ≤ accesses obs
  ∧ ∃ mm' proc',
      update_signal window3_model "P" obs = Some mm'
      ∧ processes mm' !! "P" = Some proc'
      ∧ (let beta := py_float (ema_beta (cfg window3_model)) in
         let observed := if bool_decide (0 < accesses obs)%Z
                         then py_float (py_float (inject_Z (page_faults obs))
                                        / py_float (inject_Z (accesses obs)))
                         else 0 in
         ema proc' = py_float (py_float (beta * ema window3_proc)
                               + py_float (py_float (1 - beta) * observed)))%Q
      ∧ (0 <= ema proc')%Q ∧ (ema proc' <= 1)%Q
      ∧ mem_signal proc' = mem_signal window3_proc
      ∧ sliding_window proc' = sliding_window window3_proc
      ∧ unique_counts proc' = unique_counts window3_proc
      ∧ (∀ q, q ≠ "P" → processes mm' !! q = processes window3_model !! q)
      ∧ cfg mm' = cfg window3_model
      ∧ normalization_dirty mm' = true.
Proof.
  intros obs.
  assert (Hp : processes window3_model !! "P" = Some window3_proc)
    by (vm_compute; reflexivity).
  assert (Hb0 : (0 <= ema_beta (cfg window3_model))%Q) by (vm_compute; discriminate).
  assert (Hb1 : (ema_beta (cfg window3_model) <= 1)%Q) by (vm_compute; discriminate).
  assert (He0 : (0 <= ema window3_proc)%Q) by (vm_compute; discriminate).
  assert (He1 : (ema window3_proc <= 1)%Q) by (vm_compute; discriminate).
  assert (Hpf : 0 ≤ page_faults obs ≤ accesses obs) by (vm_compute; split; discriminate).
  repeat (split; [assumption|]).
  exact (fault_average_stays_a_fraction window3_model "P" obs window3_proc
           Hp Hb0 Hb1 He0 He1 Hpf).
Defined.

(** On the example (beta 0.85, old average 0, 4 faults in 5 accesses) the
    new average is the binary64 number that Python prints as
    0.12000000000000002. *)
Example fault_average_example :
  (update_signal window3_model "P" window3_run.1 ≫= fun mm' =>
     ema <$> processes mm' !! "P")
  = Some (4323455642275677 # 36028797018963968)%Q.
Proof. vm_compute. reflexivity. Qed.

Lemma max_or_zero_upper (l : list Q) : Forall (fun x => (x <= max_or_zero l)%Q) l.
Proof.
  destruct l as [|x rest]; [constructor|]. unfold max_or_zero.
  assert (Hgen : ∀ rest cur,
            (cur <= foldl (fun cur y => if Qle_bool y cur then cur else y) cur rest)%Q
            ∧ Forall (fun y => (y <= foldl (fun cur y => if Qle_bool y cur then cur else y)
                                          cur rest)%Q) rest).
  { clear. induction rest as [|y rest IH]; intros cur; cbn [foldl].
    - split; [apply Qle_refl | constructor].
    - destruct (IH (if Qle_bool y cur then cur else y)) as [Hcur Hall].
      destruct (Qle_bool y cur) eqn:Hle.
      + apply Qle_bool_iff in Hle. split; [done|]. constructor; [lra | done].
      + assert (Hlt : (cur < y)%Q).
        { apply Qnot_le_lt. intros H. apply Qle_bool_iff in H. congruence. }
        split; [lra|]. constructor; [done | done]. }
  destruct (Hgen rest x) as [Hx Hall]. by constructor.
Qed.

Lemma max_or_zero_nonneg (l : list Q) :
  Forall (fun x => (0 <= x)%Q) l → (0 <= max_or_zero l)%Q.
Proof.
  intros Hall. destruct l as [|x rest]; [done|].
  pose proof (max_or_zero_upper (x :: rest)) as Hup.
  apply Forall_inv in Hup. apply Forall_inv in Hall. lra.
Qed.

(** X17: after [recompute_normalization] on a model whose signals are
    stale, with fault averages and [normalization_eps] not negative, every
    process has a signal in [[0, 1]]; the processes, their averages and
    their windows are unchanged, the signals are no longer stale, and a
    second call changes nothing. *)
Theorem normalised_signal_is_a_fraction mm :
  normalization_dirty mm = true →
  (0 <= normalization_eps (cfg mm))%Q →
  (∀ p proc, processes mm !! p = Some proc → (0 <= ema proc)%Q) →
  normalization_dirty (recompute_normalization mm) = false
  ∧ recompute_normalization (recompute_normalization mm) = recompute_normalization mm
  ∧ cfg (recompute_normalization mm) = cfg mm
  ∧ (∀ p, is_Some (processes (recompute_normalization mm) !! p)
          ↔ is_Some (processes mm !! p))
  ∧ ∀ p proc', processes (recompute_normalization mm) !! p = Some proc' →
      (0 <= mem_signal proc')%Q ∧ (mem_signal proc' <= 1)%Q
      ∧ ∃ proc, processes mm !! p = Some proc ∧ ema proc' = ema proc
          ∧ sliding_window proc' = sliding_window proc.
Proof.
  intros Hdirty Heps Hema.
  assert (Hrec : ∃ procs', recompute_normalization mm
                           = MkModel (cfg mm) (global_rng mm) procs' false
                           ∧ procs' = (fun proc =>
                               with_signal proc
                                 (if Qle_bool
                                       (max_or_zero ((fun kv => ema kv.2)
                                                       <$> map_to_list (processes mm)))
                                       (normalization_eps (cfg mm))
                                  then 0%Q
                                  else (ema proc
                                        / max_or_zero ((fun kv => ema kv.2)
                                                         <$> map_to_list (processes mm)))%Q))
                               <$> processes mm).
  { eexists. split; [|reflexivity]. unfold recompute_normalization. by rewrite Hdirty. }
  destruct Hrec as (procs' & -> & Hprocs).
  cbn [normalization_dirty cfg processes].
  split; [done|]. split; [done|]. split; [done|]. rewrite Hprocs. split.
  { intros p. rewrite lookup_fmap. by rewrite fmap_is_Some. }
  intros p proc'. rewrite lookup_fmap.
  destruct (processes mm !! p) as [proc|] eqn:Hp; [|done]. cbn. intros [= <-].
  cbn [mem_signal ema sliding_window with_signal].
  set (maxv := max_or_zero _).
  assert (Hle : (ema proc <= maxv)%Q).
  { pose proof (max_or_zero_upper ((fun kv => ema kv.2) <$> map_to_list (processes mm)))
      as Hup.
    rewrite Forall_forall in Hup. apply Hup.
    apply list_elem_of_fmap. exists (p, proc). split; [done|].
    by apply elem_of_map_to_list. }
  pose proof (Hema p proc Hp) as He0.
  assert (Hsig : (0 <= (if Qle_bool maxv (normalization_eps (cfg mm)) then 0
                        else ema proc / maxv))%Q
                 ∧ ((if Qle_bool maxv (normalization_eps (cfg mm)) then 0
                     else ema proc / maxv) <= 1)%Q).
  { destruct (Qle_bool maxv (normalization_eps (cfg mm))) eqn:Hcmp; [by split|].
    assert (Hpos : (0 < maxv)%Q).
    { apply Qle_lt_trans with (normalization_eps (cfg mm)); [done|].
      apply Qnot_le_lt. intros H. apply Qle_bool_iff in H. congruence. }
    split.
    - apply Qle_shift_div_l; [done | lra].
    - apply Qle_shift_div_r; [done | lra]. }
  destruct Hsig as [Hs0 Hs1]. split; [done|]. split; [done|]. by exists proc.
Qed.

Lemma normalised_signal_is_a_fraction_witness :
  let mm' := recompute_normalization window3_model in
  normalization_dirty window3_model = true
  ∧ (0 <= normalization_eps (cfg window3_model))%Q
  ∧ (∀ p proc, processes window3_model !! p = Some proc → (0 <= ema proc)%Q)
  ∧ normalization_dirty mm' = false
  ∧ recompute_normalization mm' = mm'
  ∧ cfg mm' = cfg window3_model
  ∧ (∀ p, is_Some (processes mm' !! p) ↔ is_Some (processes window3_model !! p))
  ∧ ∀ p proc', processes mm' !! p = Some proc' →
      (0 <= mem_signal proc')%Q ∧ (mem_signal proc' <= 1)%Q
      ∧ ∃ proc, processes window3_model !! p = Some proc ∧ ema proc' = ema proc
          ∧ sliding_window proc' = sliding_window proc.
Proof.
  intros mm'.
  assert (Hdirty : normalization_dirty window3_model = true) by reflexivity.
  assert (Heps : (0 <= normalization_eps (cfg window3_model))%Q)
    by (vm_compute; discriminate).
  assert (Hema : ∀ p proc, processes window3_model !! p = Some proc → (0 <= ema proc)%Q).
  { intros p proc. unfold window3_model. rewrite create_process_processes.
    rewrite lookup_insert_Some. intros [[_ <-] | [_ H]]; [vm_compute; discriminate|].
    simpl in H. by rewrite lookup_empty in H. }
  repeat (split; [assumption|]).
  exact (normalised_signal_is_a_fraction window3_model Hdirty Heps Hema).
Defined.

(** *** The quantum and the memory estimate derived from the signal *)

Lemma quantum_value_between (bq : Z) (gain m : Q) :
  1 ≤ bq → (0 <= gain)%Q → (0 <= m)%Q → (m <= 1)%Q →
  bq ≤ Z.max 1 (py_round (inject_Z bq * (1 + gain * m)))
     ≤ py_round (inject_Z bq * (1 + gain)).
Proof.
  intros Hbq Hk Hs0 Hs1.
  assert (Hb : (1 <= inject_Z bq)%Q).
  { change 1%Q with (inject_Z 1). rewrite <- Zle_Qle. lia. }
  assert (Hkm0 : (0 <= gain * m)%Q) by nra.
  assert (Hkm1 : (gain * m <= gain)%Q) by nra.
  assert (Hlo : bq ≤ py_round (inject_Z bq * (1 + gain * m))).
  { rewrite <- (py_round_inject_Z bq) at 1. apply py_round_mono.
    set (km := (gain * m)%Q) in *. nra. }
  assert (Hhi : py_round (inject_Z bq * (1 + gain * m))
                ≤ py_round (inject_Z bq * (1 + gain))).
  { apply py_round_mono. set (km := (gain * m)%Q) in *. nra. }
  lia.
Qed.

Lemma estimate_value_between (lo hi : Z) (m : Q) :
  lo ≤ hi → (0 <= m)%Q → (m <= 1)%Q →
  lo ≤ py_round (inject_Z lo + m * inject_Z (hi - lo)) ≤ hi.
Proof.
  intros Hmm Hs0 Hs1.
  assert (Hd : (0 <= inject_Z (hi - lo))%Q).
  { change 0%Q with (inject_Z 0). rewrite <- Zle_Qle. lia. }
  assert (Hsum : (inject_Z lo + inject_Z (hi - lo) == inject_Z hi)%Q).
  { rewrite <- inject_Z_plus. by replace (lo + (hi - lo)) with hi by lia. }
  pose proof (py_round_mono (inject_Z lo) (inject_Z lo + m * inject_Z (hi - lo))) as H1.
  pose proof (py_round_mono (inject_Z lo + m * inject_Z (hi - lo)) (inject_Z hi)) as H2.
  rewrite py_round_inject_Z in H1, H2. split; [apply H1 | apply H2]; nra.
Qed.



(** X19: for a known process with signal in [[0, 1]] and
    [min_memory_mb <= max_memory_mb], [get_estimated_memory_mb] returns an
    estimate between the two bounds: the lower one for a signal of 0, the
    upper one for a signal of 1. *)
Theorem estimated_memory_between mm p proc :
  processes mm !! p = Some proc →
  (0 <= mem_signal proc)%Q → (mem_signal proc <= 1)%Q →
  min_memory_mb (cfg mm) ≤ max_memory_mb (cfg mm) →
  ∃ est, get_estimated_memory_mb mm p = Some est
    ∧ min_memory_mb (cfg mm) ≤ est ≤ max_memory_mb (cfg mm)
    ∧ ((mem_signal proc == 0)%Q → est = min_memory_mb (cfg mm))
    ∧ ((mem_signal proc == 1)%Q → est = max_memory_mb (cfg mm)).
Proof.
  intros Hp Hs0 Hs1 Hmm. unfold get_estimated_memory_mb. rewrite Hp. cbn.
  eexists. split; [reflexivity|].
  set (lo := min_memory_mb (cfg mm)) in *. set (hi := max_memory_mb (cfg mm)) in *.
  assert (Hsum : (inject_Z lo + inject_Z (hi - lo) == inject_Z hi)%Q).
  { rewrite <- inject_Z_plus. by replace (lo + (hi - lo)) with hi by lia. }
  split; [by apply estimate_value_between | split].
  - intros Hz. rewrite (py_round_Qeq _ (inject_Z lo)); [apply py_round_inject_Z|].
    rewrite Hz. ring.
  - intros Hone. rewrite (py_round_Qeq _ (inject_Z hi)); [apply py_round_inject_Z|].
    rewrite Hone, <- Hsum. ring.
Qed.

Lemma estimated_memory_between_witness :
  processes window3_model !! "P" = Some window3_proc
  ∧ (0 <= mem_signal window3_proc)%Q ∧ (mem_signal window3_proc <= 1)%Q
  ∧ min_memory_mb (cfg window3_model) ≤ max_memory_mb (cfg window3_model)
  ∧ ∃ est, get_estimated_memory_mb window3_model "P" = Some est
      ∧ min_memory_mb (cfg window3_model) ≤ est ≤ max_memory_mb (cfg window3_model)
      ∧ ((mem_signal window3_proc == 0)%Q → est = min_memory_mb (cfg window3_model))
      ∧ ((mem_signal window3_proc == 1)%Q → est = max_memory_mb (cfg window3_model)).
Proof.
  assert (Hp : processes window3_model !! "P" = Some window3_proc)
    by (vm_compute; reflexivity).
  assert (Hs0 : (0 <= mem_signal window3_proc)%Q) by (vm_compute; discriminate).
  assert (Hs1 : (mem_signal window3_proc <= 1)%Q) by (vm_compute; discriminate).
  assert (Hmm : min_memory_mb (cfg window3_model) ≤ max_memory_mb (cfg window3_model))
    by (vm_compute; discriminate).
  repeat (split; [assumption|]).
  exact (estimated_memory_between window3_model "P" window3_proc Hp Hs0 Hs1 Hmm).
Defined.

(** *** What the adaptation rounds preserve *)

(** The configuration is [c0], and every fault average and every signal is
    a fraction. *)
Definition healthy (c0 : MemoryModelConfig) (mm : MemoryModel) : Prop :=
  cfg mm = c0
  ∧ ∀ p proc, processes mm !! p = Some proc →
      ((0 <= ema proc)%Q ∧ (ema proc <= 1)%Q)
      ∧ ((0 <= mem_signal proc)%Q ∧ (mem_signal proc <= 1)%Q).

Definition good_config (c0 : MemoryModelConfig) : Prop :=
  ((0 <= ema_beta c0)%Q ∧ (ema_beta c0 <= 1)%Q) ∧ (0 <= normalization_eps c0)%Q.

Lemma healthy_new seeded fresh c0 : healthy c0 (new_model seeded fresh c0).
Proof. split; [done|]. intros p proc. simpl. by rewrite lookup_empty. Qed.

Lemma healthy_insert c0 mm p proc' r d :
  healthy c0 mm →
  ((0 <= ema proc')%Q ∧ (ema proc' <= 1)%Q)
  ∧ ((0 <= mem_signal proc')%Q ∧ (mem_signal proc' <= 1)%Q) →
  healthy c0 (MkModel (cfg mm) r (<[p := proc']> (processes mm)) d).
Proof.
  intros [Hcfg Hall] Hnew. split; [done|]. intros q proc. cbn [processes].
  rewrite lookup_insert_Some. intros [[_ <-] | [_ Hq]]; [done | by eapply Hall].
Qed.

Lemma healthy_create seeded c0 mm p a b pc pat :
  healthy c0 mm →
  healthy c0 (create_process seeded mm p a b pc pat).2
  ∧ dom (processes (create_process seeded mm p a b pc pat).2) = {[p]} ∪ dom (processes mm).
Proof.
  intros Hh. unfold create_process. destruct (randint _ _ _) as [seed g']. cbn [snd].
  split; [|cbn [processes]; apply dom_insert_L].
  apply healthy_insert; [done|]. cbn. done.
Qed.

Lemma healthy_create_legacy c0 mm p a b pc pat :
  healthy c0 mm →
  healthy c0 (create_process_legacy mm p a b pc pat).2
  ∧ dom (processes (create_process_legacy mm p a b pc pat).2) = {[p]} ∪ dom (processes mm).
Proof.
  intros Hh. unfold create_process_legacy. cbn [snd].
  split; [|cbn [processes]; apply dom_insert_L].
  apply healthy_insert; [done|]. cbn. done.
Qed.

Lemma observe_run_legacy_total mm p rt :
  is_Some (processes mm !! p) → is_Some (observe_run_legacy mm p rt).
Proof.
  intros [proc Hp]. unfold observe_run_legacy. rewrite Hp.
  destruct (next_n _ _) as [pages g]. eauto.
Qed.

Lemma healthy_observe c0 mm p rt obs mm' :
  healthy c0 mm →
  observe_run mm p rt = Some (obs, mm') ∨ observe_run_legacy mm p rt = Some (obs, mm') →
  healthy c0 mm'
  ∧ dom (processes mm') = dom (processes mm)
  ∧ 0 ≤ page_faults obs ≤ accesses obs.
Proof.
  intros Hh Hobs.
  destruct (observe_either_result _ _ _ _ _ Hobs)
    as (proc & pages & g & Hp & Hrt & Hacc & Hlen & Hpf & Hws & Hcfg & Hprocs).
  pose proof (observe_pages_faults pages (MkWin (sliding_window proc) (unique_counts proc) 0))
    as Hf. cbn [faults] in Hf.
  destruct Hh as [Hc Hall]. split; [|split; [|lia]].
  - split; [congruence|]. intros q proc'. rewrite Hprocs, lookup_insert_Some.
    intros [[_ <-] | [_ Hq]]; [|by eapply Hall]. cbn [ema mem_signal]. by eapply Hall.
  - rewrite Hprocs. apply dom_insert_lookup_L. by rewrite Hp.
Qed.

Lemma healthy_update c0 mm p obs :
  good_config c0 → healthy c0 mm → is_Some (processes mm !! p) →
  0 ≤ page_faults obs ≤ accesses obs →
  ∃ mm', update_signal mm p obs = Some mm'
    ∧ healthy c0 mm' ∧ dom (processes mm') = dom (processes mm).
Proof.
  intros [[Hb0 Hb1] _] Hh [proc Hp] Hpf. unfold update_signal. rewrite Hp. cbv zeta.
  eexists. split; [reflexivity|]. cbn [processes].
  split; [|apply dom_insert_lookup_L; by rewrite Hp].
  destruct (proj2 Hh p proc Hp) as [[He0 He1] Hsig].
  apply healthy_insert; [done|]. cbn [ema mem_signal with_ema]. split; [|done].
  rewrite <- (proj1 Hh) in Hb0, Hb1.
  set (o := if bool_decide (0 < accesses obs) then _ else _).
  assert (Hobs : (0 <= o)%Q ∧ (o <= 1)%Q).
  { unfold o. case_bool_decide; [by apply ratio_unit | by split]. }
  destruct Hobs as [Ho0 Ho1]. clearbody o.
  by apply average_step_unit.
Qed.

Lemma healthy_recompute c0 mm :
  good_config c0 → healthy c0 mm →
  healthy c0 (recompute_normalization mm)
  ∧ dom (processes (recompute_normalization mm)) = dom (processes mm).
Proof.
  intros [_ Heps] [Hcfg Hall]. unfold recompute_normalization.
  destruct (normalization_dirty mm); cbn [negb]; [|by split]. cbv zeta.
  cbn [processes]. split; [|apply dom_fmap_L].
  split; [done|]. intros p proc'. cbn [processes]. rewrite lookup_fmap.
  destruct (processes mm !! p) as [proc|] eqn:Hp; [|done]. cbn. intros [= <-].
  cbn [mem_signal ema with_signal].
  destruct (Hall p proc Hp) as [[He0 He1] _]. split; [done|].
  set (maxv := max_or_zero _).
  assert (Hle : (ema proc <= maxv)%Q).
  { pose proof (max_or_zero_upper ((fun kv => ema kv.2) <$> map_to_list (processes mm)))
      as Hup.
    rewrite Forall_forall in Hup. apply Hup.
    apply list_elem_of_fmap. exists (p, proc). split; [done|].
    by apply elem_of_map_to_list. }
  rewrite Hcfg.
  destruct (Qle_bool maxv (normalization_eps c0)) eqn:Hcmp; [by split|].
  assert (Hpos : (0 < maxv)%Q).
  { apply Qle_lt_trans with (normalization_eps c0); [done|].
    apply Qnot_le_lt. intros H. apply Qle_bool_iff in H. congruence. }
  split.
  - apply Qle_shift_div_l; [done | lra].
  - apply Qle_shift_div_r; [done | lra].
Qed.

End PagingMore.

(** ** The memory-aware drivers *)

Module DriverMore.
Import RR Metrics RRFacts Rand Paging PagingFacts PagingMore Scenario.

Lemma randint_draws a b r : draws (randint a b r).2 = draws r.
Proof. done. Qed.

Lemma randint_range a b r :
  unit_draws (draws r) → a ≤ b → a ≤ (randint a b r).1 ≤ b.
Proof.
  intros Hu Hab. unfold randint, random. cbn [fst].
  destruct (Hu (pos r)) as [H0 H1].
  pose proof (py_int_unit_scale (draws r (pos r)) (b - a + 1) H0 H1 ltac:(lia)) as Hs.
  unfold py_int in Hs.
  assert (Hy : (0 <= draws r (pos r) * inject_Z (b - a + 1))%Q).
  { apply Qmult_le_0_compat; [done|]. change 0%Q with (inject_Z 0).
    rewrite <- Zle_Qle. lia. }
  rewrite (proj2 (Qle_bool_iff _ _) Hy) in Hs. lia.
Qed.

(** [{p: f(p) for p in processes}]: the keys are the listed ids. *)
Lemma collect_spec {A} (f : string → option A) (pids : list string) :
  (∀ p, p ∈ pids → is_Some (f p)) →
  ∃ m, collect f pids = Some m
    ∧ ∀ p, m !! p = if decide (p ∈ pids) then f p else None.
Proof.
  unfold collect.
  assert (Hgen : ∀ (m0 : gmap string A),
            (∀ p, p ∈ pids → is_Some (f p)) →
            ∃ m, foldl (fun acc p => m ← acc; v ← f p; Some (<[p := v]> m)) (Some m0) pids
                 = Some m
              ∧ ∀ p, m !! p = if decide (p ∈ pids) then f p else m0 !! p).
  { induction pids as [|x l IH]; intros m0 Hall; cbn [foldl].
    - exists m0. split; [done|]. intros p. rewrite decide_False; [done|].
      apply not_elem_of_nil.
    - destruct (Hall x ltac:(by left)) as [v Hv]. rewrite Hv. cbn [mbind option_bind].
      destruct (IH (<[x := v]> m0)) as (m & Hm & Hlk).
      { intros p Hp. apply Hall. by right. }
      exists m. split; [done|]. intros p. rewrite Hlk.
      destruct (decide (p ∈ l)) as [Hin | Hnin].
      + rewrite decide_True; [done | by right].
      + destruct (decide (p = x)) as [-> | Hne].
        * rewrite lookup_insert_eq, decide_True; [done | by left].
        * rewrite lookup_insert_ne by done. rewrite decide_False; [done|].
          rewrite elem_of_cons. tauto. }
  intros Hall. destruct (Hgen ∅ Hall) as (m & Hm & Hlk). exists m. split; [done|].
  intros p. rewrite Hlk. case_decide; [done | apply lookup_empty].
Qed.

(** *** Creation of the processes *)

Lemma create_one_ok seeded c0 mm gcr (p : ProcessInput) :
  healthy c0 mm → unit_draws (draws gcr) →
  ∃ mm' gcr', create_one seeded (Some (mm, gcr)) p = Some (mm', gcr')
    ∧ healthy c0 mm' ∧ unit_draws (draws gcr')
    ∧ dom (Paging.processes mm') = {[pid p]} ∪ dom (Paging.processes mm).
Proof.
  intros Hh Hu. unfold create_one. cbn [mbind option_bind]. cbv zeta.
  set (first := if _ || _ then randint 4 24 gcr else (default 0 (pages_count p), gcr)).
  assert (Hu1 : unit_draws (draws first.2)).
  { unfold first. by destruct (_ || _). }
  destruct first as [pages gcr1]. cbn [snd] in Hu1.
  pose proof (randint_range 0 (Z.of_nat (length patterns) - 1) gcr1 Hu1 ltac:(simpl; lia))
    as Hi.
  pose proof (randint_draws 0 (Z.of_nat (length patterns) - 1) gcr1) as Hd.
  destruct (randint 0 (Z.of_nat (length patterns) - 1) gcr1) as [i gcr2].
  cbn [fst snd] in Hi, Hd. rewrite bool_decide_true by lia.
  destruct (lookup_lt_is_Some_2 patterns (Z.to_nat i)) as [patt Hpatt]; [simpl in *; lia|].
  rewrite Hpatt. cbn [mbind option_bind].
  eexists _, _. split; [reflexivity|].
  destruct (healthy_create seeded c0 mm (pid p) (inject_Z (arrival_time p))
              (inject_Z (burst_time p)) pages (Some patt) Hh) as [Hh' Hdom].
  split; [done|]. split; [by rewrite Hd | done].
Qed.

Lemma create_all_ok seeded c0 (l : list ProcessInput) : ∀ mm gcr,
  healthy c0 mm → unit_draws (draws gcr) →
  ∃ mm' gcr', foldl (create_one seeded) (Some (mm, gcr)) l = Some (mm', gcr')
    ∧ healthy c0 mm'
    ∧ dom (Paging.processes mm') = list_to_set (pid <$> l) ∪ dom (Paging.processes mm).
Proof.
  induction l as [|p l IH]; intros mm gcr Hh Hu; cbn [foldl].
  - eexists _, _. split; [reflexivity|]. split; [done|].
    cbn. by rewrite (left_id_L ∅ (∪)).
  - destruct (create_one_ok seeded c0 mm gcr p Hh Hu) as (mm1 & gcr1 & -> & Hh1 & Hu1 & Hd1).
    destruct (IH mm1 gcr1 Hh1 Hu1) as (mm' & gcr' & Hf & Hh' & Hd').
    eexists _, _. split; [exact Hf|]. split; [done|].
    rewrite Hd', Hd1, fmap_cons, list_to_set_cons.
    rewrite (assoc_L (∪)). f_equal. apply (comm_L (∪)).
Qed.

Lemma create_all_generic_ok c0 (f : MemoryModel → ProcessInput → MemoryModel)
    (l : list ProcessInput) :
  (∀ mm p, healthy c0 mm →
     healthy c0 (f mm p)
     ∧ dom (Paging.processes (f mm p)) = {[pid p]} ∪ dom (Paging.processes mm)) →
  ∀ mm, healthy c0 mm →
    healthy c0 (foldl f mm l)
    ∧ dom (Paging.processes (foldl f mm l))
      = list_to_set (pid <$> l) ∪ dom (Paging.processes mm).
Proof.
  intros Hf. induction l as [|p l IH]; intros mm Hh; cbn [foldl].
  - split; [done|]. cbn. by rewrite (left_id_L ∅ (∪)).
  - destruct (Hf mm p Hh) as [Hh1 Hd1]. destruct (IH _ Hh1) as [Hh' Hd'].
    split; [done|]. rewrite Hd', Hd1, fmap_cons, list_to_set_cons.
    rewrite (assoc_L (∪)). f_equal. apply (comm_L (∪)).
Qed.

(** *** The adaptation rounds *)

Section Rounds.
Variables (c0 : MemoryModelConfig) (bq : Z).
Variable step : Z → option MemoryModel → string → option MemoryModel.
Hypothesis Hgood : good_config c0.
Hypothesis step_ok : ∀ mm p,
  healthy c0 mm → p ∈ dom (Paging.processes mm) →
  ∃ mm', step bq (Some mm) p = Some mm'
    ∧ healthy c0 mm' ∧ dom (Paging.processes mm') = dom (Paging.processes mm).

Lemma steps_ok (pids : list string) : ∀ mm,
  healthy c0 mm → (∀ p, p ∈ pids → p ∈ dom (Paging.processes mm)) →
  ∃ mm', foldl (step bq) (Some mm) pids = Some mm'
    ∧ healthy c0 mm' ∧ dom (Paging.processes mm') = dom (Paging.processes mm).
Proof.
  induction pids as [|p pids IH]; intros mm Hh Hin; cbn [foldl].
  - by exists mm.
  - destruct (step_ok mm p Hh (Hin p ltac:(by left))) as (mm1 & -> & Hh1 & Hd1).
    destruct (IH mm1 Hh1) as (mm' & Hf & Hh' & Hd').
    { intros q Hq. rewrite Hd1. apply Hin. by right. }
    exists mm'. split; [done|]. split; [done | congruence].
Qed.

Lemma rounds_ok (pids : list string) (n : nat) : ∀ mm,
  healthy c0 mm → (∀ p, p ∈ pids → p ∈ dom (Paging.processes mm)) →
  ∃ mm', Nat.iter n (fun acc => recompute_normalization <$> foldl (step bq) acc pids)
           (Some mm) = Some mm'
    ∧ healthy c0 mm' ∧ dom (Paging.processes mm') = dom (Paging.processes mm).
Proof.
  induction n as [|n IH]; intros mm Hh Hin; cbn [Nat.iter nat_rect].
  - by exists mm.
  - destruct (IH mm Hh Hin) as (mm1 & Hit & Hh1 & Hd1). unfold Nat.iter in Hit.
    rewrite Hit.
    destruct (steps_ok pids mm1 Hh1) as (mm2 & -> & Hh2 & Hd2).
    { intros q Hq. rewrite Hd1. by apply Hin. }
    destruct (healthy_recompute c0 mm2 Hgood Hh2) as [Hh3 Hd3].
    eexists. split; [reflexivity|]. split; [done | congruence].
Qed.
End Rounds.

Lemma known_process mm p : p ∈ dom (Paging.processes mm) → is_Some (Paging.processes mm !! p).
Proof. by rewrite elem_of_dom. Qed.

Lemma adapt_one_ok c0 bq mm p :
  good_config c0 → healthy c0 mm → p ∈ dom (Paging.processes mm) →
  ∃ mm', adapt_one bq (Some mm) p = Some mm'
    ∧ healthy c0 mm' ∧ dom (Paging.processes mm') = dom (Paging.processes mm).
Proof.
  intros Hgood Hh Hin. pose proof (known_process _ _ Hin) as [proc Hp].
  unfold adapt_one. cbn [mbind option_bind].
  unfold get_effective_quantum at 1. rewrite Hp. cbn [mbind option_bind].
  match goal with
  | |- context [observe_run mm p ?rt] =>
      destruct (observe_run_total mm p rt ltac:(eauto)) as [[obs mm1] Hobs];
      rewrite Hobs;
      destruct (healthy_observe c0 mm p rt obs mm1 Hh (or_introl Hobs)) as (Hh1 & Hd1 & Hpf)
  end.
  cbn [mbind option_bind].
  destruct (healthy_update c0 mm1 p obs Hgood Hh1) as (mm' & Hupd & Hh' & Hd'); [|done|].
  { apply known_process. by rewrite Hd1. }
  exists mm'. split; [done|]. split; [done | congruence].
Qed.

Lemma adapt_one_legacy_ok c0 bq mm p :
  good_config c0 → healthy c0 mm → p ∈ dom (Paging.processes mm) →
  ∃ mm', adapt_one_legacy bq (Some mm) p = Some mm'
    ∧ healthy c0 mm' ∧ dom (Paging.processes mm') = dom (Paging.processes mm).
Proof.
  intros Hgood Hh Hin. pose proof (known_process _ _ Hin) as [proc Hp].
  unfold adapt_one_legacy. cbn [mbind option_bind].
  unfold get_effective_quantum at 1. rewrite Hp. cbn [mbind option_bind].
  match goal with
  | |- context [observe_run_legacy mm p ?rt] =>
      destruct (observe_run_legacy_total mm p rt ltac:(eauto)) as [[obs mm1] Hobs];
      rewrite Hobs;
      destruct (healthy_observe c0 mm p rt obs mm1 Hh (or_intror Hobs)) as (Hh1 & Hd1 & Hpf)
  end.
  cbn [mbind option_bind].
  destruct (healthy_update c0 mm1 p obs Hgood Hh1) as (mm' & Hupd & Hh' & Hd'); [|done|].
  { apply known_process. by rewrite Hd1. }
  exists mm'. split; [done|]. split; [done | congruence].
Qed.

(** *** The frozen quanta and the estimates *)

Lemma default_config_good bq seed : good_config (default_config bq seed).
Proof. by repeat split. Qed.

Lemma double_quantum (bq : Z) : py_round (inject_Z bq * (1 + 1)) = 2 * bq.
Proof.
  rewrite (py_round_Qeq _ (inject_Z (2 * bq))); [apply py_round_inject_Z|].
  rewrite inject_Z_mult. change (inject_Z 2) with (2 # 1)%Q. ring.
Qed.

Lemma quanta_collected bq seed mm (pids : list string) :
  healthy (default_config bq seed) mm →
  (∀ p, p ∈ pids → p ∈ dom (Paging.processes mm)) → 1 ≤ bq →
  ∃ mq, collect (fun p => get_effective_quantum mm p bq) pids = Some mq
    ∧ (∀ p, is_Some (mq !! p) ↔ p ∈ pids)
    ∧ ∀ p q, mq !! p = Some q → bq ≤ q ≤ 2 * bq.
Proof.
  intros [Hcfg Hall] Hin Hbq.
  assert (Hval : ∀ p, p ∈ pids →
            ∃ q, get_effective_quantum mm p bq = Some q ∧ bq ≤ q ≤ 2 * bq).
  { intros p Hp. destruct (known_process _ _ (Hin p Hp)) as [proc Hproc].
    unfold get_effective_quantum. rewrite Hproc. cbn [mbind option_bind].
    eexists. split; [reflexivity|].
    destruct (Hall p proc Hproc) as [_ [Hs0 Hs1]]. rewrite Hcfg. cbn [k default_config].
    pose proof (quantum_value_between bq 1 (mem_signal proc) Hbq ltac:(done) Hs0 Hs1) as Hq.
    rewrite double_quantum in Hq. exact Hq. }
  destruct (collect_spec (fun p => get_effective_quantum mm p bq) pids) as (mq & Hmq & Hlk).
  { intros p Hp. destruct (Hval p Hp) as (q & -> & _). eauto. }
  exists mq. split; [done|]. split.
  - intros p. rewrite Hlk. case_decide as Hp; [|split; [by intros [? ?] | done]].
    destruct (Hval p Hp) as (q & -> & _). split; eauto.
  - intros p q. rewrite Hlk. case_decide as Hp; [|done].
    destruct (Hval p Hp) as (q' & -> & Hq'). by intros [= <-].
Qed.

Lemma estimates_collected bq seed mm (pids : list string) :
  healthy (default_config bq seed) mm →
  (∀ p, p ∈ pids → p ∈ dom (Paging.processes mm)) →
  ∃ me, collect (get_estimated_memory_mb mm) pids = Some me
    ∧ (∀ p, is_Some (me !! p) ↔ p ∈ pids)
    ∧ ∀ p est, me !! p = Some est → 8 ≤ est ≤ 320.
Proof.
  intros [Hcfg Hall] Hin.
  assert (Hval : ∀ p, p ∈ pids →
            ∃ est, get_estimated_memory_mb mm p = Some est ∧ 8 ≤ est ≤ 320).
  { intros p Hp. destruct (known_process _ _ (Hin p Hp)) as [proc Hproc].
    unfold get_estimated_memory_mb. rewrite Hproc. cbn [mbind option_bind].
    eexists. split; [reflexivity|].
    destruct (Hall p proc Hproc) as [_ [Hs0 Hs1]]. rewrite Hcfg.
    cbn [min_memory_mb max_memory_mb default_config].
    exact (estimate_value_between 8 320 (mem_signal proc) ltac:(lia) Hs0 Hs1). }
  destruct (collect_spec (get_estimated_memory_mb mm) pids) as (me & Hme & Hlk).
  { intros p Hp. destruct (Hval p Hp) as (est & -> & _). eauto. }
  exists me. split; [done|]. split.
  - intros p. rewrite Hlk. case_decide as Hp; [|split; [by intros [? ?] | done]].
    destruct (Hval p Hp) as (est & -> & _). split; eauto.
  - intros p est. rewrite Hlk. case_decide as Hp; [|done].
    destruct (Hval p Hp) as (est' & -> & Hest'). by intros [= <-].
Qed.

Lemma pids_created (c : SystemConfig) (X : gset string) p :
  p ∈ pids_of c → p ∈ (list_to_set (pid <$> processes c) ∪ X : gset string).
Proof. intros Hp. apply elem_of_union. left. by apply elem_of_list_to_set. Qed.

(** The same for whatever seed reaches [MemoryModelConfig]. *)
Lemma memory_aware_run_bounded seeded fresh_model fresh_choice seed (c : SystemConfig) :
  (∀ s, unit_draws (seeded s)) → unit_draws fresh_choice → 1 ≤ cpu_quantum c →
  ∃ r, memory_aware_run seeded fresh_model fresh_choice seed c = Some r
    ∧ (∀ p, is_Some (inferred_quanta r !! p) ↔ p ∈ pids_of c)
    ∧ (∀ p q, inferred_quanta r !! p = Some q → cpu_quantum c ≤ q ≤ 2 * cpu_quantum c)
    ∧ (∀ p, is_Some (memory_estimates r !! p) ↔ p ∈ pids_of c)
    ∧ (∀ p est, memory_estimates r !! p = Some est → 8 ≤ est ≤ 320).
Proof.
  intros Hseeded Hfresh Hbq. unfold memory_aware_run. cbv zeta.
  set (bq := cpu_quantum c) in *.
  set (c0 := default_config bq seed).
  destruct (create_all_ok seeded c0 (processes c) (new_model seeded fresh_model c0)
              (Rand.make seeded fresh_choice
                 (Paging.rng_seed (cfg (new_model seeded fresh_model c0)))))
    as (mm1 & gcr' & Hcreate & Hh1 & Hd1).
  { apply healthy_new. }
  { cbn. destruct seed; cbn; [apply Hseeded | apply Hfresh]. }
  rewrite Hcreate. cbn [mbind option_bind].
  destruct (rounds_ok c0 bq adapt_one (default_config_good _ _)
              (fun mm p => adapt_one_ok c0 bq mm p (default_config_good _ _))
              (pids_of c) iterations mm1 Hh1) as (mm & Hrounds & Hh & Hd).
  { intros p Hp. rewrite Hd1. by apply pids_created. }
  change (Nat.iter iterations (adapt_round bq (pids_of c)) (Some mm1) = Some mm) in Hrounds.
  rewrite Hrounds. cbn [mbind option_bind].
  assert (Hin : ∀ p, p ∈ pids_of c → p ∈ dom (Paging.processes mm)).
  { intros p Hp. rewrite Hd, Hd1. by apply pids_created. }
  destruct (quanta_collected bq seed mm (pids_of c) Hh Hin Hbq)
    as (mq & -> & Hqk & Hqb).
  destruct (estimates_collected bq seed mm (pids_of c) Hh Hin)
    as (me & -> & Hek & Heb).
  cbn [mbind option_bind].
  destruct (RRMore.simulate_keeps (pids_of c) (initial_bursts_of c) (inject_Z <$> mq)
              (arrivals_of c) (fun _ => True)) as (tl & -> & _); [done | done |].
  cbn [mbind option_bind]. eexists. split; [reflexivity|].
  unfold result_of. cbn [inferred_quanta memory_estimates]. done.
Qed.

(** X20: [simulate_memory_aware] of [Backend/]: whenever the random draws
    lie in [[0, 1)] and the configured quantum is at least 1, the driver
    returns a result; its quanta and its memory estimates are keyed by
    exactly the listed ids; every quantum lies between the configured
    quantum and twice that; every estimate lies between 8 and 320 MB. *)
Theorem memory_aware_quanta_are_bounded seeded fresh_model fresh_choice (c : SystemConfig) :
  (∀ s, unit_draws (seeded s)) → unit_draws fresh_choice → 1 ≤ cpu_quantum c →
  ∃ r, simulate_memory_aware seeded fresh_model fresh_choice c = Some r
    ∧ (∀ p, is_Some (inferred_quanta r !! p) ↔ p ∈ pids_of c)
    ∧ (∀ p q, inferred_quanta r !! p = Some q → cpu_quantum c ≤ q ≤ 2 * cpu_quantum c)
    ∧ (∀ p, is_Some (memory_estimates r !! p) ↔ p ∈ pids_of c)
    ∧ (∀ p est, memory_estimates r !! p = Some est → 8 ≤ est ≤ 320).
Proof.
  intros Hseeded Hfresh Hbq. unfold simulate_memory_aware.
  by apply memory_aware_run_bounded.
Qed.

Lemma toy_seeded_unit : ∀ s, unit_draws (toy_seeded s).
Proof.
  intros s i. unfold toy_seeded.
  pose proof (Z.mod_pos_bound (s * 7 + Z.of_nat i * 13 + 3) 100 ltac:(lia)) as Hm.
  split; [unfold Qle | unfold Qlt]; simpl; lia.
Qed.

Lemma zero_draws_unit : unit_draws zero_draws.
Proof. intros i. by split. Qed.

Lemma memory_aware_quanta_are_bounded_witness :
  (∀ s, unit_draws (toy_seeded s)) ∧ unit_draws zero_draws
  ∧ 1 ≤ cpu_quantum example_config
  ∧ ∃ r, simulate_memory_aware toy_seeded zero_draws zero_draws example_config = Some r
      ∧ (∀ p, is_Some (inferred_quanta r !! p) ↔ p ∈ pids_of example_config)
      ∧ (∀ p q, inferred_quanta r !! p = Some q
                → cpu_quantum example_config ≤ q ≤ 2 * cpu_quantum example_config)
      ∧ (∀ p, is_Some (memory_estimates r !! p) ↔ p ∈ pids_of example_config)
      ∧ (∀ p est, memory_estimates r !! p = Some est → 8 ≤ est ≤ 320).
Proof.
  assert (Hbq : 1 ≤ cpu_quantum example_config) by (vm_compute; discriminate).
  split; [exact toy_seeded_unit|]. split; [exact zero_draws_unit|]. split; [exact Hbq|].
  exact (memory_aware_quanta_are_bounded toy_seeded zero_draws zero_draws example_config
           toy_seeded_unit zero_draws_unit Hbq).
Defined.

(** X21: [simulate_memory_aware] of the older copy [backend/] (seed 42,
    12 rounds): whenever the configured quantum is at least 1, the driver
    returns a result with the same bounds: quanta and estimates keyed by
    exactly the listed ids, every quantum between the configured quantum and
    twice that, every estimate between 8 and 320 MB. *)
Theorem legacy_memory_aware_quanta_are_bounded seeded (c : SystemConfig) :
  1 ≤ cpu_quantum c →
  ∃ r, simulate_memory_aware_legacy seeded c = Some r
    ∧ (∀ p, is_Some (inferred_quanta r !! p) ↔ p ∈ pids_of c)
    ∧ (∀ p q, inferred_quanta r !! p = Some q → cpu_quantum c ≤ q ≤ 2 * cpu_quantum c)
    ∧ (∀ p, is_Some (memory_estimates r !! p) ↔ p ∈ pids_of c)
    ∧ (∀ p est, memory_estimates r !! p = Some est → 8 ≤ est ≤ 320).
Proof.
  intros Hbq. unfold simulate_memory_aware_legacy. cbv zeta.
  set (bq := cpu_quantum c) in *.
  set (c0 := default_config bq (Some 42)).
  match goal with
  | |- context [foldl ?f (new_model seeded (seeded 42) c0) (processes c)] =>
      destruct (create_all_generic_ok c0 f (processes c)) with
        (mm := new_model seeded (seeded 42) c0) as [Hh1 Hd1];
      [intros mm0 p0 Hh0; apply healthy_create_legacy; exact Hh0 | apply healthy_new |];
      set (mm1 := foldl f (new_model seeded (seeded 42) c0) (processes c)) in *
  end.
  destruct (rounds_ok c0 bq adapt_one_legacy (default_config_good _ _)
              (fun mm p => adapt_one_legacy_ok c0 bq mm p (default_config_good _ _))
              (pids_of c) 12 mm1 Hh1) as (mm & Hrounds & Hh & Hd).
  { intros p Hp. rewrite Hd1. by apply pids_created. }
  change (Nat.iter 12 (adapt_round_legacy bq (pids_of c)) (Some mm1) = Some mm) in Hrounds.
  rewrite Hrounds. cbn [mbind option_bind].
  assert (Hin : ∀ p, p ∈ pids_of c → p ∈ dom (Paging.processes mm)).
  { intros p Hp. rewrite Hd, Hd1. by apply pids_created. }
  destruct (quanta_collected bq (Some 42) mm (pids_of c) Hh Hin Hbq)
    as (mq & -> & Hqk & Hqb).
  destruct (estimates_collected bq (Some 42) mm (pids_of c) Hh Hin)
    as (me & -> & Hek & Heb).
  cbn [mbind option_bind].
  destruct (RRMore.simulate_keeps (pids_of c) (initial_bursts_of c) (inject_Z <$> mq)
              (arrivals_of c) (fun _ => True)) as (tl & -> & _); [done | done |].
  cbn [mbind option_bind]. eexists. split; [reflexivity|].
  unfold result_of. cbn [inferred_quanta memory_estimates]. done.
Qed.

Lemma legacy_memory_aware_quanta_are_bounded_witness :
  1 ≤ cpu_quantum example_config
  ∧ ∃ r, simulate_memory_aware_legacy toy_seeded example_config = Some r
      ∧ (∀ p, is_Some (inferred_quanta r !! p) ↔ p ∈ pids_of example_config)
      ∧ (∀ p q, inferred_quanta r !! p = Some q
                → cpu_quantum example_config ≤ q ≤ 2 * cpu_quantum example_config)
      ∧ (∀ p, is_Some (memory_estimates r !! p) ↔ p ∈ pids_of example_config)
      ∧ (∀ p est, memory_estimates r !! p = Some est → 8 ≤ est ≤ 320).
Proof.
  assert (Hbq : 1 ≤ cpu_quantum example_config) by (vm_compute; discriminate).
  split; [exact Hbq|].
  exact (legacy_memory_aware_quanta_are_bounded toy_seeded example_config Hbq).
Defined.

End DriverMore.

(** ** The simulator leaves the CPU idle only until the next arrival *)

Module WorkConserving.
Import RR Metrics RRFacts RRMore.





Section Idle.
Variables (e : env) (rem0 : gmap string Z) (arrival_of : string → Z).
Hypothesis Hok : future_ok e.
Hypothesis Hsorted : time_sorted e.
Hypothesis Harrival : ∀ p, p ∈ processes e → get0 (arr e) p = arrival_of p.










End Idle.


End WorkConserving.

(** ** The list of allowed origins ([backend/app/main.py]) *)

(** A string is a list of characters of any type [C] with decidable
    equality; [isspace] stands for [str.isspace] on one character, [comma]
    and [star] for the characters of [","] and ["*"]. *)
Module Cors.

Section Parse.
Context {C : Type} `{EqDecision C}.
Variables (comma star : C) (isspace : C → bool).

(** [s.split(",")]: one piece more than there are commas. *)
Fixpoint split (s : list C) : list (list C) :=
  match s with
  | [] => [[]]
  | c :: s' =>
      if decide (c = comma) then [] :: split s'
      else match split s' with
           | piece :: rest => (c :: piece) :: rest
           | [] => [[c]]
           end
  end.

Fixpoint lstrip (s : list C) : list C :=
  match s with
  | [] => []
  | c :: s' => if isspace c then lstrip s' else s
  end.

(** [o.strip()]: leading and trailing whitespace removed. *)
Definition strip (s : list C) : list C := reverse (lstrip (reverse (lstrip s))).

Definition _parse_cors_origins (env_val : option (list C)) : list (list C) :=
  match env_val with
  | None => [[star]]
  | Some [] => [[star]]
  | Some v =>
      let items := strip <$> split v in
      let items := filter (fun o => o ≠ []) items in
      match items with
      | [] => [[star]]
      | _ :: _ => items
      end
  end.

(** [",".join(items)]. *)
Fixpoint join (items : list (list C)) : list C :=
  match items with
  | [] => []
  | x :: rest =>
      match rest with
      | [] => x
      | _ :: _ => x ++ comma :: join rest
      end
  end.

(** An origin as the middleware expects it: not empty, without a comma,
    without whitespace at either end. *)
Definition clean (item : list C) : Prop :=
  item ≠ [] ∧ (comma ∉ item)
  ∧ (∀ c, head item = Some c → isspace c = false)
  ∧ (∀ c, last item = Some c → isspace c = false).

Lemma split_comma_free (s : list C) : Forall (fun piece => comma ∉ piece) (split s).
Proof.
  induction s as [|c s IH]; cbn [split].
  - constructor; [apply not_elem_of_nil | constructor].
  - case_decide as Hc.
    + constructor; [apply not_elem_of_nil | done].
    + destruct (split s) as [|piece rest].
      * constructor; [|constructor]. rewrite list_elem_of_singleton. congruence.
      * inversion IH as [|?? Hp Hrest]; subst. constructor; [|done].
        rewrite not_elem_of_cons. split; [congruence | done].
Qed.

Lemma lstrip_suffix (s : list C) : suffix (lstrip s) s.
Proof.
  induction s as [|c s IH]; cbn [lstrip]; [done|].
  destruct (isspace c); [by apply suffix_cons_r | done].
Qed.

Lemma lstrip_head (s : list C) c : head (lstrip s) = Some c → isspace c = false.
Proof.
  induction s as [|c0 s IH]; cbn [lstrip]; [done|].
  destruct (isspace c0) eqn:Hc0; [done|]. by intros [= <-].
Qed.

Lemma lstrip_id (s : list C) :
  (∀ c, head s = Some c → isspace c = false) → lstrip s = s.
Proof. destruct s as [|c s]; [done|]. intros Hh. cbn [lstrip]. by rewrite (Hh c). Qed.

Lemma suffix_last (l1 l2 : list C) : l1 ≠ [] → l1 `suffix_of` l2 → last l1 = last l2.
Proof.
  intros Hne [k ->]. rewrite last_app.
  destruct (last l1) eqn:Hl; [done|]. by apply last_None in Hl.
Qed.

Lemma strip_sub (s : list C) c : c ∈ strip s → c ∈ s.
Proof.
  unfold strip. rewrite elem_of_reverse. intros Hc.
  destruct (lstrip_suffix (reverse (lstrip s))) as [k1 Hk1].
  assert (Hr : c ∈ reverse (lstrip s)) by (rewrite Hk1, elem_of_app; by right).
  rewrite elem_of_reverse in Hr.
  destruct (lstrip_suffix s) as [k2 Hk2]. rewrite Hk2, elem_of_app. by right.
Qed.

Lemma strip_ends (s : list C) :
  (∀ c, head (strip s) = Some c → isspace c = false)
  ∧ (∀ c, last (strip s) = Some c → isspace c = false).
Proof.
  unfold strip. split; intros c.
  - rewrite head_reverse. intros Hl.
    destruct (decide (lstrip (reverse (lstrip s)) = [])) as [He | Hne];
      [by rewrite He in Hl|].
    rewrite (suffix_last _ _ Hne (lstrip_suffix _)), last_reverse in Hl.
    by eapply lstrip_head.
  - rewrite last_reverse. apply lstrip_head.
Qed.

Lemma strip_id (item : list C) : clean item → strip item = item.
Proof.
  intros (_ & _ & Hh & Hl). unfold strip. rewrite (lstrip_id item Hh).
  rewrite lstrip_id; [apply reverse_involutive|].
  intros c. rewrite head_reverse. apply Hl.
Qed.

Lemma split_one (x : list C) : comma ∉ x → split x = [x].
Proof.
  induction x as [|c x IH]; [done|]. rewrite not_elem_of_cons. intros [Hc Hx].
  cbn [split]. rewrite decide_False by done. by rewrite (IH Hx).
Qed.

Lemma split_app_comma (x s : list C) :
  comma ∉ x → split (x ++ comma :: s) = x :: split s.
Proof.
  induction x as [|c x IH]; intros Hx.
  - cbn [app split]. by rewrite decide_True.
  - apply not_elem_of_cons in Hx as [Hc Hx]. cbn [app split].
    rewrite decide_False by done. by rewrite (IH Hx).
Qed.

Lemma split_join (items : list (list C)) :
  items ≠ [] → Forall (fun x => comma ∉ x) items → split (join items) = items.
Proof.
  induction items as [|x rest IH]; [done|]. intros _ Hall.
  inversion Hall as [|?? Hx Hrest]; subst. cbn [join].
  destruct rest as [|y rest]; [by apply split_one|].
  rewrite split_app_comma by done. f_equal. by apply IH.
Qed.

(** X24: [_parse_cors_origins] never returns an empty list; every origin
    it returns is not empty, contains no comma and has no whitespace at
    either end; without a value, or with an empty one, it returns
    [["*"]]. *)
Theorem parsed_origins_are_clean (env_val : option (list C)) :
  star ≠ comma → isspace star = false →
  _parse_cors_origins env_val ≠ []
  ∧ Forall clean (_parse_cors_origins env_val)
  ∧ _parse_cors_origins None = [[star]]
  ∧ _parse_cors_origins (Some []) = [[star]].
Proof.
  intros Hstar Hsp.
  assert (Hdflt : Forall clean [[star]]).
  { constructor; [|constructor]. split; [done|]. split.
    - rewrite list_elem_of_singleton. congruence.
    - split; intros c [= <-]; done. }
  split; [|split; [|done]].
  - destruct env_val as [[|c s]|]; [done | | done]. cbn [_parse_cors_origins]. cbv zeta.
    by destruct (filter _ _).
  - destruct env_val as [[|c s]|]; [done | | done]. cbn [_parse_cors_origins]. cbv zeta.
    destruct (filter (fun o => o ≠ []) (strip <$> split (c :: s))) as [|o os] eqn:Hf;
      [done|].
    rewrite <- Hf. apply Forall_forall. intros item Hin.
    apply list_elem_of_filter in Hin as [Hne Hin].
    apply list_elem_of_fmap in Hin as (piece & -> & Hpiece).
    pose proof (split_comma_free (c :: s)) as Hfree. rewrite Forall_forall in Hfree.
    split; [done|]. split; [|apply strip_ends].
    intros Hc. apply (Hfree piece Hpiece). by apply strip_sub.
Qed.

(** X25: a non-empty list of origins, each not empty, without a comma and
    without whitespace at either end, is read back unchanged from its
    comma-separated form. *)
Theorem parse_reads_back_joined_origins (items : list (list C)) :
  items ≠ [] → Forall clean items →
  _parse_cors_origins (Some (join items)) = items.
Proof.
  intros Hne Hall.
  assert (Hfree : Forall (fun x => comma ∉ x) items).
  { eapply Forall_impl; [exact Hall|]. by intros x (_ & ? & _). }
  assert (Hstrip : strip <$> items = items).
  { clear Hne Hfree. induction Hall as [|x l Hx Hl IH]; [done|].
    by rewrite fmap_cons, IH, strip_id. }
  assert (Hfilter : filter (fun o : list C => o ≠ []) items = items).
  { clear Hne Hfree Hstrip. induction Hall as [|x l Hx Hl IH]; [done|].
    rewrite filter_cons, decide_True by apply Hx. by rewrite IH. }
  assert (Hjoin : join items ≠ []).
  { destruct items as [|x rest]; [done|]. apply Forall_inv in Hall as (Hx & _).
    cbn [join]. destruct rest; [done|]. by destruct x. }
  unfold _parse_cors_origins. destruct (join items) as [|c s] eqn:Hj; [done|].
  cbv zeta. rewrite <- Hj, split_join, Hstrip, Hfilter by done.
  by destruct items.
Qed.
End Parse.

(** The characters of a string of code points below 256, with Python's
    [str.isspace] on them. *)
Definition py_isspace (c : ascii) : bool :=
  bool_decide (nat_of_ascii c ∈ [9; 10; 11; 12; 13; 28; 29; 30; 31; 32; 133; 160]%nat).

Definition chars (s : string) : list ascii := String.list_ascii_of_string s.

Lemma parsed_origins_are_clean_witness :
  let v := Some (chars " http://a.example , ,https://b.example") in
  ("*"%char ≠ ","%char) ∧ py_isspace "*" = false
  ∧ _parse_cors_origins ","%char "*"%char py_isspace v ≠ []
  ∧ Forall (clean ","%char py_isspace) (_parse_cors_origins ","%char "*"%char py_isspace v)
  ∧ _parse_cors_origins ","%char "*"%char py_isspace None = [["*"%char]]
  ∧ _parse_cors_origins ","%char "*"%char py_isspace (Some []) = [["*"%char]].
Proof.
  intros v.
  assert (Hstar : "*"%char ≠ ","%char) by discriminate.
  assert (Hsp : py_isspace "*" = false) by reflexivity.
  split; [exact Hstar|]. split; [exact Hsp|].
  exact (parsed_origins_are_clean ","%char "*"%char py_isspace v Hstar Hsp).
Defined.

Lemma clean_chars (s : string) :
  chars s ≠ [] →
  bool_decide (","%char ∈ chars s) = false →
  (from_option py_isspace true (head (chars s)) = false) →
  (from_option py_isspace true (last (chars s)) = false) →
  clean ","%char py_isspace (chars s).
Proof.
  intros Hne Hc Hh Hl. split; [done|]. split; [by apply bool_decide_eq_false in Hc|].
  split; intros c Hc'; [rewrite Hc' in Hh | rewrite Hc' in Hl]; done.
Qed.

Lemma parse_reads_back_joined_origins_witness :
  let items := [chars "http://a.example"; chars "https://b.example"] in
  items ≠ [] ∧ Forall (clean ","%char py_isspace) items
  ∧ _parse_cors_origins ","%char "*"%char py_isspace (Some (join ","%char items)) = items.
Proof.
  intros items.
  assert (Hne : items ≠ []) by done.
  assert (Hall : Forall (clean ","%char py_isspace) items).
  { repeat constructor; apply clean_chars; done. }
  split; [exact Hne|]. split; [exact Hall|].
  exact (parse_reads_back_joined_origins ","%char "*"%char py_isspace items Hne Hall).
Defined.

End Cors.
